(** * go-errors: a shallow embedding of errors.go and utils.go

    The package builds chains of [*Error] nodes linked through their [Cause]
    field.  Nodes and field maps are Go reference objects: a node is reached
    through a pointer, a field map through a map reference, and both can be
    aliased.  The embedding therefore keeps an explicit store ([heap]) with
    one table for [Error] structs and one for map objects; functions that
    allocate or mutate are written in a state-and-panic monad, functions that
    only read take the store as an argument.  Recursion along [Cause] is
    bounded by a fuel argument; the theorems show that a chain of [k] nodes
    is handled with any fuel above [k] (above [k + 1] for [Fatal], which may
    put one more node on top).

    What lies outside the package enters as data:
    - an error of a foreign type is an opaque value with an identity and the
      text of its [Error()] method, and is assumed comparable with [==];
    - the answer of [runtime.Callers] and [runtime.FuncForPC] is an argument
      ([callers]) of every function that captures a call-site;
    - the renderings of package [fmt] for arbitrary values are a parameter
      ([fmt_pkg]) of the section that holds the constructors and formatters. *)

From Stdlib Require Import ZArith Lia Ascii.
From stdpp Require Import gmap strings list fin_maps pretty sorting.

Local Open Scope string_scope.
Local Open Scope list_scope.

(** ** Values *)

(** Addresses of [Error] structs and identities of map objects. *)
Abbreviation loc := nat (only parsing).
Abbreviation mref := nat (only parsing).

(** An error value of a type defined outside this package.  The package only
    ever compares it ([==]) and asks for its [Error()] text. *)
Record foreign := Foreign { foreign_id : nat; foreign_text : string }.

Global Instance foreign_eq_dec : EqDecision foreign.
Proof. solve_decision. Defined.

(** A Go interface value of static type [error]: the nil interface, a
    [*Error] (whose pointer may itself be nil), or a foreign error. *)
Inductive error :=
  | nil_error
  | ptr_error (p : option loc)
  | foreign_error (f : foreign).

Global Instance error_eq_dec : EqDecision error.
Proof. solve_decision. Defined.

(** A Go [interface{}] value, by dynamic type: the cases the package's type
    switches tell apart, and two representatives of every other type. *)
Inductive value :=
  | VNil                          (* the nil interface *)
  | VKind (k : string)            (* Kind *)
  | VString (s : string)          (* string *)
  | VError (p : option loc)       (* *Error, possibly a nil pointer *)
  | VForeign (f : foreign)        (* any other type implementing error *)
  | VMap (m : option mref)        (* map[string]interface{}, possibly nil *)
  | VInt (z : Z)                  (* int *)
  | VOther (tag : nat).           (* a value of any further type *)

Global Instance value_eq_dec : EqDecision value.
Proof. solve_decision. Defined.

(** Passing an [error] where an [interface{}] is expected keeps its dynamic
    type and value. *)
Definition value_of_error (err : error) : value :=
  match err with
  | nil_error => VNil
  | ptr_error p => VError p
  | foreign_error f => VForeign f
  end.

(** [type Error struct].  The exported fields and the unexported call-site
    fields, in the order of the source. *)
Record Error := mkError {
  err_Kind : string;
  err_Message : string;
  err_Cause : error;
  err_Fields : option mref;
  err_caller : string;
  err_file : string;
  err_line : Z
}.

(** [&Error{}]: every field at its zero value. *)
Definition zero_Error : Error :=
  mkError "" "" nil_error None "" "" 0.

(** [type StackFrame struct]. *)
Record StackFrame := mkStackFrame {
  frame_Kind : string;
  frame_Message : string;
  frame_Caller : string;
  frame_File : string;
  frame_Line : Z;
  frame_Fields : option mref
}.

(** ** The store *)

Record heap := mkHeap {
  errs : gmap nat Error;
  maps : gmap nat (gmap string value)
}.

(** ** Outcomes *)

(** What a panic carries: the string given to [panic], or the runtime error
    raised by dereferencing a nil pointer, by assigning to an entry of a nil
    map, or by indexing a slice out of range. *)
Inductive panic_value :=
  | PanicString (s : string)
  | NilDereference
  | NilMapAssignment
  | IndexOutOfRange.

(** The result of running a function of the model.  [OutOfFuel] and [Stuck]
    are artefacts of the model: the recursion bound was reached, or an
    address was read that the store does not hold (which no Go program can
    do). *)
Inductive outcome (A : Type) :=
  | Ok (a : A)
  | Panic (v : panic_value)
  | OutOfFuel
  | Stuck.
Arguments Ok {A} a.
Arguments Panic {A} v.
Arguments OutOfFuel {A}.
Arguments Stuck {A}.

Definition bindO {A B} (o : outcome A) (k : A -> outcome B) : outcome B :=
  match o with
  | Ok a => k a
  | Panic v => Panic v
  | OutOfFuel => OutOfFuel
  | Stuck => Stuck
  end.

(** Functions that write to the store.  The store is returned in every case:
    a panic does not undo the writes made before it. *)
Definition M (A : Type) : Type := heap -> outcome A * heap.

Definition ret {A} (a : A) : M A := fun h => (Ok a, h).

Definition bindM {A B} (m : M A) (k : A -> M B) : M B :=
  fun h =>
    match m h with
    | (Ok a, h') => k a h'
    | (Panic v, h') => (Panic v, h')
    | (OutOfFuel, h') => (OutOfFuel, h')
    | (Stuck, h') => (Stuck, h')
    end.

Definition panic {A} (v : panic_value) : M A := fun h => (Panic v, h).

(** Run a read-only function on the current store. *)
Definition readM {A} (f : heap -> outcome A) : M A := fun h => (f h, h).

Declare Scope go_scope.
Delimit Scope go_scope with go.
Notation "'let?' x ':=' o 'in' k" := (bindO o (fun x => k))
  (at level 10, x pattern, o at level 100, k at level 200) : go_scope.
Notation "'let!' x ':=' m 'in' k" := (bindM m (fun x => k))
  (at level 10, x pattern, m at level 100, k at level 200) : go_scope.
Notation "m ';;!' k" := (bindM m (fun _ => k))
  (at level 100, k at level 200, right associativity) : go_scope.
Local Open Scope go_scope.

(** ** Store primitives *)

(** [*p] for a [*Error]. *)
Definition deref (h : heap) (p : option loc) : outcome Error :=
  match p with
  | None => Panic NilDereference
  | Some l =>
      match errs h !! l with
      | Some e => Ok e
      | None => Stuck
      end
  end.

(** The entries of a map value; a nil map reads as the empty map. *)
Definition map_entries (h : heap) (m : option mref) : outcome (gmap string value) :=
  match m with
  | None => Ok ∅
  | Some r =>
      match maps h !! r with
      | Some g => Ok g
      | None => Stuck
      end
  end.

(** A new [Error] struct at an address not in use. *)
Definition alloc_Error (e : Error) : M loc :=
  fun h =>
    let l := fresh (dom (errs h)) in
    (Ok l, mkHeap (<[l := e]> (errs h)) (maps h)).

(** [*p = e] for a pointer already known to be valid. *)
Definition store_Error (l : loc) (e : Error) : M unit :=
  fun h =>
    match errs h !! l with
    | Some _ => (Ok tt, mkHeap (<[l := e]> (errs h)) (maps h))
    | None => (Stuck, h)
    end.

(** [make(map[string]interface{})]. *)
Definition make_map : M mref :=
  fun h =>
    let r := fresh (dom (maps h)) in
    (Ok r, mkHeap (errs h) (<[r := ∅]> (maps h))).

(** [m[k] = v]. *)
Definition map_assign (m : option mref) (k : string) (v : value) : M unit :=
  fun h =>
    match m with
    | None => (Panic NilMapAssignment, h)
    | Some r =>
        match maps h !! r with
        | Some g => (Ok tt, mkHeap (errs h) (<[r := <[k := v]> g]> (maps h)))
        | None => (Stuck, h)
        end
    end.

(** ** utils.go: Is *)

(** Go's [==] between the [Kind] of a node and an [interface{}] operand: the
    operands are equal when the dynamic type of the interface value is [Kind]
    itself and the strings agree.  A plain [string] has another dynamic type
    and is never equal to a [Kind]. *)
Definition kind_eq (k : string) (val : value) : bool :=
  match val with
  | VKind t => String.eqb k t
  | _ => false
  end.

(** Go's [==] between a value of type [error] and an [interface{}] operand:
    equal dynamic types and equal values; two nil interfaces are equal. *)
Definition cause_eq (c : error) (val : value) : bool :=
  bool_decide (value_of_error c = val).

(** The body of the [for _, k := range kind] loop of [Is] for one candidate:
    the type switch and the comparison of the selected case. *)
Definition candidate_matches (e : Error) (k : value) : bool :=
  match k with
  | VKind _ | VString _ => kind_eq (err_Kind e) k
  | _ => cause_eq (err_Cause e) k
  end.

(** The loop itself: [true] as soon as one candidate matches. *)
Fixpoint any_candidate (e : Error) (kind : list value) : bool :=
  match kind with
  | [] => false
  | k :: rest => if candidate_matches e k then true else any_candidate e rest
  end.

Definition is_nil (err : error) : bool :=
  match err with
  | nil_error => true
  | _ => false
  end.

Fixpoint Is (n : nat) (h : heap) (err : error) (kind : list value) : outcome bool :=
  match n with
  | 0 => OutOfFuel
  | S n' =>
      match err with
      | nil_error => Ok false
      | foreign_error _ => Ok false
      | ptr_error p =>
          let? e := deref h p in
          if any_candidate e kind then Ok true
          else if is_nil (err_Cause e) then Ok false
          else Is n' h (err_Cause e) kind
      end
  end.

(** ** utils.go: Message *)

Definition fallback_message : string :=
  "An internal error has occurred. Please contact technical support.".

Definition nonempty (s : string) : bool := negb (String.eqb s "").

Fixpoint Message (n : nat) (h : heap) (err : error) : outcome string :=
  match n with
  | 0 => OutOfFuel
  | S n' =>
      match err with
      | nil_error => Ok ""
      | foreign_error _ => Ok fallback_message
      | ptr_error p =>
          let? e := deref h p in
          if nonempty (err_Message e) then Ok (err_Message e)
          else if negb (is_nil (err_Cause e)) then Message n' h (err_Cause e)
          else Ok fallback_message
      end
  end.

(** ** utils.go: Stack *)

(** A Go slice result: [None] is the nil slice, [Some l] a non-nil slice
    with elements [l]. *)
Definition slice (A : Type) : Type := option (list A).

(** The first loop of [Stack]: the number of frames to reserve. *)
Fixpoint stack_size (n : nat) (h : heap) (err : error) (size : nat) : outcome nat :=
  match n with
  | 0 => OutOfFuel
  | S n' =>
      match err with
      | nil_error => Ok size
      | foreign_error _ => Ok (S size)
      | ptr_error p =>
          let? e := deref h p in
          stack_size n' h (err_Cause e) (S size)
      end
  end.

Definition frame_of_Error (e : Error) : StackFrame :=
  mkStackFrame (err_Kind e) (err_Message e) (err_caller e) (err_file e)
               (err_line e) (err_Fields e).

(** The frame of a foreign error: [StackFrame{Message: err.Error()}]. *)
Definition frame_of_foreign (f : foreign) : StackFrame :=
  mkStackFrame "" (foreign_text f) "" "" 0 None.

(** The second loop of [Stack]: append one frame per error. *)
Fixpoint stack_frames (n : nat) (h : heap) (err : error) (stack : list StackFrame)
  : outcome (list StackFrame) :=
  match n with
  | 0 => OutOfFuel
  | S n' =>
      match err with
      | nil_error => Ok stack
      | foreign_error f => Ok (stack ++ [frame_of_foreign f])
      | ptr_error p =>
          let? e := deref h p in
          stack_frames n' h (err_Cause e) (stack ++ [frame_of_Error e])
      end
  end.

Definition Stack (n : nat) (h : heap) (err : error) : outcome (slice StackFrame) :=
  match err with
  | nil_error => Ok (Some [])
  | _ =>
      let? size := stack_size n h err 0 in
      (* make([]StackFrame, 0, size): the capacity is not observable *)
      let? stack := stack_frames n h err [] in
      Ok (Some stack)
  end.

(** ** utils.go: Fields *)

(** [for k, v := range src { dst[k] = v }], over the entries of [src] in the
    order the iteration visits them. *)
Fixpoint range_assign (dst : mref) (entries : list (string * value)) : M unit :=
  match entries with
  | [] => ret tt
  | (k, v) :: rest => map_assign (Some dst) k v ;;! range_assign dst rest
  end.

(** [Fields] returns a map reference: nil, the own map of a node, or a map
    made during the call.  The struct behind [e] is read once: nothing in
    [Fields] writes to an [Error]. *)
Fixpoint Fields (n : nat) (err : error) : M (option mref) :=
  match n with
  | 0 => fun h => (OutOfFuel, h)
  | S n' =>
      match err with
      | nil_error => ret None
      | foreign_error _ => ret None
      | ptr_error p =>
          let! e := readM (fun h => deref h p) in
          let! fields :=
            (if negb (is_nil (err_Cause e)) then
               let! causeFields := Fields n' (err_Cause e) in
               match causeFields with
               | Some cf =>
                   let! fields := make_map in
                   let! entries := readM (fun h => map_entries h (Some cf)) in
                   range_assign fields (map_to_list entries) ;;!
                   ret (Some fields)
               | None => ret None
               end
             else ret None) in
          match err_Fields e with
          | Some own =>
              match fields with
              | None => ret (Some own)
              | Some r =>
                  let! entries := readM (fun h => map_entries h (Some own)) in
                  range_assign r (map_to_list entries) ;;!
                  ret (Some r)
              end
          | None => ret fields
          end
      end
  end.

(** ** errors.go *)

(** What [runtime.Callers(3, ...)] and [runtime.FuncForPC] report to
    [updateCaller]: no frame at that depth, a frame without function
    information, or the name, file and line of the calling function. *)
Inductive callers :=
  | NoFrames
  | NoFunc
  | Frame (name file : string) (line : Z).

(** [strings.LastIndex]: the index of the last occurrence of [substr] in
    [s], or -1. *)
Fixpoint last_index_from (s substr : string) (i : Z) (found : Z) : Z :=
  let found' := if String.prefix substr s then i else found in
  match s with
  | EmptyString => found'
  | String _ s' => last_index_from s' substr (i + 1) found'
  end.

Definition LastIndex (s substr : string) : Z := last_index_from s substr 0 (-1).

(** [s[i:]]. *)
Fixpoint string_from (i : nat) (s : string) : string :=
  match i, s with
  | 0, _ => s
  | S i', String _ s' => string_from i' s'
  | S _, EmptyString => EmptyString
  end.

(** [strconv.Itoa] and the [%d] verb. *)
Definition Itoa (z : Z) : string := pretty z.

Definition set_Kind (v : string) (e : Error) : Error :=
  mkError v (err_Message e) (err_Cause e) (err_Fields e)
          (err_caller e) (err_file e) (err_line e).
Definition set_Message (v : string) (e : Error) : Error :=
  mkError (err_Kind e) v (err_Cause e) (err_Fields e)
          (err_caller e) (err_file e) (err_line e).
Definition set_Cause (v : error) (e : Error) : Error :=
  mkError (err_Kind e) (err_Message e) v (err_Fields e)
          (err_caller e) (err_file e) (err_line e).
Definition set_Fields (v : option mref) (e : Error) : Error :=
  mkError (err_Kind e) (err_Message e) (err_Cause e) v
          (err_caller e) (err_file e) (err_line e).
Definition set_site (c f : string) (l : Z) (e : Error) : Error :=
  mkError (err_Kind e) (err_Message e) (err_Cause e) (err_Fields e) c f l.

(** [p.field = v]: read the struct behind [p], write it back changed. *)
Definition update_Error (p : option loc) (f : Error -> Error) : M unit :=
  let! e := readM (fun h => deref h p) in
  match p with
  | Some l => store_Error l (f e)
  | None => panic NilDereference
  end.

Definition updateCaller (pc : callers) (err : loc) : M unit :=
  match pc with
  | NoFrames => ret tt
  | NoFunc => ret tt
  | Frame name file line =>
      let li := (LastIndex name "/" + 1)%Z in
      let funcName := string_from (Z.to_nat li) name in
      update_Error (Some err) (set_site funcName file line)
  end.

(** [pad]: write the padding unless the buffer is empty. *)
Definition pad (buf : string) (padding : string) : string :=
  if nonempty buf then buf +:+ padding else buf.

(** [sort.Strings]: ascending, byte by byte. *)
Definition sort_Strings (l : list string) : list string :=
  merge_sort String.le l.

(** ** utils.go: FieldsSlice *)

(** [append(s, x)]: the result is never the nil slice. *)
Definition append {A} (s : slice A) (x : A) : slice A :=
  Some (default [] s ++ [x]).

(** [FieldsSlice] starts from two nil slices ([var fieldKeys []string],
    [var fields []interface{}]); the keys enter the result as values of
    dynamic type [string]. *)
Definition FieldsSlice (n : nat) (err : error) : M (slice value) :=
  if is_nil err then ret None
  else
    let! fieldMap := Fields n err in
    let! entries := readM (fun h => map_entries h fieldMap) in
    let fieldKeys := sort_Strings (map_to_list entries).*1 in
    let fields :=
      foldl (fun fields k =>
               append (append fields (VString k)) (default VNil (entries !! k)))
            None fieldKeys in
    ret fields.

(** The line feed and the double quote of the source's string literals. *)
Definition nl : string := String "010"%char EmptyString.
Definition dq : string := String "034"%char EmptyString.

(** The part of package [fmt] the source relies on: the text of the verbs
    [%T] and [%v] for an arbitrary value (the latter may follow pointers, so
    it reads the store), and the text [Sprintf] substitutes for an operand
    whose [Format] method panicked. *)
Record fmt_pkg := {
  fmt_T : value -> string;
  fmt_v : heap -> value -> string;
  fmt_recovered : panic_value -> string
}.

Section Package.

Context (fmt : fmt_pkg).

(** One line of the verbose field listing. *)
Definition field_line (h : heap) (fields : gmap string value) (buf : string) (k : string)
  : string :=
  buf +:+ "    " +:+ "- " +:+ dq +:+ k +:+ dq +:+ ": "
      +:+ fmt_v fmt h (default VNil (fields !! k)) +:+ nl.

Fixpoint formatAccumulator (n : nat) (h : heap) (e : option loc) (buf : string)
    (asStack isCause : bool) : outcome string :=
  match n with
  | 0 => OutOfFuel
  | S n' =>
      let? s := deref h e in
      let buf := if asStack && negb isCause then buf +:+ "Error" else buf in
      let buf :=
        if nonempty (err_caller s)
        then pad buf ": " +:+ "[" +:+ err_caller s +:+ "]" else buf in
      let buf :=
        if nonempty (err_Message s)
        then pad buf ": " +:+ err_Message s else buf in
      let buf :=
        if nonempty (err_Kind s)
        then pad buf " " +:+ "(" +:+ err_Kind s +:+ ")" else buf in
      let? buf :=
        if asStack then
          let buf := buf +:+ nl +:+ "    " +:+ "File: " +:+ dq +:+ err_file s
                         +:+ dq +:+ ", line " +:+ Itoa (err_line s) +:+ nl in
          let? fields := map_entries h (err_Fields s) in
          if (0 <? size fields)%nat then
            let buf := buf +:+ "    " +:+ "With fields:" +:+ nl in
            let fieldKeys := sort_Strings (map_to_list fields).*1 in
            Ok (foldl (field_line h fields) buf fieldKeys)
          else Ok buf
        else Ok buf in
      match err_Cause s with
      | nil_error => Ok buf
      | ptr_error cause =>
          let buf := if asStack then buf +:+ "Caused by" else buf in
          formatAccumulator n' h cause buf asStack true
      | foreign_error f =>
          let buf := if asStack then buf +:+ "Caused by" else buf in
          Ok (pad buf ": " +:+ foreign_text f)
      end
  end.

Definition format (n : nat) (h : heap) (e : option loc) (asStack : bool) : outcome string :=
  formatAccumulator n h e "" asStack false.

(** [(e *Error) Error()]. *)
Definition Error_method (n : nat) (h : heap) (e : option loc) : outcome string :=
  format n h e false.

(** The type switch of [newError] on one argument, writing into the node
    [err]. *)
Definition newError_arg (err : loc) (arg : value) : M unit :=
  match arg with
  | VKind v => update_Error (Some err) (set_Kind v)
  | VString v => update_Error (Some err) (set_Message v)
  | VError None => panic (PanicString "errors: attempted to wrap nil *Error")
  | VError (Some v) =>
      let! cv := readM (fun h => deref h (Some v)) in
      let! copy := alloc_Error cv in
      update_Error (Some err) (set_Cause (ptr_error (Some copy)))
  | VForeign v => update_Error (Some err) (set_Cause (foreign_error v))
  | VMap v => update_Error (Some err) (set_Fields v)
  | VNil | VInt _ | VOther _ =>
      fun h =>
        panic (PanicString ("errors: bad call to errors.New: unknown type "
                            +:+ fmt_T fmt arg +:+ ", value " +:+ fmt_v fmt h arg)) h
  end.

(** The loop of [newError] over the arguments. *)
Fixpoint newError_loop (err : loc) (args : list value) : M unit :=
  match args with
  | [] => ret tt
  | arg :: rest => newError_arg err arg ;;! newError_loop err rest
  end.

Definition newError (args : list value) : M loc :=
  match args with
  | [] => panic (PanicString "errors: call to errors.New with no arguments")
  | _ =>
      let! err := alloc_Error zero_Error in
      newError_loop err args ;;!
      ret err
  end.

Definition New (pc : callers) (args : list value) : M loc :=
  let! err := newError args in
  updateCaller pc err ;;!
  ret err.

(** [Wrap] returns a [*Error] that may be nil. *)
Definition Wrap (pc : callers) (cause : error) (args : list value) : M (option loc) :=
  if is_nil cause then ret None
  else
    let args := args ++ [value_of_error cause] in
    let! err := newError args in
    updateCaller pc err ;;!
    ret (Some err).

(** [(e *Error) Format(s, c)]: what is written to [s], given the verb [c] and
    whether the flag [+] is set. *)
Definition Format (n : nat) (h : heap) (e : option loc) (plus : bool) (c : ascii)
  : outcome string :=
  if Ascii.eqb c "v"%char && plus then format n h e true
  else format n h e false.

(** [fmt.Sprintf("%+v", e)] for a [*Error]: [fmt] calls [Format] with the
    verb [v] and the flag [+]; for a nil pointer, or when [Format] panics, it
    prints a text of its own instead. *)
Definition Sprintf_plus_v (n : nat) (h : heap) (e : option loc) : outcome string :=
  match e with
  | None => Ok "<nil>"
  | Some _ =>
      match Format n h e true "v"%char with
      | Ok s => Ok s
      | Panic v => Ok (fmt_recovered fmt v)
      | OutOfFuel => OutOfFuel
      | Stuck => Stuck
      end
  end.

Definition same_site (a b : Error) : bool :=
  let isFileMatch := String.eqb (err_file a) (err_file b) in
  let isLineMatch := Z.eqb (err_line a) (err_line b) in
  let isCallerMatch := String.eqb (err_caller a) (err_caller b) in
  isFileMatch && isLineMatch && isCallerMatch.

Definition Fatal (n : nat) (pc : callers) (err : error) : M unit :=
  if is_nil err then ret tt
  else
    let! wrapped := newError [value_of_error err] in
    updateCaller pc wrapped ;;!
    let! wrapped :=
      match err with
      | ptr_error v =>
          let! ev := readM (fun h => deref h v) in
          let! ew := readM (fun h => deref h (Some wrapped)) in
          if same_site ev ew then ret v else ret (Some wrapped)
      | _ => ret (Some wrapped)
      end in
    let! msg := readM (fun h => Message n h (ptr_error wrapped)) in
    let! txt := readM (fun h => Sprintf_plus_v n h wrapped) in
    panic (PanicString ("fatal error: " +:+ msg +:+ nl +:+ nl +:+ txt)).

Definition WithField (e : option loc) (fieldKey : string) (fieldValue : value)
  : M (option loc) :=
  let! s := readM (fun h => deref h e) in
  match err_Fields s with
  | None =>
      let! r := make_map in
      update_Error e (set_Fields (Some r))
  | Some _ => ret tt
  end ;;!
  let! s := readM (fun h => deref h e) in
  map_assign (err_Fields s) fieldKey fieldValue ;;!
  ret e.

(** The loop of [WithFields]; [kvs] is what remains from index [i] on.  [pcN]
    and [pcF] are the call-site reports for the calls to [New] and [Fatal]
    made from [WithFields]. *)
Fixpoint WithFields_loop (n : nat) (pcN pcF : callers) (e : option loc)
    (kvs : list value) (i : nat) : M unit :=
  match kvs with
  | [] => ret tt
  | k :: rest =>
      let! key :=
        match k with
        | VString key => ret key
        | _ =>
            (let! err := New pcN [VString
               ("errors: invalid type for key passed to WithFields at index "
                +:+ Itoa (Z.of_nat i))] in
             Fatal n pcF (ptr_error (Some err))) ;;!
            ret ""
        end in
      match rest with
      | [] => panic IndexOutOfRange
      | v :: rest' =>
          let! s := readM (fun h => deref h e) in
          map_assign (err_Fields s) key v ;;!
          WithFields_loop n pcN pcF e rest' (i + 2)
      end
  end.

Definition WithFields (n : nat) (pcN pcF : callers) (e : option loc) (kvs : list value)
  : M (option loc) :=
  let kvc := length kvs in
  (if negb (kvc mod 2 =? 0)%nat then
     let! err := New pcN [VString
       ("errors: invalid argument count for WithFields, expected even number of fields, got "
        +:+ Itoa (Z.of_nat kvc))] in
     Fatal n pcF (ptr_error (Some err))
   else ret tt) ;;!
  let! s := readM (fun h => deref h e) in
  match err_Fields s with
  | None =>
      let! r := make_map in
      update_Error e (set_Fields (Some r))
  | Some _ => ret tt
  end ;;!
  WithFields_loop n pcN pcF e kvs 0 ;;!
  ret e.

(** ** Chains of nodes *)

(** The field map of a node, when it has one, is a map of the store. *)
Definition fields_in_store (h : heap) (e : Error) : Prop :=
  match err_Fields e with
  | Some m => is_Some (maps h !! m)
  | None => True
  end.

(** [chain h err es t]: following [Cause] from [err] visits the structs [es],
    head first, every pointer on the way being non-nil and held by the store,
    and ends at the nil interface ([t = None]) or at the foreign error [f]
    ([t = Some f]).  The derivation is finite, so the chain has no cycle. *)
Inductive chain (h : heap) : error -> list Error -> option foreign -> Prop :=
  | chain_nil : chain h nil_error [] None
  | chain_foreign f : chain h (foreign_error f) [] (Some f)
  | chain_node l e es t :
      errs h !! l = Some e ->
      fields_in_store h e ->
      chain h (err_Cause e) es t ->
      chain h (ptr_error (Some l)) (e :: es) t.

(** The entries of the node's own field map; none for a nil map. *)
Definition own_fields (h : heap) (e : Error) : gmap string value :=
  match err_Fields e with
  | Some m => default ∅ (maps h !! m)
  | None => ∅
  end.

(** The field maps of a chain merged with the head taking precedence. *)
Definition merged_fields (h : heap) (es : list Error) : gmap string value :=
  foldr (fun e acc => own_fields h e ∪ acc) ∅ es.

(** The frame a chain ends with. *)
Definition terminal_frames (t : option foreign) : list StackFrame :=
  match t with
  | Some f => [mkStackFrame "" (foreign_text f) "" "" 0 None]
  | None => []
  end.

(** [s] occurs in [t]. *)
Definition substring_of (s t : string) : Prop :=
  exists pre post, t = pre +:+ s +:+ post.

(** A constructor argument that no case of the type switch of [newError]
    accepts. *)
Definition unrecognized (v : value) : Prop :=
  match v with
  | VNil | VInt _ | VOther _ => True
  | _ => False
  end.

Definition is_string_value (v : value) : Prop :=
  match v with
  | VString _ => True
  | _ => False
  end.

(** The pointers among the constructor arguments are held by the store. *)
Definition args_in_store (h : heap) (args : list value) : Prop :=
  forall l, VError (Some l) ∈ args -> is_Some (errs h !! l).

(** The last argument that sets the cause. *)
Fixpoint last_cause (args : list value) : option value :=
  match args with
  | [] => None
  | a :: rest =>
      match last_cause rest with
      | Some c => Some c
      | None =>
          match a with
          | VError _ | VForeign _ => Some a
          | _ => None
          end
      end
  end.

(** Attach pairs to a map in order: a later pair replaces an earlier one
    with the same key. *)
Definition attach (g : gmap string value) (kvs : list (string * value))
  : gmap string value :=
  foldl (fun acc kv => <[kv.1 := kv.2]> acc) g kvs.

(** Two structs that differ at most in the call-site fields. *)
Definition same_but_site (a b : Error) : Prop :=
  err_Kind a = err_Kind b /\ err_Message a = err_Message b /\
  err_Cause a = err_Cause b /\ err_Fields a = err_Fields b.

(** A constructor argument that makes [newError] panic: one of a type the
    switch does not know, or a nil [*Error]. *)
Definition bad_arg (v : value) : Prop := unrecognized v \/ v = VError None.

(** [h'] is [h] after writes to the struct at [err] and allocations of new
    structs: maps and the other structs of [h] are as they were. *)
Definition grows_at (err : loc) (h h' : heap) : Prop :=
  maps h' = maps h /\
  (forall l, l <> err -> is_Some (errs h !! l) -> errs h' !! l = errs h !! l) /\
  (forall l, errs h' !! l = None -> errs h !! l = None).

(** What the cause slot of the node at [l] holds after the arguments have
    been read: the last error among them, a [*Error] having been copied to an
    address [q] that was not in use. *)
Definition cause_after (h h' : heap) (l : loc) (args : list value) (e0 e' : Error)
  : Prop :=
  match last_cause args with
  | None => err_Cause e' = err_Cause e0
  | Some (VForeign f) => err_Cause e' = foreign_error f
  | Some (VError (Some p)) =>
      exists q, err_Cause e' = ptr_error (Some q) /\ q <> l /\
                errs h !! q = None /\ errs h' !! q = errs h !! p
  | Some _ => True
  end.

(** [b] is [a] followed by more text. *)
Definition extends (a b : string) : Prop := exists s, b = a +:+ s.

(** The flattened key/value list of string-keyed pairs. *)
Fixpoint flatten_pairs (pairs : list (string * value)) : list value :=
  match pairs with
  | [] => []
  | (k, v) :: rest => VString k :: v :: flatten_pairs rest
  end.

(** An argument list [WithFields] refuses: an odd number of values, or a
    value that is not a string at an even index. *)
Definition bad_kvs (kvs : list value) : Prop :=
  Nat.Odd (length kvs) \/
  exists i k, kvs !! (2 * i) = Some k /\ ~ is_string_value k.

(** ** A sample store

    Two nodes: the head at address 0 with a message, no kind and one field,
    wrapping the node at address 1, which has a kind, no message, two fields
    and a foreign error as its cause. *)

Definition sample_eof : foreign := Foreign 7 "EOF".

Definition sample_root : Error :=
  mkError "timeout" "" (foreign_error sample_eof) (Some 1)
          "client.fetch" "client.go" 12.

Definition sample_head : Error :=
  mkError "" "fetch failed" (ptr_error (Some 1)) (Some 0)
          "accom.load" "accom.go" 40.

Definition sample_heap : heap :=
  mkHeap (<[0 := sample_head]> (<[1 := sample_root]> ∅))
         (<[0 := <["foo" := VString "bar"]> ∅]>
            (<[1 := <["foo" := VString "qux"]> (<["baz" := VInt 1]> ∅)]> ∅)).

(** A rendering of values good enough to run the functions. *)
Definition sample_fmt : fmt_pkg :=
  {| fmt_T := fun v => match v with VInt _ => "int" | _ => "?" end;
     fmt_v := fun _ v =>
                match v with
                | VString s => s
                | VKind s => s
                | VInt z => Itoa z
                | _ => "?"
                end;
     fmt_recovered := fun _ => "%!v(PANIC)" |}.

Definition sample_site : callers :=
  Frame "github.com/icelolly/go-errors/example.main" "main.go" 33.

(** A check that decides [args_in_store]. *)
Definition args_in_storeb (h : heap) (args : list value) : bool :=
  forallb (fun a =>
             match a with
             | VError (Some p) => bool_decide (is_Some (errs h !! p))
             | _ => true
             end) args.

(** ** Definitions for further properties *)

(** The last argument on which [f] is defined, with its value. *)
Fixpoint last_of {A} (f : value -> option A) (args : list value) : option A :=
  match args with
  | [] => None
  | a :: rest =>
      match last_of f rest with
      | Some x => Some x
      | None => f a
      end
  end.

Definition kind_of (v : value) : option string :=
  match v with VKind k => Some k | _ => None end.
Definition message_of (v : value) : option string :=
  match v with VString s => Some s | _ => None end.
Definition fields_of (v : value) : option (option mref) :=
  match v with VMap m => Some m | _ => None end.

(** The maps among the constructor arguments are held by the store. *)
Definition maps_in_store (h : heap) (args : list value) : Prop :=
  forall m, VMap (Some m) ∈ args -> is_Some (maps h !! m).

(** The call-site a frame report leaves on a node: the function name from
    its last slash on, the file and the line; nothing without a report. *)
Definition site_of (pc : callers) : string * string * Z :=
  match pc with
  | Frame name file line =>
      (string_from (Z.to_nat (LastIndex name "/" + 1)) name, file, line)
  | _ => ("", "", 0%Z)
  end.

(** The pairs of a map in ascending order of their keys. *)
Definition sorted_pairs (g : gmap string value) : list (string * value) :=
  (fun k => (k, default VNil (g !! k))) <$> sort_Strings (map_to_list g).*1.

(** One [WithField] call per pair, each on the result of the one before. *)
Fixpoint WithField_each (e : option loc) (pairs : list (string * value))
  : M (option loc) :=
  match pairs with
  | [] => ret e
  | (k, v) :: rest =>
      let! e' := WithField e k v in
      WithField_each e' rest
  end.

(** The compact text of one node by itself: its caller in brackets, its
    message and its kind in parentheses, each only when it is not empty. *)
Definition own_text (e : Error) : string :=
  let buf := if nonempty (err_caller e) then "[" +:+ err_caller e +:+ "]" else "" in
  let buf := if nonempty (err_Message e) then pad buf ": " +:+ err_Message e else buf in
  if nonempty (err_Kind e) then pad buf " " +:+ "(" +:+ err_Kind e +:+ ")" else buf.

(** What the compact rendering writes for one node into the buffer [buf]. *)
Definition compact_node (s : Error) (buf : string) : string :=
  let buf :=
    if nonempty (err_caller s)
    then pad buf ": " +:+ "[" +:+ err_caller s +:+ "]" else buf in
  let buf :=
    if nonempty (err_Message s)
    then pad buf ": " +:+ err_Message s else buf in
  if nonempty (err_Kind s)
  then pad buf " " +:+ "(" +:+ err_Kind s +:+ ")" else buf.

(** * Properties *)

(** ** Chains *)

Lemma chain_inv_ptr h p es t :
  chain h (ptr_error p) es t ->
  exists l e es', p = Some l /\ es = e :: es' /\ errs h !! l = Some e /\
                  fields_in_store h e /\ chain h (err_Cause e) es' t.
Proof. inversion 1; subst; eauto 10. Qed.

Lemma chain_nil_inv h es t : chain h nil_error es t -> es = [] /\ t = None.
Proof. by inversion 1. Qed.

Lemma chain_foreign_inv h f es t :
  chain h (foreign_error f) es t -> es = [] /\ t = Some f.
Proof. by inversion 1. Qed.

(** A chain is still a chain, with the same structs, in a store that holds
    everything the first one held. *)
Lemma chain_mono h h' err es t :
  errs h ⊆ errs h' -> maps h ⊆ maps h' ->
  chain h err es t -> chain h' err es t.
Proof.
  intros He Hm Hc. induction Hc as [|f|l e es t Hl Hf _ IH]; try by constructor.
  apply chain_node; [by eapply lookup_weaken| |done].
  unfold fields_in_store in *. destruct (err_Fields e) as [m|]; [|done].
  destruct Hf as [g Hg]. exists g. by eapply lookup_weaken.
Qed.

Lemma nonempty_true s : nonempty s = true <-> s <> "".
Proof.
  unfold nonempty. rewrite negb_true_iff. apply String.eqb_neq.
Qed.

Lemma nonempty_false s : nonempty s = false <-> s = "".
Proof.
  unfold nonempty. rewrite negb_false_iff. apply String.eqb_eq.
Qed.

(** ** Message *)

Lemma Message_chain n h err es t :
  chain h err es t -> length es < n ->
  Message n h err =
    Ok (match err with
        | nil_error => ""
        | _ => default fallback_message
                 (head (filter (fun m => m <> "") (err_Message <$> es)))
        end).
Proof.
  intros Hc. revert n.
  induction Hc as [|f|l e es t Hl Hf Hc IH]; intros [|n] Hn; simpl in *; try lia; try done.
  rewrite Hl. simpl.
  destruct (nonempty (err_Message e)) eqn:Hm.
  - apply nonempty_true in Hm. rewrite filter_cons_True by done. done.
  - apply nonempty_false in Hm. rewrite filter_cons_False by (by intros []).
    destruct (err_Cause e) as [|p|f] eqn:Hcause; simpl.
    + apply chain_nil_inv in Hc as [-> _]. done.
    + rewrite IH by lia. done.
    + rewrite IH by lia. apply chain_foreign_inv in Hc as [-> _]. done.
Qed.

(** C4.  On a chain of nodes [es] reached from a non-nil [err], [Message]
    returns the message of the first node, counted from [err], whose message
    is not empty; when every node's message is empty (in particular when
    [err] is a foreign error and there is no node) it returns the fixed
    fallback sentence; and [Message(nil)] is the empty string. *)
Theorem Message_first_nonempty n h err es t :
  chain h err es t -> length es < n ->
  (err = nil_error -> Message n h err = Ok "") /\
  (err <> nil_error ->
     (forall pre e post,
         es = pre ++ e :: post ->
         Forall (fun x => err_Message x = "") pre ->
         err_Message e <> "" ->
         Message n h err = Ok (err_Message e)) /\
     (Forall (fun x => err_Message x = "") es ->
      Message n h err =
        Ok "An internal error has occurred. Please contact technical support.")).
Proof.
  intros Hc Hn. rewrite (Message_chain n h err es t Hc Hn).
  split; [by intros ->|]. intros Hne.
  destruct err as [|p|f]; [done| |].
  - split.
    + intros pre e post -> Hpre He. f_equal.
      rewrite fmap_app, filter_app. simpl. rewrite filter_cons_True by done.
      assert (filter (fun m => m <> "") (err_Message <$> pre) = []) as ->; [|done].
      clear -Hpre. induction Hpre as [|x l Hx _ IH]; [done|].
      simpl. rewrite filter_cons_False by (by intros []). done.
    + intros Hall. f_equal.
      assert (filter (fun m => m <> "") (err_Message <$> es) = []) as ->; [|done].
      clear -Hall. induction Hall as [|x l Hx _ IH]; [done|].
      simpl. rewrite filter_cons_False by (by intros []). done.
  - apply chain_foreign_inv in Hc as [-> _]. split; [|done].
    intros [|??] ?? Heq; simplify_eq.
Qed.

(** ** Stack *)

Lemma stack_size_chain n h err es t size :
  chain h err es t -> length es < n ->
  stack_size n h err size = Ok (size + length es + length (terminal_frames t)).
Proof.
  intros Hc. revert n size.
  induction Hc as [|f|l e es t Hl Hf Hc IH]; intros [|n] size Hn; simpl in *; try lia.
  - f_equal. lia.
  - f_equal. lia.
  - rewrite Hl. simpl. rewrite IH by lia. f_equal. lia.
Qed.

Lemma stack_frames_chain n h err es t stack :
  chain h err es t -> length es < n ->
  stack_frames n h err stack =
    Ok (stack ++ (frame_of_Error <$> es) ++ terminal_frames t).
Proof.
  intros Hc. revert n stack.
  induction Hc as [|f|l e es t Hl Hf Hc IH]; intros [|n] stack Hn; simpl in *; try lia.
  - by rewrite app_nil_r.
  - done.
  - rewrite Hl. simpl. rewrite IH by lia. by rewrite <- app_assoc.
Qed.

(** C5.  [Stack] of a chain returns a non-nil slice with one frame per node,
    in the order of the chain from its head (frame 0 is the node [err] points
    to), followed by one more frame when the chain ends at a foreign error;
    that last frame holds the text of the foreign error as its message and
    the zero value in every other field.  The length is the number of nodes
    plus one for a foreign end.  [Stack(nil)] is the empty slice, not the nil
    slice. *)
Theorem Stack_frames n h err es t :
  chain h err es t -> length es < n ->
  exists frames,
    Stack n h err = Ok (Some frames) /\
    frames =
      (frame_of_Error <$> es) ++
      match t with
      | Some f => [mkStackFrame "" (foreign_text f) "" "" 0 None]
      | None => []
      end /\
    length frames = length es + (if t is Some _ then 1 else 0) /\
    (err = nil_error -> frames = []).
Proof.
  intros Hc Hn.
  exists ((frame_of_Error <$> es) ++ terminal_frames t).
  split; [|split; [done|split]].
  - unfold Stack. destruct err as [|p|f].
    + apply chain_nil_inv in Hc as [-> ->]. done.
    + rewrite (stack_size_chain _ _ _ _ _ _ Hc Hn). simpl.
      rewrite (stack_frames_chain _ _ _ _ _ _ Hc Hn). done.
    + rewrite (stack_size_chain _ _ _ _ _ _ Hc Hn). simpl.
      rewrite (stack_frames_chain _ _ _ _ _ _ Hc Hn). done.
  - rewrite length_app, length_fmap. by destruct t.
  - intros ->. by apply chain_nil_inv in Hc as [-> ->].
Qed.

(** ** Is *)

Lemma any_candidate_existsb e kind :
  any_candidate e kind = existsb (candidate_matches e) kind.
Proof.
  induction kind as [|k kind IH]; [done|]. simpl.
  by destruct (candidate_matches e k).
Qed.

(** [Is] unfolds into the per-node loop followed by the call on the cause:
    every candidate is tried on a node before the cause is looked at, and a
    match ends the search. *)
Lemma Is_node n h l e kind :
  errs h !! l = Some e ->
  Is (S n) h (ptr_error (Some l)) kind =
    if existsb (candidate_matches e) kind then Ok true
    else if is_nil (err_Cause e) then Ok false
    else Is n h (err_Cause e) kind.
Proof. intros Hl. simpl. rewrite Hl. simpl. by rewrite any_candidate_existsb. Qed.

(** What [Is] computes on a chain: whether some candidate matches some node.
    The search never reads past a foreign error. *)
Lemma Is_chain n h err es t kind :
  chain h err es t -> length es < n ->
  Is n h err kind = Ok (existsb (fun e => existsb (candidate_matches e) kind) es).
Proof.
  intros Hc. revert n.
  induction Hc as [|f|l e es t Hl Hf Hc IH]; intros [|n] Hn; simpl in *; try lia; try done.
  rewrite Hl. simpl. rewrite any_candidate_existsb.
  destruct (existsb (candidate_matches e) kind); [done|]. simpl.
  destruct (err_Cause e) as [|p|f] eqn:Hcause; simpl.
  - by apply chain_nil_inv in Hc as [-> _].
  - by rewrite IH by lia.
  - by rewrite IH by lia.
Qed.

(** A candidate of dynamic type [string] matches no node, whatever the kind
    of the node: the comparison [e.Kind == val] is between a [Kind] and an
    interface value holding a [string]. *)
Lemma string_candidate_never_matches e s : candidate_matches e (VString s) = false.
Proof. done. Qed.

Lemma kind_candidate_matches e k :
  candidate_matches e (VKind k) = true <-> err_Kind e = k.
Proof. simpl. apply String.eqb_eq. Qed.

(** ** Is: candidates and kinds *)

(** C2, at the input where the code departs from it.  The node at address 1
    has the kind "timeout".  Asked with the [Kind] "timeout", [Is] answers
    true; asked with the string "timeout", it answers false: in
    [case Kind, string] the candidate keeps its interface type, and
    [e.Kind == val] is false when the dynamic type of [val] is [string]. *)
Theorem Is_string_candidate_unmatched :
  err_Kind sample_root = "timeout" /\
  Is 2 sample_heap (ptr_error (Some 1)) [VKind "timeout"] = Ok true /\
  Is 2 sample_heap (ptr_error (Some 1)) [VString "timeout"] = Ok false /\
  Is 3 sample_heap (ptr_error (Some 0)) [VString "timeout"] = Ok false.
Proof. by vm_compute. Qed.

(** C3 as stated fails: the head of the sample store has the empty kind, and
    [Is] reports a match for the empty kind tag. *)
Lemma empty_kind_matches_empty_tag :
  err_Kind sample_head = "" /\
  candidate_matches sample_head (VKind "") = true /\
  Is 3 sample_heap (ptr_error (Some 0)) [VKind ""] = Ok true.
Proof. by vm_compute. Qed.

(** C3, amended.  A node whose kind is empty matches no kind tag other than
    the empty one, and no string: on such candidates the per-node loop finds
    nothing, and [Is] gives the answer it gives for the cause of the node. *)
Theorem empty_kind_matches_no_nonempty_tag n h l e kind :
  errs h !! l = Some e ->
  err_Kind e = "" ->
  Forall (fun k => exists t, (k = VKind t /\ t <> "") \/ k = VString t) kind ->
  existsb (candidate_matches e) kind = false /\
  Is (S n) h (ptr_error (Some l)) kind =
    if is_nil (err_Cause e) then Ok false else Is n h (err_Cause e) kind.
Proof.
  intros Hl Hk Hkind.
  assert (Hno : existsb (candidate_matches e) kind = false).
  { induction Hkind as [|k kind (t & [[-> Ht]| ->]) _ IH]; [done| |].
    - simpl. rewrite Hk, IH.
      destruct (String.eqb_spec "" t) as [<-|]; [done|done].
    - simpl. by rewrite IH. }
  split; [done|]. rewrite (Is_node n h l e kind Hl). by rewrite Hno.
Qed.

(** What [Is] decides on a chain, candidate by candidate: a [Kind] candidate
    equal to the kind of some node, or a candidate that is neither a [Kind]
    nor a string and is the very value held in the cause slot of some node. *)
Lemma Is_true_iff n h err es t kind :
  chain h err es t -> length es < n ->
  (Is n h err kind = Ok true <->
   exists e k, e ∈ es /\ k ∈ kind /\
     (k = VKind (err_Kind e) \/
      ((forall s, k <> VKind s) /\ (forall s, k <> VString s) /\
       value_of_error (err_Cause e) = k))).
Proof.
  intros Hc Hn. rewrite (Is_chain n h err es t kind Hc Hn). split.
  - intros [= Hex]. apply existsb_exists in Hex as (e & He & Hex).
    apply existsb_exists in Hex as (k & Hk & Hm).
    exists e, k. split; [by apply list_elem_of_In|].
    split; [by apply list_elem_of_In|].
    destruct k as [|t'|s|p|f|m|z|o]; simpl in Hm;
      try (right; split; [done|split; [done|]];
           unfold cause_eq in Hm; by apply bool_decide_eq_true in Hm).
    + left. apply String.eqb_eq in Hm. by subst.
    + done.
  - intros (e & k & He & Hk & Hm). f_equal.
    apply existsb_exists. exists e. split; [by apply list_elem_of_In|].
    apply existsb_exists. exists k. split; [by apply list_elem_of_In|].
    destruct Hm as [->|(Hnk & Hns & Heq)].
    + simpl. apply String.eqb_refl.
    + destruct k as [|t'|s|p|f|m|z|o]; simpl;
        try (unfold cause_eq; by apply bool_decide_eq_true).
      * by destruct (Hnk t').
      * by destruct (Hns s).
Qed.

(** ** Fields *)

Lemma bindM_Ok {A B} (m : M A) (k : A -> M B) h a h' :
  m h = (Ok a, h') -> bindM m k h = k a h'.
Proof. unfold bindM. by intros ->. Qed.

Lemma bindM_Panic {A B} (m : M A) (k : A -> M B) h v h' :
  m h = (Panic v, h') -> bindM m k h = (Panic v, h').
Proof. unfold bindM. by intros ->. Qed.

Lemma fresh_map_None h : maps h !! fresh (dom (maps h)) = None.
Proof. apply not_elem_of_dom, is_fresh. Qed.

Lemma fresh_err_None h : errs h !! fresh (dom (errs h)) = None.
Proof. apply not_elem_of_dom, is_fresh. Qed.

(** Assigning a list of entries in order is a left fold of insertions. *)
Lemma range_assign_run entries : forall h r g,
  maps h !! r = Some g ->
  range_assign r entries h =
    (Ok tt, mkHeap (errs h)
              (<[r := foldl (fun acc kv => <[kv.1 := kv.2]> acc) g entries]> (maps h))).
Proof.
  induction entries as [|[k v] rest IH]; intros h r g Hr; simpl.
  - unfold ret. destruct h as [E Ms]; simpl in *. by rewrite insert_id.
  - unfold bindM, map_assign. rewrite Hr.
    rewrite (IH _ r (<[k := v]> g)); simpl; [|by rewrite lookup_insert_eq].
    by rewrite insert_insert_eq.
Qed.

Lemma foldl_insert_union (entries : list (string * value)) :
  forall g : gmap string value,
  NoDup entries.*1 ->
  foldl (fun acc kv => <[kv.1 := kv.2]> acc) g entries = list_to_map entries ∪ g.
Proof.
  induction entries as [|[k v] rest IH]; intros g Hnd.
  - simpl. by rewrite (left_id_L ∅ (∪)).
  - rewrite fmap_cons in Hnd. apply NoDup_cons in Hnd as [Hk Hnd].
    simpl. rewrite IH by done.
    rewrite <- insert_union_l. symmetry. apply insert_union_r.
    by apply not_elem_of_list_to_map_1.
Qed.

(** The copying loop [for k, v := range src { dst[k] = v }]: afterwards the
    destination holds the entries of the source over its former entries. *)
Lemma range_assign_map_to_list h r g (src : gmap string value) :
  maps h !! r = Some g ->
  range_assign r (map_to_list src) h =
    (Ok tt, mkHeap (errs h) (<[r := src ∪ g]> (maps h))).
Proof.
  intros Hr. rewrite (range_assign_run _ _ _ _ Hr).
  rewrite foldl_insert_union by apply NoDup_fst_map_to_list.
  by rewrite list_to_map_to_list.
Qed.

Lemma merged_fields_no_maps h es :
  Forall (fun e => err_Fields e = None) es -> merged_fields h es = ∅.
Proof.
  induction 1 as [|e es He _ IH]; [done|].
  simpl. rewrite IH. unfold own_fields. rewrite He. by rewrite (left_id_L ∅ (∪)).
Qed.

Lemma own_fields_lookup h e m g :
  err_Fields e = Some m -> maps h !! m = Some g -> own_fields h e = g.
Proof. unfold own_fields. by intros -> ->. Qed.

(** [Fields] on a chain: it returns, writes to no struct and to no map that
    existed before the call, and its result is nil exactly when no node has
    a field map; otherwise the result refers to a map holding the merge. *)
Lemma Fields_chain n h err es t :
  chain h err es t -> length es < n ->
  exists r h',
    Fields n err h = (Ok r, h') /\
    errs h' = errs h /\
    maps h ⊆ maps h' /\
    (r = None <-> Forall (fun e => err_Fields e = None) es) /\
    (forall m, r = Some m -> maps h' !! m = Some (merged_fields h es)).
Proof.
  intros Hc. revert n.
  induction Hc as [|f|l e es t Hl Hf Hc IH]; intros [|n] Hn; simpl in Hn; try lia.
  - exists None, h. by repeat split.
  - exists None, h. by repeat split.
  - assert (Hn' : length es < n) by lia.
    destruct (IH n Hn') as (r1 & h1 & Hrun & Herrs & Hsub & Hnone & Hsome).
    simpl. unfold bindM at 1, readM. simpl. rewrite Hl.
    destruct (is_nil (err_Cause e)) eqn:Hnil; simpl.
    + (* the node has no cause *)
      destruct (err_Cause e); try done.
      apply chain_nil_inv in Hc as [-> _].
      unfold bindM, ret. unfold fields_in_store in Hf.
      destruct (err_Fields e) as [own|] eqn:Hown.
      * destruct Hf as [g Hg]. exists (Some own), h. repeat split; try done.
        -- intros Hall. apply Forall_cons in Hall as [Hall _]. congruence.
        -- intros m [= <-]. simpl. rewrite (own_fields_lookup h e own g) by done.
           by rewrite (right_id_L ∅ (∪)).
      * exists None, h. repeat split; try done. by constructor.
    + (* the fields of the cause come first *)
      unfold fields_in_store in Hf.
      destruct r1 as [cf|].
      * pose proof (Hsome cf eq_refl) as Hcf.
        pose proof (fresh_map_None h1) as Hfr.
        set (r := fresh (dom (maps h1))) in *.
        assert (Hne : r <> cf) by congruence.
        unfold bindM, readM, ret, make_map, map_entries. rewrite Hrun. simpl.
        fold r. rewrite lookup_insert_ne by done. rewrite Hcf.
        rewrite (range_assign_map_to_list _ r ∅); simpl;
          [|by rewrite lookup_insert_eq].
        rewrite insert_insert_eq, (right_id_L ∅ (∪)).
        assert (Hsub1 : maps h1 ⊆ <[r := merged_fields h es]> (maps h1))
          by (by apply insert_subseteq).
        destruct (err_Fields e) as [own|] eqn:Hown.
        -- destruct Hf as [g Hg].
           assert (Hg1 : maps h1 !! own = Some g) by (by eapply lookup_weaken).
           assert (Hne' : r <> own) by congruence.
           simpl. rewrite lookup_insert_ne by done. rewrite Hg1.
           rewrite (range_assign_map_to_list _ r (merged_fields h es)); simpl;
             [|by rewrite lookup_insert_eq].
           rewrite insert_insert_eq.
           eexists _, _. split; [done|]. simpl. repeat split; try done.
           ++ etrans; [done|]. by apply insert_subseteq.
           ++ intros Hall. apply Forall_cons in Hall as [Hall _]. congruence.
           ++ intros m [= <-]. rewrite lookup_insert_eq.
              by rewrite (own_fields_lookup h e own g).
        -- eexists _, _. split; [done|]. simpl. repeat split; try done.
           ++ by etrans.
           ++ intros Hall. apply Forall_cons in Hall as [_ Hall].
              by apply Hnone in Hall.
           ++ intros m [= <-]. rewrite lookup_insert_eq.
              unfold own_fields. rewrite Hown. by rewrite (left_id_L ∅ (∪)).
      * assert (Hall : Forall (fun e => err_Fields e = None) es) by (by apply Hnone).
        unfold bindM, readM, ret. rewrite Hrun. simpl.
        destruct (err_Fields e) as [own|] eqn:Hown.
        -- destruct Hf as [g Hg].
           assert (Hg1 : maps h1 !! own = Some g) by (by eapply lookup_weaken).
           eexists _, _. split; [done|]. repeat split; try done.
           ++ intros Hall'. apply Forall_cons in Hall' as [Hall' _]. congruence.
           ++ intros m [= <-]. rewrite Hg1. simpl.
              rewrite (own_fields_lookup h e own g) by done.
              rewrite merged_fields_no_maps by done.
              by rewrite (right_id_L ∅ (∪)).
        -- eexists _, _. split; [done|]. repeat split; try done.
           by constructor.
Qed.

(** In the merge a key has the value it has on the first node, counted from
    the head, whose own map holds the key. *)
Lemma merged_fields_lookup h es k v :
  merged_fields h es !! k = Some v <->
  exists pre e post,
    es = pre ++ e :: post /\
    Forall (fun x => own_fields h x !! k = None) pre /\
    own_fields h e !! k = Some v.
Proof.
  induction es as [|e es IH]; simpl.
  - rewrite lookup_empty. split; [done|].
    intros ([|??] & ? & ? & ? & _); simplify_eq.
  - rewrite lookup_union_Some_raw. split.
    + intros [Hk | [Hk Hrest]].
      * exists [], e, es. by repeat split.
      * apply IH in Hrest as (pre & e' & post & -> & Hpre & He').
        exists (e :: pre), e', post. repeat split; [|done]. by constructor.
    + intros ([|x pre] & e' & post & Heq & Hpre & He'); simplify_eq/=.
      * by left.
      * apply Forall_cons in Hpre as [Hx Hpre]. right. split; [done|].
        apply IH. by exists pre, e', post.
Qed.

(** C1.  [Fields] on a chain returns a reference to a map in which every key
    found on some node is bound, and bound to the value it has on the node
    closest to the head among the nodes that carry it; nothing else is bound.
    The result is nil exactly when no node of the chain has a field map, in
    particular for [Fields(nil)]; a node with a map that is present but
    empty makes the result a (possibly empty) map rather than nil. *)
Theorem Fields_head_wins n h err es t :
  chain h err es t -> length es < n ->
  exists r h',
    Fields n err h = (Ok r, h') /\
    (err = nil_error -> r = None) /\
    (r = None <-> Forall (fun e => err_Fields e = None) es) /\
    (forall m, r = Some m ->
       exists g,
         maps h' !! m = Some g /\
         forall k v,
           g !! k = Some v <->
           exists pre e post,
             es = pre ++ e :: post /\
             Forall (fun x => own_fields h x !! k = None) pre /\
             own_fields h e !! k = Some v).
Proof.
  intros Hc Hn.
  destruct (Fields_chain n h err es t Hc Hn)
    as (r & h' & Hrun & _ & _ & Hnone & Hsome).
  exists r, h'. split; [done|]. split; [|split; [done|]].
  - intros ->. apply chain_nil_inv in Hc as [-> _]. by apply Hnone.
  - intros m Hm. exists (merged_fields h es). split; [by apply Hsome|].
    intros k v. apply merged_fields_lookup.
Qed.

(** ** Constructors *)

Lemma update_Error_run h l e f :
  errs h !! l = Some e ->
  update_Error (Some l) f h = (Ok tt, mkHeap (<[l := f e]> (errs h)) (maps h)).
Proof.
  intros Hl. unfold update_Error, bindM, readM, store_Error. simpl. by rewrite Hl.
Qed.

Lemma updateCaller_run pc h l e :
  errs h !! l = Some e ->
  exists e',
    updateCaller pc l h = (Ok tt, mkHeap (<[l := e']> (errs h)) (maps h)) /\
    same_but_site e e'.
Proof.
  intros Hl. destruct pc as [| |name file line]; simpl.
  - exists e. split; [|done]. unfold ret. destruct h as [E Ms]; simpl in *.
    by rewrite insert_id.
  - exists e. split; [|done]. unfold ret. destruct h as [E Ms]; simpl in *.
    by rewrite insert_id.
  - eexists. split; [by apply update_Error_run|done].
Qed.

Lemma grows_at_refl err h : grows_at err h h.
Proof. by repeat split. Qed.

Lemma grows_at_trans err h1 h2 h3 :
  grows_at err h1 h2 -> grows_at err h2 h3 -> grows_at err h1 h3.
Proof.
  intros (Hm1 & Hk1 & Hn1) (Hm2 & Hk2 & Hn2). repeat split.
  - congruence.
  - intros l Hne Hl. rewrite Hk2; [by apply Hk1|done|]. by rewrite Hk1.
  - eauto.
Qed.

Lemma grows_at_is_Some err h h' l :
  grows_at err h h' -> is_Some (errs h' !! err) ->
  is_Some (errs h !! l) -> is_Some (errs h' !! l).
Proof.
  intros (_ & Hk & _) Herr Hl. destruct (decide (l = err)) as [->|Hne]; [done|].
  by rewrite Hk.
Qed.

Lemma grows_at_update h l e e' :
  errs h !! l = Some e ->
  grows_at l h (mkHeap (<[l := e']> (errs h)) (maps h)).
Proof.
  intros Hl. repeat split; simpl.
  - intros l' Hne _. by rewrite lookup_insert_ne.
  - intros l' Hnone. destruct (decide (l = l')) as [<-|Hne].
    + by rewrite lookup_insert_eq in Hnone.
    + by rewrite lookup_insert_ne in Hnone.
Qed.

Lemma args_in_store_grows err h h' args :
  grows_at err h h' -> is_Some (errs h' !! err) ->
  args_in_store h args -> args_in_store h' args.
Proof. intros Hg Herr Ha l Hl. eapply grows_at_is_Some; eauto. Qed.

(** One accepted argument: the node is updated, nothing else is disturbed,
    and a [*Error] argument is copied to a new address before it becomes the
    cause. *)
Lemma newError_arg_good h err e0 a :
  errs h !! err = Some e0 ->
  ~ bad_arg a ->
  (forall p, a = VError (Some p) -> is_Some (errs h !! p)) ->
  exists h1 e1,
    newError_arg err a h = (Ok tt, h1) /\
    errs h1 !! err = Some e1 /\
    grows_at err h h1 /\
    match a with
    | VForeign f => err_Cause e1 = foreign_error f
    | VError (Some p) =>
        exists q, err_Cause e1 = ptr_error (Some q) /\
                  errs h !! q = None /\ errs h1 !! q = errs h !! p
    | _ => err_Cause e1 = err_Cause e0
    end.
Proof.
  intros Herr Hgood Hptr. unfold bad_arg in Hgood.
  destruct a as [|k|s|[p|]|f|m|z|o]; unfold newError_arg;
    try (exfalso; apply Hgood; simpl; by auto).
  - rewrite (update_Error_run _ _ _ _ Herr). eexists _, _.
    split; [done|]. simpl. rewrite lookup_insert_eq.
    split; [done|]. split; [by eapply grows_at_update|done].
  - rewrite (update_Error_run _ _ _ _ Herr). eexists _, _.
    split; [done|]. simpl. rewrite lookup_insert_eq.
    split; [done|]. split; [by eapply grows_at_update|done].
  - destruct (Hptr p eq_refl) as [ep Hp].
    pose proof (fresh_err_None h) as Hfr.
    set (q := fresh (dom (errs h))) in *.
    assert (q <> err) by congruence. assert (q <> p) by congruence.
    unfold bindM at 1, readM. simpl. rewrite Hp.
    unfold bindM at 1, alloc_Error. fold q.
    rewrite (update_Error_run _ _ e0); simpl; [|by rewrite lookup_insert_ne].
    eexists _, _. split; [done|]. simpl. rewrite lookup_insert_eq.
    split; [done|]. split.
    + repeat split; simpl.
      * intros l Hne [x Hx]. rewrite lookup_insert_ne by done.
        rewrite lookup_insert_ne by congruence. done.
      * intros l Hnone. destruct (decide (err = l)) as [<-|Hne].
        { by rewrite lookup_insert_eq in Hnone. }
        rewrite lookup_insert_ne in Hnone by done.
        destruct (decide (q = l)) as [<-|Hne']; [done|].
        by rewrite lookup_insert_ne in Hnone.
    + exists q. split; [done|]. split; [done|].
      rewrite lookup_insert_ne by done. by rewrite lookup_insert_eq.
  - rewrite (update_Error_run _ _ _ _ Herr). eexists _, _.
    split; [done|]. simpl. rewrite lookup_insert_eq.
    split; [done|]. split; [by eapply grows_at_update|done].
  - rewrite (update_Error_run _ _ _ _ Herr). eexists _, _.
    split; [done|]. simpl. rewrite lookup_insert_eq.
    split; [done|]. split; [by eapply grows_at_update|done].
Qed.

Lemma newError_arg_bad h err a :
  bad_arg a ->
  exists s, newError_arg err a h = (Panic (PanicString s), h).
Proof.
  intros [Hu | ->]; [|by eexists].
  destruct a; try done; by eexists.
Qed.

Lemma bad_arg_dec a : {bad_arg a} + {~ bad_arg a}.
Proof.
  unfold bad_arg.
  destruct a as [|k|s|[p|]|f|m|z|o]; simpl;
    first [by left; auto | by right; intros [[]|?]].
Qed.

Lemma last_cause_elem args c : last_cause args = Some c -> c ∈ args.
Proof.
  induction args as [|a rest IH]; [done|]. simpl.
  destruct (last_cause rest) as [c'|].
  - intros [= <-]. right. by apply IH.
  - destruct a; intros [= <-]; by left.
Qed.

Lemma newError_loop_good args : forall h err e0,
  errs h !! err = Some e0 ->
  args_in_store h args ->
  VError (Some err) ∉ args ->
  Forall (fun a => ~ bad_arg a) args ->
  exists h' e',
    newError_loop err args h = (Ok tt, h') /\
    errs h' !! err = Some e' /\
    grows_at err h h' /\
    cause_after h h' err args e0 e'.
Proof.
  induction args as [|a rest IH]; intros h err e0 Herr Hin Hself Hgood.
  - exists h, e0. split; [done|]. split; [done|]. split; [apply grows_at_refl|done].
  - apply Forall_cons in Hgood as [Ha Hgood].
    destruct (newError_arg_good h err e0 a Herr Ha) as (h1 & e1 & Hrun1 & Herr1 & Hg1 & Hc1).
    { intros p ->. apply Hin. by left. }
    destruct (IH h1 err e1 Herr1) as (h' & e' & Hrun & Herr' & Hg & Hc); [| |done|].
    { eapply args_in_store_grows; [done|by rewrite Herr1|].
      intros l Hl. apply Hin. by right. }
    { intros Hl. apply Hself. by right. }
    exists h', e'. split.
    { simpl. by rewrite (bindM_Ok _ _ _ _ _ Hrun1). }
    split; [done|]. split; [by eapply grows_at_trans|].
    unfold cause_after in *. simpl.
    destruct (last_cause rest) as [c|] eqn:Hlast.
    + destruct c as [|k|s|[p|]|f|m|z|o]; try done.
      destruct Hc as (q & Hq & Hql & Hnone & Hcopy). exists q.
      split; [done|]. split; [done|].
      destruct Hg1 as (_ & Hkeep & Hnew). split; [by apply Hnew|].
      rewrite Hcopy. apply Hkeep.
      * intros ->. apply Hself. right. by apply last_cause_elem.
      * apply Hin. right. by apply last_cause_elem.
    + destruct a as [|k|s|[p|]|f|m|z|o]; try congruence; [|done].
      destruct Hc1 as (q & Hq & Hnone & Hcopy). exists q.
      split; [congruence|]. split; [by intros ->; rewrite Herr in Hnone|].
      split; [done|].
      rewrite <- Hcopy. destruct Hg as (_ & Hkeep & _). apply Hkeep.
      * intros ->. by rewrite Herr in Hnone.
      * rewrite Hcopy. apply Hin. by left.
Qed.

Lemma newError_loop_bad args : forall h err e0,
  errs h !! err = Some e0 ->
  args_in_store h args ->
  Exists bad_arg args ->
  exists s h', newError_loop err args h = (Panic (PanicString s), h').
Proof.
  induction args as [|a rest IH]; intros h err e0 Herr Hin Hbad.
  - by apply Exists_nil in Hbad.
  - destruct (bad_arg_dec a) as [Ha|Ha].
    + destruct (newError_arg_bad h err a Ha) as [s Hs].
      exists s, h. simpl. by rewrite (bindM_Panic _ _ _ _ _ Hs).
    + apply Exists_cons in Hbad as [Hbad|Hbad]; [done|].
      destruct (newError_arg_good h err e0 a Herr Ha) as (h1 & e1 & Hrun1 & Herr1 & Hg1 & _).
      { intros p ->. apply Hin. by left. }
      destruct (IH h1 err e1 Herr1) as (s & h' & Hrun); [|done|].
      { eapply args_in_store_grows; [done|by rewrite Herr1|].
        intros l Hl. apply Hin. by right. }
      exists s, h'. simpl. by rewrite (bindM_Ok _ _ _ _ _ Hrun1).
Qed.

(** [newError] with accepted arguments returns a new node. *)
Lemma newError_good h args :
  args <> [] ->
  args_in_store h args ->
  Forall (fun a => ~ bad_arg a) args ->
  exists l h' e',
    newError args h = (Ok l, h') /\
    errs h !! l = None /\
    errs h' !! l = Some e' /\
    maps h' = maps h /\
    (forall l', is_Some (errs h !! l') -> errs h' !! l' = errs h !! l') /\
    (forall l', errs h' !! l' = None -> errs h !! l' = None) /\
    cause_after h h' l args zero_Error e'.
Proof.
  intros Hne Hin Hgood.
  pose proof (fresh_err_None h) as Hfr.
  set (w := fresh (dom (errs h))) in *.
  set (h0 := mkHeap (<[w := zero_Error]> (errs h)) (maps h)).
  assert (Hg0 : grows_at w h h0).
  { repeat split; simpl.
    - intros l Hl _. by rewrite lookup_insert_ne.
    - intros l Hl. destruct (decide (w = l)) as [<-|?]; [done|].
      by rewrite lookup_insert_ne in Hl. }
  assert (Hw0 : errs h0 !! w = Some zero_Error) by (simpl; by rewrite lookup_insert_eq).
  assert (Hself : VError (Some w) ∉ args).
  { intros Hw. apply Hin in Hw as [? Hw]. congruence. }
  destruct (newError_loop_good args h0 w zero_Error Hw0) as (h' & e' & Hrun & Hw' & Hg & Hc);
    [|done|done|].
  { eapply args_in_store_grows; [done|by rewrite Hw0|done]. }
  exists w, h', e'. split.
  { unfold newError. destruct args as [|a rest]; [done|].
    unfold bindM at 1, alloc_Error. fold w. fold h0.
    rewrite (bindM_Ok _ _ _ _ _ Hrun). done. }
  pose proof (grows_at_trans _ _ _ _ Hg0 Hg) as (Hm & Hkeep & Hnew).
  split; [done|]. split; [done|]. split; [done|]. split.
  { intros l' Hl'. apply Hkeep; [|done]. intros ->. destruct Hl'. congruence. }
  split; [done|].
  unfold cause_after in *. destruct (last_cause args) as [c|] eqn:Hlast; [|done].
  destruct c as [|k|s|[p|]|f|m|z|o]; try done.
  destruct Hc as (q & Hq & Hql & Hnone & Hcopy). exists q.
  split; [done|]. split; [done|].
  destruct Hg0 as (_ & Hkeep0 & Hnew0). split; [by apply Hnew0|].
  rewrite Hcopy. apply Hkeep0.
  - intros ->. apply Hself. by apply last_cause_elem.
  - apply Hin. by apply last_cause_elem.
Qed.

Lemma newError_bad h args :
  args_in_store h args ->
  args = [] \/ Exists bad_arg args ->
  exists s h', newError args h = (Panic (PanicString s), h').
Proof.
  intros Hin [->|Hbad]; [by eexists _, _|].
  destruct args as [|a rest]; [by apply Exists_nil in Hbad|].
  pose proof (fresh_err_None h) as Hfr.
  set (w := fresh (dom (errs h))) in *.
  set (h0 := mkHeap (<[w := zero_Error]> (errs h)) (maps h)).
  assert (Hw0 : errs h0 !! w = Some zero_Error) by (simpl; by rewrite lookup_insert_eq).
  destruct (newError_loop_bad (a :: rest) h0 w zero_Error Hw0) as (s & h' & Hrun); [|done|].
  { intros l Hl. apply Hin in Hl as [x Hx]. exists x. simpl.
    rewrite lookup_insert_ne; [done|congruence]. }
  exists s, h'. unfold newError.
  unfold bindM at 1, alloc_Error. fold w. fold h0.
  by rewrite (bindM_Panic _ _ _ _ _ Hrun).
Qed.

Lemma good_or_bad args : Forall (fun a => ~ bad_arg a) args \/ Exists bad_arg args.
Proof.
  induction args as [|a rest [IH|IH]].
  - left. constructor.
  - destruct (bad_arg_dec a); [right; by left|left; by constructor].
  - right. by right.
Qed.

(** A constructor is [newError] followed by [updateCaller], which rewrites
    only the call-site fields of the new node. *)
Lemma construct_good pc h args :
  args <> [] ->
  args_in_store h args ->
  Forall (fun a => ~ bad_arg a) args ->
  exists l h0 h' e0 e',
    newError args h = (Ok l, h0) /\
    updateCaller pc l h0 = (Ok tt, h') /\
    errs h0 !! l = Some e0 /\
    h' = mkHeap (<[l := e']> (errs h0)) (maps h0) /\
    same_but_site e0 e' /\
    errs h !! l = None /\
    maps h' = maps h /\
    (forall l', is_Some (errs h !! l') -> errs h' !! l' = errs h !! l') /\
    cause_after h h' l args zero_Error e'.
Proof.
  intros Hne Hin Hgood.
  destruct (newError_good h args Hne Hin Hgood)
    as (l & h0 & e0 & Hrun & Hfresh & Hl0 & Hm & Hkeep & Hnew & Hc).
  destruct (updateCaller_run pc h0 l e0 Hl0) as (e' & Hup & Hsame).
  exists l, h0, (mkHeap (<[l := e']> (errs h0)) (maps h0)), e0, e'.
  repeat (split; [done|]). split.
  { intros l' Hl'. simpl. rewrite lookup_insert_ne; [by apply Hkeep|].
    intros ->. destruct Hl'. congruence. }
  unfold cause_after in *. destruct Hsame as (_ & _ & Hcause & _).
  destruct (last_cause args) as [c|]; [|congruence].
  destruct c as [|k|s|[p|]|f|m|z|o]; try done; [|congruence].
  destruct Hc as (q & Hq & Hql & Hnone & Hcopy). exists q.
  split; [congruence|]. split; [done|]. split; [done|].
  simpl. by rewrite lookup_insert_ne.
Qed.

Lemma New_good pc h args :
  args <> [] ->
  args_in_store h args ->
  Forall (fun a => ~ bad_arg a) args ->
  exists l h' e',
    New pc args h = (Ok l, h') /\
    errs h !! l = None /\
    errs h' !! l = Some e' /\
    maps h' = maps h /\
    (forall l', is_Some (errs h !! l') -> errs h' !! l' = errs h !! l') /\
    cause_after h h' l args zero_Error e'.
Proof.
  intros Hne Hin Hgood.
  destruct (construct_good pc h args Hne Hin Hgood)
    as (l & h0 & h' & e0 & e' & Hrun & Hup & Hl0 & -> & Hsame & Hfresh & Hm & Hkeep & Hc).
  eexists l, _, e'. split.
  { unfold New. rewrite (bindM_Ok _ _ _ _ _ Hrun).
    by rewrite (bindM_Ok _ _ _ _ _ Hup). }
  split; [done|]. split; [simpl; by rewrite lookup_insert_eq|]. done.
Qed.

Lemma New_bad pc h args :
  args_in_store h args ->
  args = [] \/ Exists bad_arg args ->
  exists s h', New pc args h = (Panic (PanicString s), h').
Proof.
  intros Hin Hbad. destruct (newError_bad h args Hin Hbad) as (s & h' & Hrun).
  exists s, h'. unfold New. by rewrite (bindM_Panic _ _ _ _ _ Hrun).
Qed.

Lemma value_of_error_not_nil c : c <> nil_error -> is_nil c = false.
Proof. by destruct c. Qed.

(** C6.  [Wrap] with a nil cause returns nil, whatever the other arguments,
    and does not panic.  With a cause that is not nil it does what [New]
    does on the same arguments followed by the cause: either both panic with
    the same value, or both return a node at the same address, the two nodes
    agreeing on kind, message, cause and fields (only the call-site fields,
    written from the reports [pc1] and [pc2] of the runtime, may differ) and
    the rest of the two stores being equal. *)
Theorem Wrap_as_New pc1 pc2 c args h :
  args_in_store h (args ++ [value_of_error c]) ->
  Wrap pc1 nil_error args h = (Ok None, h) /\
  (c <> nil_error ->
   (exists v hp,
       Wrap pc1 c args h = (Panic v, hp) /\
       New pc2 (args ++ [value_of_error c]) h = (Panic v, hp)) \/
   (exists l h1 h2 e1 e2,
       Wrap pc1 c args h = (Ok (Some l), h1) /\
       New pc2 (args ++ [value_of_error c]) h = (Ok l, h2) /\
       errs h1 !! l = Some e1 /\ errs h2 !! l = Some e2 /\
       same_but_site e1 e2 /\
       maps h1 = maps h2 /\
       forall l', l' <> l -> errs h1 !! l' = errs h2 !! l')).
Proof.
  intros Hin. split; [done|]. intros Hc.
  unfold Wrap. rewrite (value_of_error_not_nil c Hc).
  set (args' := args ++ [value_of_error c]) in *.
  assert (Hne : args' <> []) by (subst args'; by destruct args).
  destruct (good_or_bad args') as [Hgood|Hbad].
  - right.
    destruct (construct_good pc1 h args' Hne Hin Hgood)
      as (l & h0 & h1 & e0 & e1 & Hrun & Hup1 & Hl0 & -> & Hs1 & _).
    destruct (updateCaller_run pc2 h0 l e0 Hl0) as (e2 & Hup2 & Hs2).
    eexists l, _, _, e1, e2. split.
    { rewrite (bindM_Ok _ _ _ _ _ Hrun). by rewrite (bindM_Ok _ _ _ _ _ Hup1). }
    split.
    { unfold New. rewrite (bindM_Ok _ _ _ _ _ Hrun).
      by rewrite (bindM_Ok _ _ _ _ _ Hup2). }
    simpl. rewrite !lookup_insert_eq. repeat (split; [done|]). split.
    { destruct Hs1 as (? & ? & ? & ?), Hs2 as (? & ? & ? & ?).
      repeat split; congruence. }
    split; [done|]. intros l' Hl'. by rewrite !lookup_insert_ne.
  - left. destruct (newError_bad h args' Hin (or_intror Hbad)) as (s & h' & Hrun).
    exists (PanicString s), h'. unfold New.
    by rewrite !(bindM_Panic _ _ _ _ _ Hrun).
Qed.

Lemma WithField_existing_map h p e m g k v :
  errs h !! p = Some e -> err_Fields e = Some m -> maps h !! m = Some g ->
  WithField (Some p) k v h =
    (Ok (Some p), mkHeap (errs h) (<[m := <[k := v]> g]> (maps h))).
Proof.
  intros Hp Hm Hg. unfold WithField, bindM, readM, ret, map_assign. simpl.
  rewrite Hp, Hm. simpl. rewrite Hp, Hm. simpl. by rewrite Hg.
Qed.

(** C9.  When a constructor ([New], or [Wrap] through its appended cause)
    takes the node at [p] as the cause of the new node at [l], the cause slot
    of the new node points to a node at an address [q] that was not in use
    before, so distinct from [p], and the struct at [q] is the struct at [p]
    field for field: kind, message, cause, call-site and the reference to
    the field map.  The original is left as it was.  A later write to the
    struct at [p] changes neither the struct at [q] nor the new node.  The
    field map is shared: a field attached afterwards to the original through
    its existing map is found in the map the duplicate refers to. *)
Theorem cause_is_shallow_duplicate pc args h p e l h' :
  args_in_store h args ->
  last_cause args = Some (VError (Some p)) ->
  errs h !! p = Some e ->
  (New pc args h = (Ok l, h') \/
   exists c args0, args = args0 ++ [value_of_error c] /\
                   Wrap pc c args0 h = (Ok (Some l), h')) ->
  exists e' q,
    errs h' !! l = Some e' /\ err_Cause e' = ptr_error (Some q) /\
    q <> p /\ q <> l /\ errs h !! q = None /\
    errs h' !! q = Some e /\
    errs h' !! p = Some e /\
    (forall f, exists h2,
        update_Error (Some p) f h' = (Ok tt, h2) /\
        errs h2 !! p = Some (f e) /\
        errs h2 !! q = Some e /\ errs h2 !! l = Some e') /\
    (forall m g k v,
        err_Fields e = Some m -> maps h !! m = Some g ->
        exists h3 g',
          WithField (Some p) k v h' = (Ok (Some p), h3) /\
          errs h3 !! q = Some e /\
          maps h3 !! m = Some g' /\ g' !! k = Some v).
Proof.
  intros Hin Hlast Hp Hrun.
  assert (Hne : args <> []) by (intros ->; done).
  assert (Hnew : New pc args h = (Ok l, h')).
  { destruct Hrun as [Hrun|(c & args0 & -> & Hrun)]; [done|].
    unfold Wrap in Hrun. destruct (is_nil c); [done|].
    unfold New. unfold bindM in *.
    destruct (newError (args0 ++ [value_of_error c]) h) as [[w| | |] h0]; try done.
    destruct (updateCaller pc w h0) as [[[]| | |] h1]; try done.
    unfold ret in *. by simplify_eq. }
  destruct (good_or_bad args) as [Hgood|Hbad]; cycle 1.
  { destruct (New_bad pc h args Hin (or_intror Hbad)) as (s & hp & Hpanic).
    congruence. }
  destruct (New_good pc h args Hne Hin Hgood)
    as (l0 & h0 & e' & Hrun0 & Hfresh & Hl & Hm & Hkeep & Hc).
  rewrite Hrun0 in Hnew. simplify_eq.
  unfold cause_after in Hc. rewrite Hlast in Hc.
  destruct Hc as (q & Hq & Hql & Hnone & Hcopy).
  assert (Hp' : errs h' !! p = Some e) by (rewrite Hkeep; done).
  assert (Hqp : q <> p) by congruence.
  assert (Hlp : l <> p) by (intros ->; by rewrite Hfresh in Hp).
  exists e', q. repeat (split; [done|]).
  split; [congruence|]. split; [done|]. split.
  - intros f. eexists. split; [by apply update_Error_run|]. simpl.
    rewrite lookup_insert_eq. rewrite !lookup_insert_ne by done.
    split; [done|]. split; congruence.
  - intros m g k v Hfm Hg. eexists _, _.
    split; [apply (WithField_existing_map h' p e m g k v Hp' Hfm); by rewrite Hm|].
    simpl. rewrite lookup_insert_eq. split; [congruence|].
    split; [done|]. by rewrite lookup_insert_eq.
Qed.

Lemma args_in_storeb_sound h args :
  args_in_storeb h args = true -> args_in_store h args.
Proof.
  intros Hb l Hl. unfold args_in_storeb in Hb.
  rewrite forallb_forall in Hb. apply list_elem_of_In in Hl.
  specialize (Hb _ Hl). simpl in Hb. by apply bool_decide_eq_true in Hb.
Qed.

(** ** Formatting *)

Lemma app_String a s t : String a s +:+ t = String a (s +:+ t).
Proof. reflexivity. Qed.

Lemma app_empty_r s : s +:+ "" = s.
Proof. induction s as [|a s IH]; [done|]. by rewrite app_String, IH. Qed.

Lemma app_assoc_s a b c : (a +:+ b) +:+ c = a +:+ b +:+ c.
Proof. induction a as [|x a IH]; [done|]. by rewrite !app_String, IH. Qed.

Lemma extends_refl a : extends a a.
Proof. exists "". by rewrite app_empty_r. Qed.

Lemma extends_app a s : extends a (a +:+ s).
Proof. by exists s. Qed.

Lemma extends_trans a b c : extends a b -> extends b c -> extends a c.
Proof. intros [s ->] [s' ->]. exists (s +:+ s'). by rewrite app_assoc_s. Qed.

Lemma extends_app_trans a b s : extends a b -> extends a (b +:+ s).
Proof. intros H. eapply extends_trans; [done|apply extends_app]. Qed.

Lemma substring_of_extends m a b : substring_of m a -> extends a b -> substring_of m b.
Proof.
  intros (pre & post & ->) [s ->]. exists pre, (post +:+ s).
  by rewrite !app_assoc_s.
Qed.

Lemma substring_of_end m a : substring_of m (a +:+ m).
Proof. exists a, "". by rewrite app_empty_r. Qed.

Lemma substring_of_empty a : substring_of "" a.
Proof. exists "", a. done. Qed.

Lemma substring_of_app_r m a b : substring_of m b -> substring_of m (a +:+ b).
Proof.
  intros (pre & post & ->). exists (a +:+ pre), post. by rewrite !app_assoc_s.
Qed.

Lemma pad_extends buf p : extends buf (pad buf p).
Proof. unfold pad. destruct (nonempty buf); [apply extends_app|apply extends_refl]. Qed.

Lemma field_lines_extend h fields keys : forall buf,
  extends buf (foldl (field_line h fields) buf keys).
Proof.
  induction keys as [|k keys IH]; intros buf; simpl; [apply extends_refl|].
  eapply extends_trans; [|apply IH]. apply extends_app.
Qed.

(** The verbose or compact text of a chain: the call returns, keeps what was
    in the buffer, and the text holds the message of every node and the text
    of a foreign error at the end. *)
Lemma formatAccumulator_chain n h l es t asStack :
  chain h (ptr_error (Some l)) es t -> length es < n ->
  forall buf isCause,
  exists final,
    formatAccumulator n h (Some l) buf asStack isCause = Ok final /\
    extends buf final /\
    (forall e, e ∈ es -> substring_of (err_Message e) final) /\
    (forall f, t = Some f -> substring_of (foreign_text f) final).
Proof.
  intros Hc. remember (ptr_error (Some l)) as err eqn:Herr. revert l Herr n.
  induction Hc as [|f|l0 e es t Hl Hf Hc IH]; intros l Herr [|n] Hn buf isCause;
    simplify_eq; simpl in Hn; try lia.
  simpl. rewrite Hl. simpl.
  set (b1 := if asStack && negb isCause then buf +:+ "Error" else buf).
  set (b2 := if nonempty (err_caller e) then _ else b1).
  set (b3 := if nonempty (err_Message e) then _ else b2).
  set (b4 := if nonempty (err_Kind e) then _ else b3).
  assert (H1 : extends buf b1).
  { subst b1. destruct (asStack && negb isCause); [apply extends_app|apply extends_refl]. }
  assert (H2 : extends b1 b2).
  { subst b2. destruct (nonempty (err_caller e)); [|apply extends_refl].
    apply extends_app_trans, pad_extends. }
  assert (H3 : extends b2 b3 /\ substring_of (err_Message e) b3).
  { subst b3. destruct (nonempty (err_Message e)) eqn:Hm.
    - split; [apply extends_app_trans, pad_extends|apply substring_of_end].
    - apply nonempty_false in Hm as ->.
      split; [apply extends_refl|apply substring_of_empty]. }
  destruct H3 as [H3 Hmsg].
  assert (H4 : extends b3 b4).
  { subst b4. destruct (nonempty (err_Kind e)); [|apply extends_refl].
    apply extends_app_trans, pad_extends. }
  clearbody b1 b2 b3 b4.
  match goal with
  | |- context [bindO ?X _] =>
      assert (exists b5, X = Ok b5 /\ extends b4 b5) as (b5 & -> & H5)
  end.
  { destruct asStack; [|by exists b4; split; [|apply extends_refl]].
    unfold fields_in_store in Hf. unfold map_entries.
    destruct (err_Fields e) as [m|]; simpl.
    - destruct Hf as [g ->]. simpl.
      destruct (0 <? size g)%nat; eexists; (split; [done|]).
      + eapply extends_trans; [|apply field_lines_extend].
        apply extends_app_trans, extends_app.
      + apply extends_app.
    - rewrite map_size_empty. simpl. eexists. split; [done|]. apply extends_app. }
  simpl.
  assert (H05 : extends buf b5).
  { do 4 (eapply extends_trans; [|done]). done. }
  assert (Hmsg5 : substring_of (err_Message e) b5).
  { eapply substring_of_extends; [done|]. by eapply extends_trans. }
  destruct (err_Cause e) as [|p|f] eqn:Hcause.
  - apply chain_nil_inv in Hc as [-> ->]. exists b5.
    split; [done|]. split; [done|]. split; [|done].
    intros e0 He0. apply list_elem_of_singleton in He0 as ->. done.
  - apply chain_inv_ptr in Hc as Hc'. destruct Hc' as (l' & e' & es' & -> & -> & _).
    set (b6 := if asStack then b5 +:+ "Caused by" else b5).
    assert (H6 : extends b5 b6).
    { subst b6. destruct asStack; [apply extends_app|apply extends_refl]. }
    destruct (IH l' eq_refl n ltac:(simpl in *; lia) b6 true)
      as (final & Hrun & Hext & Hall & Hfor).
    exists final. split; [done|].
    split; [by do 2 (eapply extends_trans; [done|])|]. split; [|done].
    intros e0 He0. apply elem_of_cons in He0 as [->|He0]; [|by apply Hall].
    eapply substring_of_extends; [done|]. by eapply extends_trans.
  - apply chain_foreign_inv in Hc as [-> ->].
    set (b6 := if asStack then b5 +:+ "Caused by" else b5).
    assert (H6 : extends b5 b6).
    { subst b6. destruct asStack; [apply extends_app|apply extends_refl]. }
    eexists. split; [done|]. split.
    { eapply extends_trans; [done|]. eapply extends_trans; [done|].
      apply extends_app_trans, pad_extends. }
    split.
    + intros e0 He0. apply list_elem_of_singleton in He0 as ->.
      eapply substring_of_extends; [done|]. eapply extends_trans; [done|].
      apply extends_app_trans, pad_extends.
    + intros f' [= <-]. apply substring_of_end.
Qed.

(** ** Fatal *)

(** [newError(err)] for a node: a new node whose cause is a copy of it. *)
Lemma newError_wrap_node h p e :
  errs h !! p = Some e ->
  exists w c,
    errs h !! w = None /\ errs h !! c = None /\ w <> c /\
    newError [VError (Some p)] h =
      (Ok w, mkHeap (<[w := set_Cause (ptr_error (Some c)) zero_Error]>
                       (<[c := e]> (<[w := zero_Error]> (errs h))))
                    (maps h)).
Proof.
  intros Hp.
  pose proof (fresh_err_None h) as Hw.
  set (w := fresh (dom (errs h))) in *.
  pose proof (fresh_err_None (mkHeap (<[w := zero_Error]> (errs h)) (maps h))) as Hc.
  simpl in Hc.
  set (c := fresh (dom (<[w := zero_Error]> (errs h)))) in *.
  assert (Hwc : w <> c).
  { intros Heq. rewrite <- Heq in Hc. by rewrite lookup_insert_eq in Hc. }
  rewrite lookup_insert_ne in Hc by done.
  assert (Hwp : w <> p) by congruence.
  exists w, c. repeat (split; [done|]).
  unfold newError. unfold bindM at 1, alloc_Error. fold w.
  simpl. unfold bindM at 1. unfold bindM at 1. unfold bindM at 1, readM. simpl.
  rewrite lookup_insert_ne by done. rewrite Hp.
  unfold bindM at 1, alloc_Error. simpl. fold c.
  rewrite (update_Error_run _ _ zero_Error); simpl;
    [|by rewrite lookup_insert_ne, lookup_insert_eq].
  done.
Qed.

(** [newError(err)] for a foreign error: a new node with it as the cause. *)
Lemma newError_wrap_foreign h f :
  exists w,
    errs h !! w = None /\
    newError [VForeign f] h =
      (Ok w, mkHeap (<[w := set_Cause (foreign_error f) zero_Error]> (errs h)) (maps h)).
Proof.
  pose proof (fresh_err_None h) as Hw.
  set (w := fresh (dom (errs h))) in *.
  exists w. split; [done|].
  unfold newError. unfold bindM at 1, alloc_Error. fold w.
  simpl. unfold bindM at 1. unfold bindM at 1.
  rewrite (update_Error_run _ _ zero_Error); simpl; [|by rewrite lookup_insert_eq].
  by rewrite insert_insert_eq.
Qed.

(** The last part of [Fatal]: resolve the message, render the chain, and
    panic with both. *)
Lemma Fatal_panics_with n h wrapped ws t :
  chain h (ptr_error (Some wrapped)) ws t -> length ws < n ->
  exists msg txt,
    (let! msg := readM (fun h => Message n h (ptr_error (Some wrapped))) in
     let! txt := readM (fun h => Sprintf_plus_v n h (Some wrapped)) in
     panic (A := unit)
       (PanicString ("fatal error: " +:+ msg +:+ nl +:+ nl +:+ txt))) h =
      (Panic (PanicString ("fatal error: " +:+ msg +:+ nl +:+ nl +:+ txt)), h) /\
    Message n h (ptr_error (Some wrapped)) = Ok msg /\
    format n h (Some wrapped) true = Ok txt /\
    (forall e, e ∈ ws -> substring_of (err_Message e) txt) /\
    (forall f, t = Some f -> substring_of (foreign_text f) txt).
Proof.
  intros Hc Hn.
  pose proof (Message_chain n h _ ws t Hc Hn) as Hmsg.
  destruct (formatAccumulator_chain n h wrapped ws t true Hc Hn "" false)
    as (txt & Hfmt & _ & Hall & Hfor).
  eexists _, txt. split; [|split; [done|split; [done|split; done]]].
  unfold bindM, readM, Sprintf_plus_v, Format, format. simpl.
  rewrite Hmsg, Hfmt. done.
Qed.

Lemma same_but_site_zero c ew :
  same_but_site (set_Cause c zero_Error) ew ->
  err_Kind ew = "" /\ err_Message ew = "" /\ err_Cause ew = c /\ err_Fields ew = None.
Proof. intros (? & ? & ? & ?). simpl in *. by repeat split. Qed.

(** [Fatal] on a chain that is not nil: it panics, and the payload is built
    from the message [Message] resolves for [err] and the verbose text of
    the chain, rendered either from [err] itself or from a new node on top
    of a copy of it that carries nothing but a call-site. *)
Lemma Fatal_chain n pc h err es t :
  chain h err es t -> err <> nil_error -> S (length es) < n ->
  exists msg txt h' wrapped ws,
    Fatal n pc err h =
      (Panic (PanicString ("fatal error: " +:+ msg +:+ nl +:+ nl +:+ txt)), h') /\
    Message n h err = Ok msg /\
    format n h' (Some wrapped) true = Ok txt /\
    chain h' (ptr_error (Some wrapped)) ws t /\
    (ws = es \/
     exists ew, ws = ew :: es /\ err_Kind ew = "" /\ err_Message ew = "" /\
                err_Fields ew = None) /\
    (forall e, e ∈ es -> substring_of (err_Message e) txt) /\
    (forall f, t = Some f -> substring_of (foreign_text f) txt) /\
    maps h' = maps h /\ errs h ⊆ errs h'.
Proof.
  intros Hc Hne Hn.
  pose proof (Message_chain n h err es t Hc ltac:(lia)) as Hmsg0.
  destruct err as [|p|f]; [done| |].
  - (* a node *)
    pose proof Hc as Hc0.
    apply chain_inv_ptr in Hc as (l & e & es' & -> & -> & Hl & Hf & Hc).
    destruct (newError_wrap_node h l e Hl) as (w & c & Hw & Hcn & Hwc & Hrun).
    set (h1 := mkHeap _ _) in Hrun.
    assert (Hw1 : errs h1 !! w = Some (set_Cause (ptr_error (Some c)) zero_Error))
      by (subst h1; simpl; by rewrite lookup_insert_eq).
    destruct (updateCaller_run pc h1 w _ Hw1) as (ew & Hup & Hsame).
    apply same_but_site_zero in Hsame as (Hk & Hm & Hcause & Hfields).
    set (h2 := mkHeap _ _) in Hup.
    assert (Hlw : l <> w) by congruence. assert (Hlc : l <> c) by congruence.
    assert (Hsub : errs h ⊆ errs h2).
    { apply map_subseteq_spec. intros i x Hi.
      assert (i <> w) by congruence. assert (i <> c) by congruence.
      subst h2 h1. simpl. by rewrite !lookup_insert_ne by done. }
    assert (Hmaps : maps h2 = maps h) by done.
    assert (Hl2 : errs h2 !! l = Some e) by (by eapply lookup_weaken).
    assert (Hw2 : errs h2 !! w = Some ew)
      by (subst h2; simpl; by rewrite lookup_insert_eq).
    assert (Hc2 : errs h2 !! c = Some e).
    { subst h2 h1. simpl. rewrite lookup_insert_ne by done.
      rewrite lookup_insert_ne by done. by rewrite lookup_insert_eq. }
    assert (Hchain2 : chain h2 (ptr_error (Some l)) (e :: es') t)
      by (by eapply chain_mono).
    assert (Hchainc : chain h2 (ptr_error (Some c)) (e :: es') t).
    { apply chain_inv_ptr in Hchain2 as (? & ? & ? & ? & ? & ? & ? & ?).
      simplify_eq. by apply chain_node. }
    assert (Hchainw : chain h2 (ptr_error (Some w)) (ew :: e :: es') t).
    { apply chain_node; [done| |by rewrite Hcause].
      unfold fields_in_store. by rewrite Hfields. }
    unfold Fatal. simpl.
    rewrite (bindM_Ok _ _ _ _ _ Hrun). rewrite (bindM_Ok _ _ _ _ _ Hup).
    clearbody h2.
    unfold bindM at 1. unfold bindM at 1, readM at 1. simpl. rewrite Hl2.
    unfold bindM at 1, readM at 1. simpl. rewrite Hw2.
    destruct (same_site e ew); unfold ret.
    + destruct (Fatal_panics_with n h2 l (e :: es') t Hchain2 ltac:(simpl in *; lia))
        as (msg & txt & Hpanic & Hmsg & Hfmt & Hall & Hfor).
      exists msg, txt, h2, l, (e :: es'). split; [done|].
      split.
      { rewrite Hmsg0. rewrite <- Hmsg.
        by rewrite (Message_chain n h2 _ _ t Hchain2) by (simpl in *; lia). }
      repeat (split; [done|]). split; [by left|done].
    + destruct (Fatal_panics_with n h2 w (ew :: e :: es') t Hchainw ltac:(simpl in *; lia))
        as (msg & txt & Hpanic & Hmsg & Hfmt & Hall & Hfor).
      exists msg, txt, h2, w, (ew :: e :: es'). split; [done|].
      split.
      { rewrite Hmsg0. rewrite <- Hmsg.
        rewrite (Message_chain n h2 _ _ t Hchainw) by (simpl in *; lia).
        rewrite (fmap_cons _ ew), Hm.
        by rewrite filter_cons_False by (by intros []). }
      repeat (split; [done|]). split; [right; by exists ew|].
      split; [|done]. intros e0 He0. apply Hall. by right.
  - (* a foreign error *)
    apply chain_foreign_inv in Hc as [-> ->].
    destruct (newError_wrap_foreign h f) as (w & Hw & Hrun).
    set (h1 := mkHeap _ _) in Hrun.
    assert (Hw1 : errs h1 !! w = Some (set_Cause (foreign_error f) zero_Error))
      by (subst h1; simpl; by rewrite lookup_insert_eq).
    destruct (updateCaller_run pc h1 w _ Hw1) as (ew & Hup & Hsame).
    apply same_but_site_zero in Hsame as (Hk & Hm & Hcause & Hfields).
    set (h2 := mkHeap _ _) in Hup.
    assert (Hw2 : errs h2 !! w = Some ew)
      by (subst h2; simpl; by rewrite lookup_insert_eq).
    assert (Hmaps : maps h2 = maps h) by done.
    assert (Hsub : errs h ⊆ errs h2).
    { apply map_subseteq_spec. intros i x Hi.
      assert (i <> w) by congruence.
      subst h2 h1. simpl. by rewrite !lookup_insert_ne by done. }
    assert (Hchainw : chain h2 (ptr_error (Some w)) [ew] (Some f)).
    { apply chain_node; [done| |rewrite Hcause; constructor].
      unfold fields_in_store. by rewrite Hfields. }
    unfold Fatal. simpl.
    rewrite (bindM_Ok _ _ _ _ _ Hrun). rewrite (bindM_Ok _ _ _ _ _ Hup).
    clearbody h2. unfold bindM at 1, ret at 1.
    destruct (Fatal_panics_with n h2 w [ew] (Some f) Hchainw ltac:(simpl in *; lia))
      as (msg & txt & Hpanic & Hmsg & Hfmt & Hall & Hfor).
    exists msg, txt, h2, w, [ew]. split; [done|].
    split.
    { rewrite Hmsg0. rewrite <- Hmsg.
      rewrite (Message_chain n h2 _ _ _ Hchainw) by (simpl in *; lia).
      simpl. rewrite Hm. by rewrite filter_cons_False by (by intros []). }
    repeat (split; [done|]). split; [right; by exists ew|].
    split; [|done]. intros e0 He0. by apply elem_of_nil in He0.
Qed.

(** C8.  [Fatal(nil)] returns and changes nothing.  On a chain that is not
    nil [Fatal] panics; the payload is the text "fatal error: ", the message
    that [Message] resolves for the error, an empty line, and the verbose
    rendering of the chain (of the chain itself, or of the chain under one
    more node that holds only the call-site of [Fatal]); the message of
    every node of the chain, and the text of a foreign error at its end,
    occur in the payload. *)
Theorem Fatal_payload n pc h err es t :
  chain h err es t -> S (length es) < n ->
  (err = nil_error -> Fatal n pc err h = (Ok tt, h)) /\
  (err <> nil_error ->
   exists msg txt payload h' wrapped ws,
     Fatal n pc err h = (Panic (PanicString payload), h') /\
     payload = "fatal error: " +:+ msg +:+ nl +:+ nl +:+ txt /\
     Message n h err = Ok msg /\
     format n h' (Some wrapped) true = Ok txt /\
     chain h' (ptr_error (Some wrapped)) ws t /\
     (ws = es \/
      exists ew, ws = ew :: es /\ err_Kind ew = "" /\ err_Message ew = "" /\
                 err_Fields ew = None) /\
     (forall e, e ∈ es -> substring_of (err_Message e) payload) /\
     (forall f, t = Some f -> substring_of (foreign_text f) payload)).
Proof.
  intros Hc Hn. split; [by intros ->|]. intros Hne.
  destruct (Fatal_chain n pc h err es t Hc Hne Hn)
    as (msg & txt & h' & wrapped & ws & Hrun & Hmsg & Hfmt & Hch & Hws & Hall & Hfor & _).
  eexists msg, txt, _, h', wrapped, ws. split; [done|].
  repeat (split; [done|]). split.
  - intros e He. do 4 apply substring_of_app_r. by apply Hall.
  - intros f Hf. do 4 apply substring_of_app_r. by apply Hfor.
Qed.

(** ** WithFields *)

(** [New] on a message alone. *)
Lemma New_message pc h msg :
  exists w e,
    errs h !! w = None /\
    New pc [VString msg] h = (Ok w, mkHeap (<[w := e]> (errs h)) (maps h)) /\
    err_Message e = msg /\ err_Cause e = nil_error /\ err_Fields e = None.
Proof.
  pose proof (fresh_err_None h) as Hw.
  set (w := fresh (dom (errs h))) in *.
  set (h1 := mkHeap (<[w := set_Message msg zero_Error]> (errs h)) (maps h)).
  assert (Hw1 : errs h1 !! w = Some (set_Message msg zero_Error))
    by (simpl; by rewrite lookup_insert_eq).
  destruct (updateCaller_run pc h1 w _ Hw1) as (e & Hup & Hsame).
  destruct Hsame as (_ & Hm & Hc & Hf). simpl in *.
  exists w, e. split; [done|]. split; [|done].
  assert (Hrun : newError [VString msg] h = (Ok w, h1)).
  { unfold newError. unfold bindM at 1, alloc_Error. fold w.
    simpl. unfold bindM at 1. unfold bindM at 1.
    rewrite (update_Error_run _ _ zero_Error); simpl; [|by rewrite lookup_insert_eq].
    by rewrite insert_insert_eq. }
  unfold New. rewrite (bindM_Ok _ _ _ _ _ Hrun).
  rewrite (bindM_Ok _ _ _ _ _ Hup). unfold ret. simpl. by rewrite insert_insert_eq.
Qed.

(** The way [WithFields] reports a bad call: [Fatal(New(message))] panics and
    leaves every struct and every map of the store as it was. *)
Lemma Fatal_New_panics n pcN pcF h msg :
  3 <= n ->
  exists s h',
    (let! err := New pcN [VString msg] in
     Fatal n pcF (ptr_error (Some err))) h = (Panic (PanicString s), h') /\
    maps h' = maps h /\ errs h ⊆ errs h'.
Proof.
  intros Hn.
  destruct (New_message pcN h msg) as (w & e & Hw & Hnew & Hm & Hc & Hf).
  set (h1 := mkHeap _ _) in Hnew.
  assert (Hchain : chain h1 (ptr_error (Some w)) [e] None).
  { apply chain_node; [simpl; by rewrite lookup_insert_eq| |rewrite Hc; constructor].
    unfold fields_in_store. by rewrite Hf. }
  destruct (Fatal_chain n pcF h1 _ _ _ Hchain ltac:(done) ltac:(simpl; lia))
    as (m & txt & h' & _ & _ & Hrun & _ & _ & _ & _ & _ & _ & Hmaps & Hsub).
  eexists _, h'. split.
  { rewrite (bindM_Ok _ _ _ _ _ Hnew). done. }
  split; [done|]. etrans; [|done]. by apply insert_subseteq.
Qed.

Lemma map_assign_run h m g k v :
  maps h !! m = Some g ->
  map_assign (Some m) k v h =
    (Ok tt, mkHeap (errs h) (<[m := <[k := v]> g]> (maps h))).
Proof. intros Hg. unfold map_assign. by rewrite Hg. Qed.

(** The loop of [WithFields] over a run of string-keyed pairs attaches them
    in order and goes on with what follows. *)
Lemma WithFields_loop_pairs n pcN pcF l e m pairs : forall rest h g i,
  errs h !! l = Some e -> err_Fields e = Some m -> maps h !! m = Some g ->
  WithFields_loop n pcN pcF (Some l) (flatten_pairs pairs ++ rest) i h =
    WithFields_loop n pcN pcF (Some l) rest (i + 2 * length pairs)
      (mkHeap (errs h) (<[m := attach g pairs]> (maps h))).
Proof.
  induction pairs as [|[k v] pairs IH]; intros rest h g i Hl Hm Hg.
  - simpl. rewrite Nat.add_0_r. destruct h as [E Ms]. simpl in *.
    by rewrite insert_id.
  - simpl. unfold bindM at 1, ret at 1. unfold bindM at 1, readM at 1. simpl.
    rewrite Hl. unfold bindM at 1. rewrite Hm.
    rewrite (map_assign_run _ _ _ _ _ Hg).
    rewrite (IH rest _ (<[k := v]> g) (i + 2)); simpl;
      [|done|done|by rewrite lookup_insert_eq].
    rewrite insert_insert_eq. f_equal. lia.
Qed.

Lemma flatten_pairs_length pairs : length (flatten_pairs pairs) = 2 * length pairs.
Proof. induction pairs as [|[k v] pairs IH]; simpl; lia. Qed.

Lemma flatten_pairs_key pairs i k :
  flatten_pairs pairs !! (2 * i) = Some k -> is_string_value k.
Proof.
  revert i. induction pairs as [|[k' v] pairs IH]; intros i; [done|].
  destruct i as [|i]; simpl.
  - by intros [= <-].
  - replace (i + S (i + 0)) with (S (2 * i)) by lia. simpl. apply IH.
Qed.

(** Every list is a run of string-keyed pairs followed by nothing, by one
    last string, or by a value that is not a string. *)
Lemma kvs_shape kvs :
  (exists pairs, kvs = flatten_pairs pairs) \/
  (exists pairs s, kvs = flatten_pairs pairs ++ [VString s]) \/
  (exists pairs k rest, kvs = flatten_pairs pairs ++ k :: rest /\ ~ is_string_value k).
Proof.
  remember (length kvs) as n eqn:Hn. revert kvs Hn.
  induction n as [n IH] using lt_wf_ind. intros kvs Hn.
  destruct kvs as [|k [|v rest]].
  - left. by exists [].
  - destruct k as [|?|s|?|?|?|?|?];
      try solve [right; right; eexists [], _, []; split; [done|intros []]].
    right; left. by exists [], s.
  - destruct k as [|?|s|?|?|?|?|?];
      try solve [right; right; eexists [], _, (v :: rest); split; [done|intros []]].
    destruct (IH (length rest) ltac:(simpl in Hn; lia) rest eq_refl)
      as [[pairs ->]|[(pairs & s' & ->)|(pairs & k & rest' & -> & Hk)]].
    + left. by exists ((s, v) :: pairs).
    + right; left. by exists ((s, v) :: pairs), s'.
    + right; right. by exists ((s, v) :: pairs), k, rest'.
Qed.

Lemma bad_kvs_shape kvs :
  bad_kvs kvs ->
  Nat.Odd (length kvs) \/
  (Nat.Even (length kvs) /\
   exists pairs k rest, kvs = flatten_pairs pairs ++ k :: rest /\ ~ is_string_value k).
Proof.
  intros Hbad.
  destruct (Nat.Even_or_Odd (length kvs)) as [Heven|Hodd]; [|by left].
  right. split; [done|].
  destruct (kvs_shape kvs) as [[pairs ->]|[(pairs & s & ->)|Hshape]]; [| |done].
  - destruct Hbad as [Hodd|(i & k & Hi & Hk)].
    + by destruct (Nat.Even_Odd_False _ Heven Hodd).
    + by apply flatten_pairs_key in Hi.
  - rewrite length_app, flatten_pairs_length in Heven. simpl in Heven.
    destruct Heven as [x Hx]. lia.
Qed.

Lemma good_kvs_shape kvs : ~ bad_kvs kvs -> exists pairs, kvs = flatten_pairs pairs.
Proof.
  intros Hgood.
  destruct (kvs_shape kvs) as [Hshape|[(pairs & s & ->)|(pairs & k & rest & -> & Hk)]];
    [done| |]; exfalso; apply Hgood.
  - left. rewrite length_app, flatten_pairs_length. simpl.
    exists (length pairs). lia.
  - right. exists (length pairs), k. split; [|done].
    rewrite lookup_app_r by (rewrite flatten_pairs_length; lia).
    rewrite flatten_pairs_length. by rewrite Nat.sub_diag.
Qed.

Lemma even_mod2 k : Nat.Even k -> (k mod 2 =? 0)%nat = true.
Proof.
  intros [x ->]. apply Nat.eqb_eq. rewrite Nat.mul_comm. by apply Nat.Div0.mod_mul.
Qed.

Lemma odd_mod2 k : Nat.Odd k -> (k mod 2 =? 0)%nat = false.
Proof.
  intros [x ->]. apply Nat.eqb_neq.
  rewrite Nat.add_comm, Nat.mul_comm, Nat.Div0.mod_add. done.
Qed.

(** With an even number of values [WithFields] makes sure the receiver has a
    field map and enters its loop. *)
Lemma WithFields_even n pcN pcF h l e kvs :
  Nat.Even (length kvs) ->
  errs h !! l = Some e -> fields_in_store h e ->
  exists h1 e1 m,
    errs h1 !! l = Some e1 /\ err_Fields e1 = Some m /\
    maps h1 !! m = Some (own_fields h e) /\
    (err_Fields e = Some m \/ (err_Fields e = None /\ maps h !! m = None)) /\
    WithFields n pcN pcF (Some l) kvs h =
      (WithFields_loop n pcN pcF (Some l) kvs 0 ;;! ret (Some l)) h1.
Proof.
  intros Heven Hl Hf. unfold WithFields. rewrite (even_mod2 _ Heven). simpl.
  unfold bindM at 1, ret at 1. unfold bindM at 1. unfold bindM at 1, readM at 1.
  simpl. rewrite Hl. unfold fields_in_store in Hf. unfold own_fields.
  destruct (err_Fields e) as [m|] eqn:Hm.
  - destruct Hf as [g Hg]. unfold ret at 1.
    exists h, e, m. rewrite Hg. repeat (split; [done|]). split; [by left|done].
  - pose proof (fresh_map_None h) as Hfr.
    set (r := fresh (dom (maps h))) in *.
    unfold bindM at 1, make_map. fold r.
    rewrite (update_Error_run _ _ e); [|done]. simpl.
    exists (mkHeap (<[l := set_Fields (Some r) e]> (errs h)) (<[r := ∅]> (maps h))),
      (set_Fields (Some r) e), r.
    split; [simpl; by rewrite lookup_insert_eq|].
    split; [done|]. split; [simpl; by rewrite lookup_insert_eq|].
    split; [by right|done].
Qed.

Lemma WithFields_odd n pcN pcF h p kvs :
  3 <= n -> Nat.Odd (length kvs) ->
  exists s h',
    WithFields n pcN pcF p kvs h = (Panic (PanicString s), h') /\
    maps h' = maps h /\ errs h ⊆ errs h'.
Proof.
  intros Hn Hodd. unfold WithFields. rewrite (odd_mod2 _ Hodd). simpl.
  destruct (Fatal_New_panics n pcN pcF h
              ("errors: invalid argument count for WithFields, expected even number of fields, got "
               +:+ Itoa (Z.of_nat (length kvs))) Hn)
    as (s & h' & Hrun & Hm & Hsub).
  exists s, h'. split; [|done]. by rewrite (bindM_Panic _ _ _ _ _ Hrun).
Qed.

Lemma WithFields_all_pairs n pcN pcF h l e pairs :
  errs h !! l = Some e -> fields_in_store h e ->
  exists h' e' m,
    WithFields n pcN pcF (Some l) (flatten_pairs pairs) h = (Ok (Some l), h') /\
    errs h' !! l = Some e' /\ err_Fields e' = Some m /\
    maps h' !! m = Some (attach (own_fields h e) pairs).
Proof.
  intros Hl Hf.
  destruct (WithFields_even n pcN pcF h l e (flatten_pairs pairs))
    as (h1 & e1 & m & Hl1 & Hm1 & Hg1 & _ & ->); [|done|done|].
  { rewrite flatten_pairs_length. by exists (length pairs). }
  pose proof (WithFields_loop_pairs n pcN pcF l e1 m pairs [] h1 _ 0 Hl1 Hm1 Hg1)
    as Hloop.
  rewrite app_nil_r in Hloop. unfold bindM. rewrite Hloop.
  simpl. unfold ret. eexists _, e1, m. split; [done|]. simpl.
  split; [done|]. split; [done|]. by rewrite lookup_insert_eq.
Qed.

Lemma WithFields_bad_key n pcN pcF h l e pairs k rest :
  3 <= n ->
  errs h !! l = Some e -> fields_in_store h e ->
  Nat.Even (length (flatten_pairs pairs ++ k :: rest)) ->
  ~ is_string_value k ->
  exists s h' e' m,
    WithFields n pcN pcF (Some l) (flatten_pairs pairs ++ k :: rest) h =
      (Panic (PanicString s), h') /\
    errs h' !! l = Some e' /\ err_Fields e' = Some m /\
    (err_Fields e = Some m \/ (err_Fields e = None /\ maps h !! m = None)) /\
    maps h' !! m = Some (attach (own_fields h e) pairs).
Proof.
  intros Hn Hl Hf Heven Hk.
  destruct (WithFields_even n pcN pcF h l e _ Heven Hl Hf)
    as (h1 & e1 & m & Hl1 & Hm1 & Hg1 & Hm & ->).
  unfold bindM at 1.
  rewrite (WithFields_loop_pairs _ _ _ _ _ _ _ _ _ _ _ Hl1 Hm1 Hg1).
  set (h2 := mkHeap _ _).
  assert (Hl2 : errs h2 !! l = Some e1) by done.
  assert (Hg2 : maps h2 !! m = Some (attach (own_fields h e) pairs))
    by (subst h2; simpl; by rewrite lookup_insert_eq).
  clearbody h2.
  set (msg := "errors: invalid type for key passed to WithFields at index "
              +:+ Itoa (Z.of_nat (0 + 2 * length pairs))).
  destruct (Fatal_New_panics n pcN pcF h2 msg Hn) as (s & h' & Hrun & Hmaps & Hsub).
  exists s, h', e1, m. split.
  { simpl. unfold bindM at 1.
    destruct k; try (exfalso; by apply Hk);
      fold msg; by rewrite (bindM_Panic _ _ _ _ _ Hrun). }
  split; [by eapply lookup_weaken|]. split; [done|]. split; [done|].
  by rewrite Hmaps.
Qed.

(** C7.  The constructors and [WithFields] panic on the listed inputs and on
    no others (for a store that holds the pointers passed, and a receiver
    that is a node of the store).  [New] panics when it has no argument, or
    an argument of a type its switch does not know, or a nil [*Error], and
    otherwise returns a node; so does [Wrap] on its arguments followed by a
    cause that is not the nil interface.  [WithFields] panics when the number
    of values is odd or a value at an even index is not a string, and
    otherwise returns its receiver.  A panic is never an ordinary result. *)
Theorem programmer_errors_panic n pcN pcF pc h :
  3 <= n ->
  (forall args, args_in_store h args ->
     (args = [] \/ Exists bad_arg args ->
      exists s h', New pc args h = (Panic (PanicString s), h')) /\
     (~ (args = [] \/ Exists bad_arg args) ->
      exists l h', New pc args h = (Ok l, h'))) /\
  (forall c args, c <> nil_error -> args_in_store h (args ++ [value_of_error c]) ->
     (Exists bad_arg (args ++ [value_of_error c]) ->
      exists s h', Wrap pc c args h = (Panic (PanicString s), h')) /\
     (~ Exists bad_arg (args ++ [value_of_error c]) ->
      exists l h', Wrap pc c args h = (Ok (Some l), h'))) /\
  (forall l e kvs, errs h !! l = Some e -> fields_in_store h e ->
     (bad_kvs kvs ->
      exists s h', WithFields n pcN pcF (Some l) kvs h = (Panic (PanicString s), h')) /\
     (~ bad_kvs kvs ->
      exists h', WithFields n pcN pcF (Some l) kvs h = (Ok (Some l), h'))).
Proof.
  intros Hn. split; [|split].
  - intros args Hin. split.
    + by apply New_bad.
    + intros Hgood. destruct args as [|a rest] eqn:Hargs; [by destruct Hgood; left|].
      rewrite <- Hargs in *.
      destruct (good_or_bad args) as [Hg|Hb]; [|by destruct Hgood; right].
      destruct (New_good pc h args) as (l & h' & _ & Hrun & _); [by subst|done|done|].
      by exists l, h'.
  - intros c args Hc Hin.
    assert (Hne : args ++ [value_of_error c] <> []) by (by destruct args).
    unfold Wrap. rewrite (value_of_error_not_nil c Hc). split.
    + intros Hbad.
      destruct (newError_bad h _ Hin (or_intror Hbad)) as (s & h' & Hrun).
      exists s, h'. by rewrite (bindM_Panic _ _ _ _ _ Hrun).
    + intros Hgood.
      destruct (good_or_bad (args ++ [value_of_error c])) as [Hg|Hb]; [|done].
      destruct (construct_good pc h _ Hne Hin Hg)
        as (l & h0 & h' & _ & _ & Hrun & Hup & _).
      exists l, h'. rewrite (bindM_Ok _ _ _ _ _ Hrun).
      by rewrite (bindM_Ok _ _ _ _ _ Hup).
  - intros l e kvs Hl Hf. split.
    + intros Hbad.
      destruct (bad_kvs_shape kvs Hbad)
        as [Hodd|(Heven & pairs & k & rest & -> & Hk)].
      * destruct (WithFields_odd n pcN pcF h (Some l) kvs Hn Hodd) as (s & h' & Hrun & _).
        by exists s, h'.
      * destruct (WithFields_bad_key n pcN pcF h l e pairs k rest Hn Hl Hf Heven Hk)
          as (s & h' & _ & _ & Hrun & _).
        by exists s, h'.
    + intros Hgood. destruct (good_kvs_shape kvs Hgood) as [pairs ->].
      destruct (WithFields_all_pairs n pcN pcF h l e pairs Hl Hf) as (h' & _ & _ & Hrun & _).
      by exists h'.
Qed.

(** C10.  [WithFields] is not atomic.  Take an even number of values made of
    [i] string-keyed pairs followed by a key that is not a string, so that
    the first bad key sits at index [2 * i]; this covers every [i], the
    claim's [0 < i] included.  The call panics, and in the store it leaves
    behind the receiver has a field map (the one it had, or one made by the
    call when it had none) holding the former entries with the [i] pairs
    attached in order. *)
Theorem WithFields_not_atomic n pcN pcF h l e pairs k rest i :
  3 <= n ->
  errs h !! l = Some e -> fields_in_store h e ->
  Nat.Even (length (flatten_pairs pairs ++ k :: rest)) ->
  length pairs = i -> 0 < i ->
  ~ is_string_value k ->
  (flatten_pairs pairs ++ k :: rest) !! (2 * i) = Some k /\
  exists s h' e' m,
    WithFields n pcN pcF (Some l) (flatten_pairs pairs ++ k :: rest) h =
      (Panic (PanicString s), h') /\
    errs h' !! l = Some e' /\ err_Fields e' = Some m /\
    (err_Fields e = Some m \/ (err_Fields e = None /\ maps h !! m = None)) /\
    maps h' !! m = Some (attach (own_fields h e) pairs).
Proof.
  intros Hn Hl Hf Heven <- Hi Hk. split.
  - rewrite lookup_app_r by (rewrite flatten_pairs_length; lia).
    rewrite flatten_pairs_length. by rewrite Nat.sub_diag.
  - by apply WithFields_bad_key.
Qed.

(** ** Nil pointers

    A [*Error] that is nil inside a non-nil interface is not a chain: the
    functions that read through it panic, and the constructors refuse it. *)

Lemma nil_pointer_traversals n h kind :
  Is (S n) h (ptr_error None) kind = Panic NilDereference /\
  Message (S n) h (ptr_error None) = Panic NilDereference /\
  Stack (S n) h (ptr_error None) = Panic NilDereference /\
  Fields (S n) (ptr_error None) h = (Panic NilDereference, h).
Proof. done. Qed.

Lemma nil_pointer_cause pc args h :
  args_in_store h args ->
  exists s h', Wrap pc (ptr_error None) args h = (Panic (PanicString s), h').
Proof.
  intros Hin. unfold Wrap. simpl.
  destruct (newError_bad h (args ++ [VError None])) as (s & h' & Hrun).
  - intros l Hl. apply Hin. apply elem_of_app in Hl as [Hl|Hl]; [done|].
    by apply list_elem_of_singleton in Hl.
  - right. apply Exists_app. right. left. by right.
  - exists s, h'. by rewrite (bindM_Panic _ _ _ _ _ Hrun).
Qed.

(** * Further properties *)

(** ** Fields: what it leaves alone, what it shares *)

(** X1.  [Fields] on a chain writes to no struct and to no map that existed
    before the call: every map of the store, the nodes' own maps included,
    has afterwards the entries it had. *)
Theorem Fields_keeps_store n h err es t :
  chain h err es t -> length es < n ->
  exists r h',
    Fields n err h = (Ok r, h') /\
    errs h' = errs h /\
    forall m g, maps h !! m = Some g -> maps h' !! m = Some g.
Proof.
  intros Hc Hn.
  destruct (Fields_chain n h err es t Hc Hn) as (r & h' & Hrun & He & Hsub & _).
  exists r, h'. split; [done|]. split; [done|].
  intros m g Hg. by eapply lookup_weaken.
Qed.

Lemma own_fields_mono h h' e :
  fields_in_store h e -> maps h ⊆ maps h' -> own_fields h' e = own_fields h e.
Proof.
  unfold fields_in_store, own_fields. intros Hf Hsub.
  destruct (err_Fields e) as [m|]; [|done].
  destruct Hf as [g Hg]. rewrite Hg. by rewrite (lookup_weaken _ _ _ _ Hg Hsub).
Qed.

Lemma merged_fields_mono h h' err es t :
  chain h err es t -> maps h ⊆ maps h' -> merged_fields h' es = merged_fields h es.
Proof.
  intros Hc Hsub. induction Hc as [| |l e es t Hl Hf Hc IH]; [done..|].
  simpl. by rewrite IH, (own_fields_mono h h' e).
Qed.

Lemma Fields_no_maps n h err es t :
  chain h err es t -> length es < n ->
  Forall (fun x => err_Fields x = None) es ->
  Fields n err h = (Ok None, h).
Proof.
  intros Hc. revert n.
  induction Hc as [|f|l e es t Hl Hf Hc IH]; intros [|n] Hn Hall;
    simpl in Hn; try lia; try done.
  apply Forall_cons in Hall as [He Hall].
  simpl. unfold bindM at 1, readM. simpl. rewrite Hl.
  destruct (is_nil (err_Cause e)) eqn:Hnil; simpl.
  - unfold bindM, ret. by rewrite He.
  - unfold bindM, ret. rewrite (IH n ltac:(lia) Hall). by rewrite He.
Qed.

(** X2.  Which map [Fields] returns for a chain headed by a node.  When no
    node below the head has a field map, the result is the head's own
    [Fields] value itself (nil, or the very map of the head, not a copy) and
    the store is unchanged.  When some node below the head has a map, the
    result is a map that did not exist before the call. *)
Theorem Fields_own_or_new n h l e es t :
  chain h (ptr_error (Some l)) (e :: es) t -> S (length es) < n ->
  (Forall (fun x => err_Fields x = None) es ->
   Fields n (ptr_error (Some l)) h = (Ok (err_Fields e), h)) /\
  (~ Forall (fun x => err_Fields x = None) es ->
   exists m h', Fields n (ptr_error (Some l)) h = (Ok (Some m), h') /\
                maps h !! m = None).
Proof.
  intros Hc Hn.
  apply chain_inv_ptr in Hc as (l0 & e0 & es0 & Hl0 & Hes & Hl & Hf & Hc).
  simplify_eq. destruct n as [|n]; [lia|].
  split.
  - intros Hall.
    simpl. unfold bindM at 1, readM. simpl. rewrite Hl.
    destruct (is_nil (err_Cause e0)) eqn:Hnil; simpl.
    + unfold bindM, ret. by destruct (err_Fields e0).
    + unfold bindM, ret.
      rewrite (Fields_no_maps n h _ es0 t Hc ltac:(lia) Hall).
      by destruct (err_Fields e0).
  - intros Hsome.
    destruct (Fields_chain n h _ es0 t Hc ltac:(lia))
      as (r1 & h1 & Hrun & Herrs & Hsub & Hnone & Hcontent).
    destruct r1 as [cf|]; [|by destruct Hsome; apply Hnone].
    assert (Hnil : is_nil (err_Cause e0) = false).
    { destruct (err_Cause e0); [|done..].
      apply chain_nil_inv in Hc as [-> _]. by destruct Hsome. }
    pose proof (Hcontent cf eq_refl) as Hcf.
    pose proof (fresh_map_None h1) as Hfr.
    set (r := fresh (dom (maps h1))) in *.
    assert (Hne : r <> cf) by congruence.
    assert (Hnew : maps h !! r = None).
    { destruct (maps h !! r) as [g|] eqn:Hg; [|done].
      by rewrite (lookup_weaken _ _ _ _ Hg Hsub) in Hfr. }
    simpl. unfold bindM at 1, readM. simpl. rewrite Hl. rewrite Hnil. simpl.
    unfold bindM, readM, ret, make_map, map_entries. rewrite Hrun. simpl.
    fold r. rewrite lookup_insert_ne by done. rewrite Hcf.
    rewrite (range_assign_map_to_list _ r ∅); simpl;
      [|by rewrite lookup_insert_eq].
    rewrite insert_insert_eq, (right_id_L ∅ (∪)).
    unfold fields_in_store in Hf.
    destruct (err_Fields e0) as [own|] eqn:Hown.
    + destruct Hf as [g Hg].
      assert (Hg1 : maps h1 !! own = Some g) by (by eapply lookup_weaken).
      assert (Hne' : r <> own) by congruence.
      simpl. rewrite lookup_insert_ne by done. rewrite Hg1.
      rewrite (range_assign_map_to_list _ r (merged_fields h es0)); simpl;
        [|by rewrite lookup_insert_eq].
      by eexists r, _.
    + by eexists r, _.
Qed.

(** X3.  Calling [Fields] a second time, on the store the first call left,
    gives the same answer: nil both times, or two maps with the same
    entries.  The map returned first is still intact after the second
    call. *)
Theorem Fields_twice n h err es t :
  chain h err es t -> length es < n ->
  exists r1 h1 r2 h2,
    Fields n err h = (Ok r1, h1) /\
    Fields n err h1 = (Ok r2, h2) /\
    (r1 = None <-> r2 = None) /\
    (forall m1 m2, r1 = Some m1 -> r2 = Some m2 ->
       exists g, maps h1 !! m1 = Some g /\ maps h2 !! m1 = Some g /\
                 maps h2 !! m2 = Some g).
Proof.
  intros Hc Hn.
  destruct (Fields_chain n h err es t Hc Hn)
    as (r1 & h1 & Hrun1 & He1 & Hsub1 & Hnone1 & Hsome1).
  assert (Hc1 : chain h1 err es t) by (apply (chain_mono h h1); [by rewrite He1|done..]).
  destruct (Fields_chain n h1 err es t Hc1 Hn)
    as (r2 & h2 & Hrun2 & He2 & Hsub2 & Hnone2 & Hsome2).
  exists r1, h1, r2, h2. split; [done|]. split; [done|]. split.
  - by rewrite Hnone1, Hnone2.
  - intros m1 m2 -> ->. exists (merged_fields h es).
    pose proof (Hsome1 m1 eq_refl) as H1. split; [done|].
    split; [by eapply lookup_weaken|].
    rewrite (Hsome2 m2 eq_refl). f_equal. by eapply merged_fields_mono.
Qed.

(** ** FieldsSlice *)

Lemma sort_Strings_elem k l : k ∈ sort_Strings l <-> k ∈ l.
Proof. unfold sort_Strings. by rewrite merge_sort_Permutation. Qed.

Lemma sort_Strings_sorted l : Sorted String.le (sort_Strings l).
Proof. apply Sorted_merge_sort, _. Qed.

Lemma sort_Strings_NoDup l : NoDup l -> NoDup (sort_Strings l).
Proof. unfold sort_Strings. by rewrite merge_sort_Permutation. Qed.

Lemma sorted_pairs_keys g : (sorted_pairs g).*1 = sort_Strings (map_to_list g).*1.
Proof.
  unfold sorted_pairs. generalize (sort_Strings (map_to_list g).*1). intros l.
  induction l as [|k l IH]; [done|]. rewrite !fmap_cons. simpl. by f_equal.
Qed.

Lemma sorted_pairs_elem g k v : (k, v) ∈ sorted_pairs g <-> g !! k = Some v.
Proof.
  unfold sorted_pairs. rewrite list_elem_of_fmap. split.
  - intros (k' & [= -> ->] & Hk). apply (proj1 (sort_Strings_elem _ _)) in Hk.
    apply list_elem_of_fmap in Hk as ([k'' v'] & -> & Hkv).
    apply elem_of_map_to_list in Hkv. simpl. by rewrite Hkv.
  - intros Hkv. exists k. rewrite Hkv. split; [done|].
    apply sort_Strings_elem. apply list_elem_of_fmap. exists (k, v).
    split; [done|]. by apply elem_of_map_to_list.
Qed.

(** The appending loop of [FieldsSlice], from a slice [acc]. *)
Lemma FieldsSlice_loop (g : gmap string value) keys : forall acc : slice value,
  foldl (fun fields k =>
           append (append fields (VString k)) (default VNil (g !! k))) acc keys =
  match keys with
  | [] => acc
  | _ => Some (default [] acc ++
               flatten_pairs ((fun k => (k, default VNil (g !! k))) <$> keys))
  end.
Proof.
  induction keys as [|k keys IH]; intros acc; [done|].
  simpl. rewrite IH. unfold append. simpl.
  destruct keys as [|k' keys]; simpl.
  - by rewrite <- app_assoc.
  - by rewrite <- !app_assoc.
Qed.

(** X4.  [FieldsSlice] on a chain returns the merged fields as a flat list
    key, value, key, value, ... with the keys in ascending order and no key
    twice; a pair is in the list exactly when the merged map binds the key
    to the value.  When there is no key at all (nil error, no field map, or
    only empty maps) the result is the nil slice. *)
Theorem FieldsSlice_sorted n h err es t :
  chain h err es t -> length es < n ->
  exists r h' pairs,
    FieldsSlice n err h = (Ok r, h') /\
    r = match pairs with
        | [] => None
        | _ => Some (flatten_pairs pairs)
        end /\
    Sorted String.le pairs.*1 /\
    NoDup pairs.*1 /\
    (forall k v, (k, v) ∈ pairs <-> merged_fields h es !! k = Some v).
Proof.
  intros Hc Hn.
  exists (match sorted_pairs (merged_fields h es) with
          | [] => None
          | _ => Some (flatten_pairs (sorted_pairs (merged_fields h es)))
          end).
  assert (Hprops :
    Sorted String.le (sorted_pairs (merged_fields h es)).*1 /\
    NoDup (sorted_pairs (merged_fields h es)).*1 /\
    forall k v, (k, v) ∈ sorted_pairs (merged_fields h es) <->
                merged_fields h es !! k = Some v).
  { rewrite sorted_pairs_keys. split; [apply sort_Strings_sorted|].
    split; [apply sort_Strings_NoDup, NoDup_fst_map_to_list|].
    apply sorted_pairs_elem. }
  destruct err as [|p|f].
  - apply chain_nil_inv in Hc as [-> ->].
    exists h, (sorted_pairs (merged_fields h [])). split; [done|]. done.
  - destruct (Fields_chain n h _ es t Hc Hn)
      as (r & h' & Hrun & _ & _ & Hnone & Hsome).
    exists h', (sorted_pairs (merged_fields h es)). split; [|done].
    unfold FieldsSlice. simpl. rewrite (bindM_Ok _ _ _ _ _ Hrun).
    assert (Hentries : map_entries h' r = Ok (merged_fields h es)).
    { destruct r as [m|]; simpl.
      - by rewrite (Hsome m eq_refl).
      - by rewrite merged_fields_no_maps by (by apply Hnone). }
    unfold bindM, readM, ret. rewrite Hentries.
    rewrite FieldsSlice_loop. fold (sorted_pairs (merged_fields h es)).
    unfold sorted_pairs.
    by destruct (sort_Strings (map_to_list (merged_fields h es)).*1).
  - apply chain_foreign_inv in Hc as [-> ->].
    destruct n as [|n]; [simpl in Hn; lia|].
    exists h, (sorted_pairs (merged_fields h [])). split; [|done]. done.
Qed.

(** ** WithField and WithFields on good input *)

(** [WithField] on a node returns the node, gives it a field map if it
    had none (a new map, not one in use), and binds the key to the value in
    that map; the other keys of the map, every other struct and every other
    map are as before, and so are the node's kind, message, cause and
    call-site. *)
Lemma WithField_node h l e k v :
  errs h !! l = Some e -> fields_in_store h e ->
  exists h' m,
    WithField (Some l) k v h = (Ok (Some l), h') /\
    errs h' !! l = Some (set_Fields (Some m) e) /\
    (err_Fields e = Some m \/ (err_Fields e = None /\ maps h !! m = None)) /\
    maps h' !! m = Some (<[k := v]> (own_fields h e)) /\
    (forall l', l' <> l -> errs h' !! l' = errs h !! l') /\
    (forall m', m' <> m -> maps h' !! m' = maps h !! m').
Proof.
  intros Hl Hf. unfold fields_in_store in Hf. unfold own_fields.
  destruct (err_Fields e) as [m|] eqn:Hm.
  - destruct Hf as [g Hg]. rewrite Hg. simpl.
    exists (mkHeap (errs h) (<[m := <[k := v]> g]> (maps h))), m.
    split; [by apply (WithField_existing_map h l e m g)|]. simpl.
    split. { rewrite Hl. f_equal. destruct e; simpl in *; by subst. }
    split; [by left|]. split; [by rewrite lookup_insert_eq|].
    split; [done|]. intros m' Hm'. by rewrite lookup_insert_ne.
  - pose proof (fresh_map_None h) as Hfr.
    set (r := fresh (dom (maps h))) in *.
    exists (mkHeap (<[l := set_Fields (Some r) e]> (errs h))
                   (<[r := <[k := v]> ∅]> (maps h))), r.
    split.
    { unfold WithField. unfold bindM at 1. unfold bindM at 1, readM at 1.
      simpl. rewrite Hl, Hm. unfold bindM at 1, make_map. fold r.
      rewrite (update_Error_run _ _ e); [|done].
      unfold bindM at 1. unfold bindM at 1, readM at 1. simpl.
      rewrite lookup_insert_eq. simpl.
      unfold map_assign. simpl. rewrite lookup_insert_eq.
      by rewrite insert_insert_eq. }
    simpl. split; [by rewrite lookup_insert_eq|]. split; [by right|].
    split; [by rewrite lookup_insert_eq|].
    split; intros x Hx; by rewrite lookup_insert_ne.
Qed.

(** X5.  [WithField] on a node returns the node, gives it a field map if it
    had none (a new map, not one in use), and binds the key to the value in
    that map; the other keys of the map, every other struct and every other
    map are as before, and so are the node's kind, message, cause and
    call-site. *)
Theorem WithField_attaches h l e k v :
  errs h !! l = Some e -> fields_in_store h e ->
  exists h' m,
    WithField (Some l) k v h = (Ok (Some l), h') /\
    errs h' !! l = Some (set_Fields (Some m) e) /\
    (err_Fields e = Some m \/ (err_Fields e = None /\ maps h !! m = None)) /\
    maps h' !! m = Some (<[k := v]> (own_fields h e)) /\
    (forall l', l' <> l -> errs h' !! l' = errs h !! l') /\
    (forall m', m' <> m -> maps h' !! m' = maps h !! m').
Proof.
  intros Hl Hf.
  destruct (WithField_node h l e k v Hl Hf)
    as (h' & m & Hrun & Hl' & Hm & Hg & Herrs & Hmaps).
  exists h', m. split; [exact Hrun|]. split; [exact Hl'|].
  split; [exact Hm|]. split; [exact Hg|]. split; [exact Herrs|exact Hmaps].
Qed.

Lemma WithField_each_run l e m pairs : forall h g,
  errs h !! l = Some e -> err_Fields e = Some m -> maps h !! m = Some g ->
  WithField_each (Some l) pairs h =
    (Ok (Some l), mkHeap (errs h) (<[m := attach g pairs]> (maps h))).
Proof.
  induction pairs as [|[k v] pairs IH]; intros h g Hl Hm Hg.
  - simpl. unfold ret. destruct h as [E Ms]. simpl in *. by rewrite insert_id.
  - simpl. unfold bindM. rewrite (WithField_existing_map h l e m g k v Hl Hm Hg).
    rewrite (IH _ (<[k := v]> g)); simpl; [|done|done|by rewrite lookup_insert_eq].
    by rewrite insert_insert_eq.
Qed.

(** The store in which the loop of [WithFields] starts. *)
Lemma WithFields_enter n pcN pcF h l e kvs :
  Nat.Even (length kvs) -> errs h !! l = Some e ->
  WithFields n pcN pcF (Some l) kvs h =
    (WithFields_loop n pcN pcF (Some l) kvs 0 ;;! ret (Some l))
      (match err_Fields e with
       | Some _ => h
       | None =>
           mkHeap (<[l := set_Fields (Some (fresh (dom (maps h)))) e]> (errs h))
                  (<[fresh (dom (maps h)) := ∅]> (maps h))
       end).
Proof.
  intros Heven Hl. unfold WithFields. rewrite (even_mod2 _ Heven). simpl.
  unfold bindM at 1, ret at 1. unfold bindM at 1. unfold bindM at 1, readM at 1.
  simpl. rewrite Hl.
  destruct (err_Fields e) as [m|] eqn:Hm; [done|].
  unfold bindM at 1, make_map.
  by rewrite (update_Error_run _ _ e).
Qed.

(** X6.  [WithFields] on a list of string-keyed pairs that is not empty
    does exactly what one [WithField] call per pair does, in order: the same
    result and the same store. *)
Theorem WithFields_as_WithField n pcN pcF h l e pairs :
  errs h !! l = Some e -> fields_in_store h e -> pairs <> [] ->
  WithFields n pcN pcF (Some l) (flatten_pairs pairs) h =
    WithField_each (Some l) pairs h.
Proof.
  intros Hl Hf Hne.
  rewrite (WithFields_enter n pcN pcF h l e); [|
    rewrite flatten_pairs_length; by exists (length pairs)|done].
  unfold fields_in_store in Hf.
  destruct (err_Fields e) as [m|] eqn:Hm.
  - destruct Hf as [g Hg].
    pose proof (WithFields_loop_pairs n pcN pcF l e m pairs [] h g 0 Hl Hm Hg)
      as Hloop.
    rewrite app_nil_r in Hloop. unfold bindM at 1. rewrite Hloop. simpl.
    by rewrite (WithField_each_run l e m pairs h g).
  - set (r := fresh (dom (maps h))).
    set (h1 := mkHeap _ _).
    assert (Hl1 : errs h1 !! l = Some (set_Fields (Some r) e))
      by (simpl; by rewrite lookup_insert_eq).
    assert (Hg1 : maps h1 !! r = Some ∅) by (simpl; by rewrite lookup_insert_eq).
    pose proof (WithFields_loop_pairs n pcN pcF l _ r pairs [] h1 ∅ 0 Hl1 eq_refl Hg1)
      as Hloop.
    rewrite app_nil_r in Hloop. unfold bindM at 1. rewrite Hloop. simpl.
    unfold ret. rewrite insert_insert_eq.
    destruct pairs as [|[k v] pairs]; [done|]. simpl.
    unfold bindM.
    match goal with
    | |- _ = (let (o, h') := ?X in _) =>
        assert (X = (Ok (Some l),
                     mkHeap (<[l := set_Fields (Some r) e]> (errs h))
                            (<[r := <[k := v]> ∅]> (maps h)))) as ->
    end.
    { unfold WithField. unfold bindM at 1. unfold bindM at 1, readM at 1.
      simpl. rewrite Hl, Hm. unfold bindM at 1, make_map. fold r.
      rewrite (update_Error_run _ _ e); [|done].
      unfold bindM at 1. unfold bindM at 1, readM at 1. simpl.
      rewrite lookup_insert_eq. simpl.
      unfold map_assign. simpl. rewrite lookup_insert_eq.
      by rewrite insert_insert_eq. }
    rewrite (WithField_each_run l (set_Fields (Some r) e) r pairs _ (<[k := v]> ∅));
      simpl; [|by rewrite lookup_insert_eq|done|by rewrite lookup_insert_eq].
    by rewrite insert_insert_eq.
Qed.

(** Attaching pairs in order: a key ends up with the value of its last pair,
    or with its former value when no pair has the key. *)
Lemma attach_lookup pairs : forall (g : gmap string value) k v,
  attach g pairs !! k = Some v <->
  (exists pre post, pairs = pre ++ (k, v) :: post /\ k ∉ post.*1) \/
  ((k ∉ pairs.*1) /\ g !! k = Some v).
Proof.
  induction pairs as [|[k1 v1] rest IH]; intros g k v.
  - simpl. split.
    + intros Hg. right. split; [apply not_elem_of_nil|done].
    + intros [(pre & post & Heq & _)|[_ Hg]]; [by destruct pre|done].
  - unfold attach in *. rewrite fmap_cons. cbn [foldl fst snd]. rewrite IH. split.
    + intros [(pre & post & -> & Hpost)|[Hk Hg]].
      * left. by exists ((k1, v1) :: pre), post.
      * destruct (decide (k1 = k)) as [->|Hne].
        -- rewrite lookup_insert_eq in Hg. injection Hg as ->.
           left. by exists [], rest.
        -- rewrite lookup_insert_ne in Hg by done. right.
           split; [|done]. intros [->|?]%elem_of_cons; done.
    + intros [(pre & post & Heq & Hpost)|[Hk Hg]].
      * destruct pre as [|x pre]; simplify_eq/=.
        -- right. split; [done|]. by rewrite lookup_insert_eq.
        -- left. by exists pre, post.
      * right. apply not_elem_of_cons in Hk as [Hne Hk].
        split; [done|]. by rewrite lookup_insert_ne.
Qed.

(** X7.  [WithFields] on string-keyed pairs (none included) returns its
    receiver and leaves it with a field map, made by the call if the node
    had none.  In that map a key of the list has the value of its last pair,
    and every other key has the value it had. *)
Theorem WithFields_attaches n pcN pcF h l e pairs :
  errs h !! l = Some e -> fields_in_store h e ->
  exists h' m g,
    WithFields n pcN pcF (Some l) (flatten_pairs pairs) h = (Ok (Some l), h') /\
    errs h' !! l = Some (set_Fields (Some m) e) /\
    (err_Fields e = Some m \/ (err_Fields e = None /\ maps h !! m = None)) /\
    maps h' !! m = Some g /\
    forall k v,
      g !! k = Some v <->
      (exists pre post, pairs = pre ++ (k, v) :: post /\ k ∉ post.*1) \/
      ((k ∉ pairs.*1) /\ own_fields h e !! k = Some v).
Proof.
  intros Hl Hf.
  rewrite (WithFields_enter n pcN pcF h l e); [|
    rewrite flatten_pairs_length; by exists (length pairs)|done].
  unfold fields_in_store in Hf. unfold own_fields.
  destruct (err_Fields e) as [m|] eqn:Hm.
  - destruct Hf as [g Hg]. rewrite Hg. simpl.
    pose proof (WithFields_loop_pairs n pcN pcF l e m pairs [] h g 0 Hl Hm Hg)
      as Hloop.
    rewrite app_nil_r in Hloop. unfold bindM at 1. rewrite Hloop. simpl.
    eexists _, m, _. split; [done|]. simpl.
    split. { rewrite Hl. f_equal. destruct e; simpl in *; by subst. }
    split; [by left|]. split; [by rewrite lookup_insert_eq|].
    apply attach_lookup.
  - pose proof (fresh_map_None h) as Hfr.
    set (r := fresh (dom (maps h))) in *.
    set (h1 := mkHeap _ _).
    assert (Hl1 : errs h1 !! l = Some (set_Fields (Some r) e))
      by (simpl; by rewrite lookup_insert_eq).
    assert (Hg1 : maps h1 !! r = Some ∅) by (simpl; by rewrite lookup_insert_eq).
    pose proof (WithFields_loop_pairs n pcN pcF l _ r pairs [] h1 ∅ 0 Hl1 eq_refl Hg1)
      as Hloop.
    rewrite app_nil_r in Hloop. unfold bindM at 1. rewrite Hloop. simpl.
    eexists _, r, _. split; [done|]. simpl.
    split; [by rewrite lookup_insert_eq|]. split; [by right|].
    split; [by rewrite lookup_insert_eq|].
    apply attach_lookup.
Qed.

(** X8.  With an odd number of values [WithFields] panics before it touches
    anything, whatever the receiver (a nil pointer included): every struct
    and every map of the store is afterwards as it was. *)
Theorem WithFields_odd_untouched n pcN pcF h p kvs :
  3 <= n -> Nat.Odd (length kvs) ->
  exists s h',
    WithFields n pcN pcF p kvs h = (Panic (PanicString s), h') /\
    maps h' = maps h /\
    forall l x, errs h !! l = Some x -> errs h' !! l = Some x.
Proof.
  intros Hn Hodd.
  destruct (WithFields_odd n pcN pcF h p kvs Hn Hodd) as (s & h' & Hrun & Hm & Hsub).
  exists s, h'. split; [done|]. split; [done|].
  intros l x Hl. by eapply lookup_weaken.
Qed.

Lemma chain_functional h c es1 t1 es2 t2 :
  chain h c es1 t1 -> chain h c es2 t2 -> es1 = es2 /\ t1 = t2.
Proof.
  intros Hc1. revert es2 t2.
  induction Hc1 as [|f|l e es t Hl Hf Hc IH]; intros es2 t2 Hc2.
  - by apply chain_nil_inv in Hc2 as [-> ->].
  - by apply chain_foreign_inv in Hc2 as [-> ->].
  - apply chain_inv_ptr in Hc2 as (l' & e' & es' & Heq & -> & Hl' & _ & Hc2).
    simplify_eq. destruct (IH _ _ Hc2) as [-> ->]. done.
Qed.

(** A chain below the node at [l] does not pass through [l], so it is still
    a chain after a write to the struct at [l] that keeps every map in
    place. *)
Lemma chain_below_update h h1 l full tf c es t :
  chain h (ptr_error (Some l)) full tf ->
  chain h c es t -> length es < length full ->
  (forall l', l' <> l -> errs h1 !! l' = errs h !! l') ->
  (forall m, is_Some (maps h !! m) -> is_Some (maps h1 !! m)) ->
  chain h1 c es t.
Proof.
  intros Hfull Hc Hlen Herrs Hmaps.
  induction Hc as [|f|l' e es t Hl Hf Hc IH]; [constructor..|].
  assert (Hne : l' <> l).
  { intros ->.
    destruct (chain_functional _ _ _ _ _ _ Hfull (chain_node h l e es t Hl Hf Hc))
      as [-> _].
    simpl in Hlen. lia. }
  apply chain_node.
  - by rewrite Herrs.
  - unfold fields_in_store in *. destruct (err_Fields e); [by apply Hmaps|done].
  - apply IH. simpl in Hlen. lia.
Qed.

Lemma merged_fields_lookup_keep h h1 k c es t :
  (forall m g, maps h !! m = Some g ->
     exists g1, maps h1 !! m = Some g1 /\ g1 !! k = g !! k) ->
  chain h c es t ->
  merged_fields h1 es !! k = merged_fields h es !! k.
Proof.
  intros Hkeep Hc. induction Hc as [| |l e es t Hl Hf Hc IH]; [done..|].
  simpl. rewrite !lookup_union, IH. f_equal.
  unfold fields_in_store in Hf. unfold own_fields.
  destruct (err_Fields e) as [m|]; [|done].
  destruct Hf as [g Hg]. destruct (Hkeep m g Hg) as (g1 & Hg1 & Hk).
  by rewrite Hg, Hg1.
Qed.

(** X9.  A field attached to the head of a chain with [WithField] is what
    [Fields] then reports for that key, whatever the nodes below hold; every
    other key is reported as it would have been before. *)
Theorem WithField_then_Fields n h l e es t k v :
  chain h (ptr_error (Some l)) (e :: es) t -> S (length es) < n ->
  exists h1 r h2 g,
    WithField (Some l) k v h = (Ok (Some l), h1) /\
    Fields n (ptr_error (Some l)) h1 = (Ok (Some r), h2) /\
    maps h2 !! r = Some g /\
    g !! k = Some v /\
    forall k', k' <> k -> g !! k' = merged_fields h (e :: es) !! k'.
Proof.
  intros Hc Hn. pose proof Hc as Hfull.
  apply chain_inv_ptr in Hc as (l0 & e0 & es0 & ? & ? & Hl & Hf & Hc). simplify_eq.
  destruct (WithField_node h l0 e0 k v Hl Hf)
    as (h1 & m & Hrun & Hl1 & Hm & Hg1 & Hkeep & Hkeepm).
  set (e1 := set_Fields (Some m) e0) in *.
  assert (Hmaps : forall m', is_Some (maps h !! m') -> is_Some (maps h1 !! m')).
  { intros m' Hm'. destruct (decide (m' = m)) as [->|Hne]; [by rewrite Hg1|].
    by rewrite Hkeepm. }
  assert (Hc1 : chain h1 (ptr_error (Some l0)) (e1 :: es0) t).
  { apply chain_node; [done|unfold fields_in_store; simpl; by rewrite Hg1|].
    simpl. eapply (chain_below_update h h1 l0); [exact Hfull|done|simpl; lia|done..]. }
  destruct (Fields_chain n h1 _ _ t Hc1 ltac:(simpl; lia))
    as (r & h2 & Hrun2 & _ & _ & Hnone & Hsome).
  destruct r as [r|]; cycle 1.
  { assert (Hall := proj1 Hnone eq_refl). by apply Forall_cons in Hall as [? _]. }
  exists h1, r, h2, (merged_fields h1 (e1 :: es0)).
  split; [done|]. split; [done|]. split; [by apply Hsome|].
  assert (Hown1 : own_fields h1 e1 = <[k := v]> (own_fields h e0)).
  { unfold own_fields at 1. simpl. by rewrite Hg1. }
  assert (Hkeepk : forall k', k' <> k ->
            forall m' g', maps h !! m' = Some g' ->
              exists g1, maps h1 !! m' = Some g1 /\ g1 !! k' = g' !! k').
  { intros k' Hk' m' g' Hg'. destruct (decide (m' = m)) as [->|Hne].
    - destruct Hm as [Hm|[_ Hm]]; [|congruence].
      eexists. split; [done|]. rewrite lookup_insert_ne by done.
      unfold own_fields. by rewrite Hm, Hg'.
    - exists g'. by rewrite Hkeepm. }
  split.
  - simpl. rewrite Hown1. apply lookup_union_Some_l. by rewrite lookup_insert_eq.
  - intros k' Hk'. simpl. rewrite !lookup_union, Hown1.
    rewrite lookup_insert_ne by done.
    by rewrite (merged_fields_lookup_keep h h1 k' _ es0 t (Hkeepk k' Hk') Hc).
Qed.

(** ** Constructors: dispatch by type, call-site *)

Lemma newError_arg_inv h err e0 a h1 :
  errs h !! err = Some e0 ->
  newError_arg err a h = (Ok tt, h1) ->
  exists e1,
    errs h1 !! err = Some e1 /\
    err_Kind e1 = default (err_Kind e0) (kind_of a) /\
    err_Message e1 = default (err_Message e0) (message_of a) /\
    err_Fields e1 = default (err_Fields e0) (fields_of a) /\
    err_caller e1 = err_caller e0 /\ err_file e1 = err_file e0 /\
    err_line e1 = err_line e0 /\
    match a with
    | VForeign f => err_Cause e1 = foreign_error f
    | VError _ => True
    | _ => err_Cause e1 = err_Cause e0
    end.
Proof.
  intros Herr Hrun.
  destruct a as [|k|s|[p|]|f|m|z|o]; unfold newError_arg in Hrun;
    try (by inversion Hrun);
    try (rewrite (update_Error_run _ _ _ _ Herr) in Hrun; injection Hrun as <-;
         eexists; split; [simpl; by rewrite lookup_insert_eq|]; by repeat split).
  unfold bindM at 1, readM in Hrun. simpl in Hrun.
  destruct (errs h !! p) as [ep|] eqn:Hp; [|done].
  pose proof (fresh_err_None h) as Hfr.
  set (q := fresh (dom (errs h))) in *.
  assert (q <> err) by congruence.
  unfold bindM at 1, alloc_Error in Hrun. fold q in Hrun.
  rewrite (update_Error_run _ _ e0) in Hrun; simpl; [|by rewrite lookup_insert_ne].
  injection Hrun as <-.
  eexists. split; [simpl; by rewrite lookup_insert_eq|]. by repeat split.
Qed.

Lemma default_last_of {A} (f : value -> option A) a rest (x : A) :
  default (default x (f a)) (last_of f rest) = default x (last_of f (a :: rest)).
Proof. simpl. by destruct (last_of f rest). Qed.

Lemma newError_loop_inv args : forall h err e0 h',
  errs h !! err = Some e0 ->
  newError_loop err args h = (Ok tt, h') ->
  exists e',
    errs h' !! err = Some e' /\
    err_Kind e' = default (err_Kind e0) (last_of kind_of args) /\
    err_Message e' = default (err_Message e0) (last_of message_of args) /\
    err_Fields e' = default (err_Fields e0) (last_of fields_of args) /\
    err_caller e' = err_caller e0 /\ err_file e' = err_file e0 /\
    err_line e' = err_line e0 /\
    match last_cause args with
    | None => err_Cause e' = err_Cause e0
    | Some (VForeign f) => err_Cause e' = foreign_error f
    | Some _ => True
    end.
Proof.
  induction args as [|a rest IH]; intros h err e0 h' Herr Hrun.
  - injection Hrun as <-. exists e0. by repeat split.
  - simpl in Hrun. unfold bindM at 1 in Hrun.
    destruct (newError_arg err a h) as [[[]| | |] h1] eqn:Harg; try done.
    destruct (newError_arg_inv h err e0 a h1 Herr Harg)
      as (e1 & Herr1 & Hk1 & Hm1 & Hf1 & Hc1 & Hfi1 & Hl1 & Hcause1).
    destruct (IH h1 err e1 h' Herr1 Hrun)
      as (e' & Herr' & Hk & Hm & Hf & Hc & Hfi & Hl & Hcause).
    exists e'. split; [done|].
    rewrite <- !default_last_of, <- Hk1, <- Hm1, <- Hf1.
    repeat (split; [congruence|]).
    simpl. destruct (last_cause rest) as [c|]; [done|].
    destruct a; try congruence; done.
Qed.

Lemma updateCaller_site pc h l e :
  errs h !! l = Some e ->
  err_caller e = "" -> err_file e = "" -> err_line e = 0%Z ->
  exists e',
    updateCaller pc l h = (Ok tt, mkHeap (<[l := e']> (errs h)) (maps h)) /\
    same_but_site e e' /\
    (err_caller e', err_file e', err_line e') = site_of pc.
Proof.
  intros Hl Hc Hf Hn. destruct pc as [| |name file line]; simpl.
  - exists e. split; [|split; [done|by rewrite Hc, Hf, Hn]].
    unfold ret. destruct h as [E Ms]; simpl in *. by rewrite insert_id.
  - exists e. split; [|split; [done|by rewrite Hc, Hf, Hn]].
    unfold ret. destruct h as [E Ms]; simpl in *. by rewrite insert_id.
  - eexists. split; [by apply update_Error_run|done].
Qed.

(** What a node returned by [New] holds, read back from a successful
    call. *)
Lemma New_node pc args h l h' :
  New pc args h = (Ok l, h') ->
  exists e',
    errs h !! l = None /\
    errs h' !! l = Some e' /\
    err_Kind e' = default "" (last_of kind_of args) /\
    err_Message e' = default "" (last_of message_of args) /\
    err_Fields e' = default None (last_of fields_of args) /\
    (last_cause args = None -> err_Cause e' = nil_error) /\
    (forall f, last_cause args = Some (VForeign f) -> err_Cause e' = foreign_error f) /\
    (err_caller e', err_file e', err_line e') = site_of pc.
Proof.
  intros Hrun. unfold New in Hrun. unfold bindM at 1 in Hrun.
  destruct (newError args h) as [[w| | |] h0] eqn:Hnew; try done.
  unfold newError in Hnew. destruct args as [|a rest] eqn:Hargs; [done|].
  rewrite <- Hargs in *.
  pose proof (fresh_err_None h) as Hfr.
  unfold bindM at 1, alloc_Error in Hnew.
  set (w0 := fresh (dom (errs h))) in *.
  set (hz := mkHeap (<[w0 := zero_Error]> (errs h)) (maps h)) in *.
  unfold bindM at 1 in Hnew.
  destruct (newError_loop w0 args hz) as [[[]| | |] h1] eqn:Hloop; try done.
  unfold ret in Hnew. injection Hnew as <- <-.
  destruct (newError_loop_inv args hz w0 zero_Error h1) as
    (e0 & Hw & Hk & Hm & Hf & Hc & Hfi & Hl & Hcause); [|done|].
  { simpl. by rewrite lookup_insert_eq. }
  destruct (updateCaller_site pc h1 w0 e0 Hw Hc Hfi Hl) as (e' & Hup & Hsame & Hsite).
  unfold bindM at 1 in Hrun. rewrite Hup in Hrun. unfold ret in Hrun.
  injection Hrun as <- <-.
  destruct Hsame as (Hk' & Hm' & Hc' & Hf').
  exists e'. split; [done|]. split; [simpl; by rewrite lookup_insert_eq|].
  simpl in Hk, Hm, Hf. rewrite <- Hk', <- Hm', <- Hf'.
  split; [done|]. split; [done|]. split; [done|].
  split; [|split; [|done]].
  - intros Hlast. rewrite Hlast in Hcause. simpl in Hcause. congruence.
  - intros f Hlast. rewrite Hlast in Hcause. congruence.
Qed.

(** X10.  What a node returned by [New] holds.  Each argument goes to the
    field of its type, in any order; when several arguments have the same
    type the last one wins; a field without an argument keeps its zero
    value.  A foreign error given as the last cause is stored as it is.  The
    call-site fields are those of the frame report, and empty without one.
    The node is at an address that was not in use. *)
Theorem New_dispatch pc args h l h' :
  New pc args h = (Ok l, h') ->
  exists e',
    errs h !! l = None /\
    errs h' !! l = Some e' /\
    err_Kind e' = default "" (last_of kind_of args) /\
    err_Message e' = default "" (last_of message_of args) /\
    err_Fields e' = default None (last_of fields_of args) /\
    (last_cause args = None -> err_Cause e' = nil_error) /\
    (forall f, last_cause args = Some (VForeign f) -> err_Cause e' = foreign_error f) /\
    (err_caller e', err_file e', err_line e') = site_of pc.
Proof.
  intros Hrun.
  destruct (New_node pc args h l h' Hrun)
    as (e' & Hfresh & Hl & Hk & Hm & Hf & Hnil & Hfor & Hsite).
  exists e'. split; [exact Hfresh|]. split; [exact Hl|].
  split; [exact Hk|]. split; [exact Hm|]. split; [exact Hf|].
  split; [exact Hnil|]. split; [exact Hfor|exact Hsite].
Qed.

(** *** The function name kept by [updateCaller] *)

Lemma no_slash_empty : ~ substring_of "/" "".
Proof. intros (pre & post & Heq). by destruct pre. Qed.

Lemma slash_cons_inv c s :
  substring_of "/" (String c s) -> c = "/"%char \/ substring_of "/" s.
Proof.
  intros (pre & post & Heq). destruct pre as [|c' pre].
  - left. by injection Heq.
  - right. rewrite app_String in Heq. injection Heq as _ ->. by exists pre, post.
Qed.

Lemma slash_cons c s : substring_of "/" s -> substring_of "/" (String c s).
Proof. intros (pre & post & ->). by exists (String c pre), post. Qed.

Lemma slash_head s : substring_of "/" (String "/"%char s).
Proof. by exists "", s. Qed.

(** A string has no slash, or splits at its last slash. *)
Lemma split_last_slash s :
  ~ substring_of "/" s \/
  exists a b, s = a +:+ "/" +:+ b /\ ~ substring_of "/" b.
Proof.
  induction s as [|c s [IH|(a & b & -> & Hb)]].
  - left. apply no_slash_empty.
  - destruct (Ascii.ascii_dec c "/"%char) as [->|Hc].
    + right. by exists "", s.
    + left. intros [?|?]%slash_cons_inv; [by apply Hc|by apply IH].
  - right. by exists (String c a), b.
Qed.

Lemma prefix_slash c s :
  String.prefix "/" (String c s) = bool_decide (c = "/"%char).
Proof.
  change (String.prefix "/" (String c s))
    with (if Ascii.ascii_dec "/"%char c then String.prefix "" s else false).
  destruct (Ascii.ascii_dec "/"%char c) as [<-|Hc].
  - by destruct s.
  - rewrite bool_decide_eq_false_2; [done|by intros ->].
Qed.

Lemma last_index_no_slash s : forall i found,
  ~ substring_of "/" s -> last_index_from s "/" i found = found.
Proof.
  induction s as [|c s IH]; intros i found Hs; [done|].
  cbn [last_index_from]. rewrite prefix_slash.
  rewrite bool_decide_eq_false_2.
  - apply IH. intros Hs'. by apply Hs, slash_cons.
  - intros ->. apply Hs, slash_head.
Qed.

Lemma last_index_last_slash a : forall b i found,
  ~ substring_of "/" b ->
  last_index_from (a +:+ "/" +:+ b) "/" i found = (i + Z.of_nat (String.length a))%Z.
Proof.
  induction a as [|c a IH]; intros b i found Hb.
  - change ("" +:+ "/" +:+ b) with (String "/"%char b).
    cbn [last_index_from]. rewrite prefix_slash, bool_decide_eq_true_2 by done.
    rewrite last_index_no_slash by done. simpl. lia.
  - rewrite app_String. cbn [last_index_from]. rewrite IH by done.
    cbn [String.length]. lia.
Qed.

Lemma string_from_after a b :
  string_from (S (String.length a)) (a +:+ "/" +:+ b) = b.
Proof. induction a as [|c a IH]; [done|]. rewrite app_String. simpl. apply IH. Qed.

(** X11.  [updateCaller] with a frame report writes the file and the line of
    the report and, as the caller, the function name from after its last
    slash on: the caller holds no slash, and the name is the caller itself
    or a prefix ending in a slash followed by the caller.  Kind, message,
    cause and fields of the node are not touched. *)
Theorem updateCaller_strips_path h l e name file line :
  errs h !! l = Some e ->
  exists e',
    updateCaller (Frame name file line) l h =
      (Ok tt, mkHeap (<[l := e']> (errs h)) (maps h)) /\
    same_but_site e e' /\
    err_file e' = file /\ err_line e' = line /\
    ~ substring_of "/" (err_caller e') /\
    (name = err_caller e' \/ exists p, name = p +:+ "/" +:+ err_caller e').
Proof.
  intros Hl. eexists. split; [by apply update_Error_run|].
  split; [done|]. split; [done|]. split; [done|]. simpl.
  unfold LastIndex.
  destruct (split_last_slash name) as [Hno|(a & b & -> & Hb)].
  - rewrite last_index_no_slash by done. simpl. split; [done|by left].
  - rewrite last_index_last_slash by done.
    replace (Z.to_nat (0 + Z.of_nat (String.length a) + 1)) with (S (String.length a))
      by lia.
    rewrite string_from_after. split; [done|]. right. by exists a.
Qed.

(** ** Wrap followed by the traversals *)

Lemma Wrap_inv pc c args h l h' :
  Wrap pc c args h = (Ok (Some l), h') ->
  c <> nil_error /\ New pc (args ++ [value_of_error c]) h = (Ok l, h').
Proof.
  unfold Wrap, New. destruct c as [|p|f]; simpl; [done| |];
    (intros Hrun; split; [done|]; unfold bindM in *;
     destruct (newError _ h) as [[w| | |] h0]; try done;
     destruct (updateCaller pc w h0) as [[[]| | |] h1]; try done;
     unfold ret in *; by simplify_eq).
Qed.

Lemma last_of_snoc_none {A} (f : value -> option A) args a :
  f a = None -> last_of f (args ++ [a]) = last_of f args.
Proof.
  intros Ha. induction args as [|b args IH]; simpl; [by rewrite Ha|].
  by rewrite IH.
Qed.

Lemma last_cause_snoc args c :
  c <> nil_error -> last_cause (args ++ [value_of_error c]) = Some (value_of_error c).
Proof.
  intros Hc. induction args as [|b args IH]; simpl.
  - by destruct c.
  - by rewrite IH.
Qed.

Lemma last_of_elem {A} (f : value -> option A) args x :
  last_of f args = Some x -> exists a, a ∈ args /\ f a = Some x.
Proof.
  induction args as [|b args IH]; [done|]. simpl.
  destruct (last_of f args) as [y|].
  - intros [= <-]. destruct (IH eq_refl) as (a & Ha & Hfa).
    exists a. split; [by right|done].
  - intros Hb. exists b. split; [by left|done].
Qed.

(** What [Wrap] builds on a chain: a new head over the structs of the chain
    it was given.  The structs and maps that were in the store are as they
    were. *)
Lemma Wrap_chain pc h c es t args l h' :
  chain h c es t -> args_in_store h args -> maps_in_store h args ->
  Wrap pc c args h = (Ok (Some l), h') ->
  exists e',
    errs h !! l = None /\
    errs h' !! l = Some e' /\
    chain h' (ptr_error (Some l)) (e' :: es) t /\
    err_Kind e' = default "" (last_of kind_of args) /\
    err_Message e' = default "" (last_of message_of args) /\
    err_Fields e' = default None (last_of fields_of args) /\
    err_Cause e' <> nil_error /\
    (forall f, c = foreign_error f -> err_Cause e' = c) /\
    errs h ⊆ errs h' /\ maps h' = maps h.
Proof.
  intros Hc Hin Hmaps Hrun.
  apply Wrap_inv in Hrun as [Hne Hrun].
  set (args' := args ++ [value_of_error c]) in *.
  assert (Hin' : args_in_store h args').
  { intros p Hp. apply elem_of_app in Hp as [Hp|Hp]; [by apply Hin|].
    apply list_elem_of_singleton in Hp. destruct c as [|q|f]; simplify_eq/=.
    apply chain_inv_ptr in Hc as (? & ? & ? & ? & ? & Hq & _). simplify_eq. by eexists. }
  assert (Hne' : args' <> []) by (subst args'; by destruct args).
  destruct (good_or_bad args') as [Hgood|Hbad]; cycle 1.
  { destruct (New_bad pc h args' Hin' (or_intror Hbad)) as (s & hp & Hpanic).
    congruence. }
  destruct (New_good pc h args' Hne' Hin' Hgood)
    as (l0 & h0 & e' & Hrun0 & Hfresh & Hl & Hm & Hkeep & Hcause).
  rewrite Hrun0 in Hrun. simplify_eq.
  destruct (New_node pc args' h l h' Hrun0)
    as (e'' & _ & Hl' & Hk & Hmsg & Hf & _ & _ & _).
  rewrite Hl in Hl'. simplify_eq.
  assert (Hnk : kind_of (value_of_error c) = None) by (by destruct c).
  assert (Hnm : message_of (value_of_error c) = None) by (by destruct c).
  assert (Hnf : fields_of (value_of_error c) = None) by (by destruct c).
  subst args'.
  rewrite (last_of_snoc_none kind_of) in Hk by done.
  rewrite (last_of_snoc_none message_of) in Hmsg by done.
  rewrite (last_of_snoc_none fields_of) in Hf by done.
  assert (Hsub : errs h ⊆ errs h').
  { apply map_subseteq_spec. intros i x Hi. rewrite Hkeep; [done|by eexists]. }
  assert (Hsubm : maps h ⊆ maps h') by (by rewrite Hm).
  assert (Hfs : fields_in_store h' e'').
  { unfold fields_in_store. rewrite Hf.
    destruct (last_of fields_of args) as [[m|]|] eqn:Hlast; [|done..].
    apply last_of_elem in Hlast as (a & Ha & Hfa).
    destruct a; simplify_eq/=. rewrite Hm. by apply Hmaps. }
  unfold cause_after in Hcause. rewrite (last_cause_snoc args c Hne) in Hcause.
  exists e''. split; [done|]. split; [done|].
  destruct c as [|p|f]; [done| |]; simpl in Hcause.
  - apply chain_inv_ptr in Hc as (p0 & e & es' & ? & -> & Hp & Hfe & Hc). simplify_eq.
    destruct Hcause as (q & Hq & Hql & Hnone & Hcopy).
    split.
    { apply chain_node; [done|done|]. rewrite Hq.
      apply chain_node; [congruence| |by eapply chain_mono].
      unfold fields_in_store in *. destruct (err_Fields e); [|done].
      by rewrite Hm. }
    repeat (split; [done|]). split; [by rewrite Hq|]. split; [done|]. done.
  - apply chain_foreign_inv in Hc as [-> ->].
    split.
    { apply chain_node; [done|done|]. rewrite Hcause. constructor. }
    repeat (split; [done|]). split; [by rewrite Hcause|].
    split; [by intros ? [= <-]|]. done.
Qed.

Lemma Stack_chain n h err es t :
  chain h err es t -> length es < n ->
  Stack n h err = Ok (Some ((frame_of_Error <$> es) ++ terminal_frames t)).
Proof.
  intros Hc Hn. unfold Stack. destruct err as [|p|f].
  - by apply chain_nil_inv in Hc as [-> ->].
  - rewrite (stack_size_chain _ _ _ _ _ _ Hc Hn). simpl.
    by rewrite (stack_frames_chain _ _ _ _ _ _ Hc Hn).
  - rewrite (stack_size_chain _ _ _ _ _ _ Hc Hn). simpl.
    by rewrite (stack_frames_chain _ _ _ _ _ _ Hc Hn).
Qed.

(** X12.  [Stack] after [Wrap]: one frame for the new node, carrying the
    kind and message given to [Wrap] (empty when none was given), then the
    frames [Stack] gives for the wrapped error, unchanged. *)
Theorem Stack_after_Wrap n pc h c es t args l h' :
  chain h c es t -> length es < n ->
  args_in_store h args -> maps_in_store h args ->
  Wrap pc c args h = (Ok (Some l), h') ->
  exists frames top,
    Stack n h c = Ok (Some frames) /\
    Stack (S n) h' (ptr_error (Some l)) = Ok (Some (top :: frames)) /\
    frame_Kind top = default "" (last_of kind_of args) /\
    frame_Message top = default "" (last_of message_of args).
Proof.
  intros Hc Hn Hin Hmaps Hrun.
  destruct (Wrap_chain pc h c es t args l h' Hc Hin Hmaps Hrun)
    as (e' & _ & Hl & Hc' & Hk & Hm & _).
  pose proof (Stack_chain n h c es t Hc Hn) as Hs.
  pose proof (Stack_chain (S n) h' _ _ t Hc' ltac:(simpl; lia)) as Hs'.
  eexists _, (frame_of_Error e'). split; [done|]. split; [done|]. done.
Qed.

(** X13.  [Message] after [Wrap]: the message given to [Wrap] when it is
    not empty, and otherwise (no message, or the empty one) the message
    [Message] resolves for the wrapped error. *)
Theorem Message_after_Wrap n pc h c es t args l h' :
  chain h c es t -> length es < n ->
  args_in_store h args -> maps_in_store h args ->
  Wrap pc c args h = (Ok (Some l), h') ->
  exists below,
    Message n h c = Ok below /\
    Message (S n) h' (ptr_error (Some l)) =
      Ok (if nonempty (default "" (last_of message_of args))
          then default "" (last_of message_of args)
          else below).
Proof.
  intros Hc Hn Hin Hmaps Hrun.
  destruct (Wrap_chain pc h c es t args l h' Hc Hin Hmaps Hrun)
    as (e' & _ & Hl & Hc' & _ & Hm & _).
  pose proof (Wrap_inv _ _ _ _ _ _ Hrun) as [Hne _].
  rewrite (Message_chain n h c es t Hc Hn).
  rewrite (Message_chain (S n) h' _ _ t Hc' ltac:(simpl; lia)).
  eexists. split; [done|]. f_equal. rewrite fmap_cons, Hm.
  destruct (nonempty (default "" (last_of message_of args))) eqn:Hnon.
  - apply nonempty_true in Hnon. by rewrite filter_cons_True.
  - apply nonempty_false in Hnon. rewrite Hnon.
    rewrite filter_cons_False by (by intros []). by destruct c.
Qed.


(** X20.  [Fields] after [Wrap] without a map argument: wrapping adds no
    field and hides none.  The result is nil exactly when it was nil for the
    wrapped error, and otherwise a map with the same entries. *)
Theorem Fields_after_Wrap n pc h c es t args l h' :
  chain h c es t -> length es < n ->
  args_in_store h args ->
  last_of fields_of args = None ->
  Wrap pc c args h = (Ok (Some l), h') ->
  exists r0 h0 r1 h1,
    Fields n c h = (Ok r0, h0) /\
    Fields (S n) (ptr_error (Some l)) h' = (Ok r1, h1) /\
    (r0 = None <-> r1 = None) /\
    (forall m0 m1, r0 = Some m0 -> r1 = Some m1 ->
       exists g, maps h0 !! m0 = Some g /\ maps h1 !! m1 = Some g).
Proof.
  intros Hc Hn Hin Hnomap Hrun.
  assert (Hmaps : maps_in_store h args).
  { intros m Hm. exfalso. clear -Hnomap Hm.
    induction args as [|a args IH]; [by apply elem_of_nil in Hm|].
    simpl in Hnomap. destruct (last_of fields_of args) eqn:Hlast; [done|].
    apply elem_of_cons in Hm as [<-|Hm]; [done|by apply IH]. }
  destruct (Wrap_chain pc h c es t args l h' Hc Hin Hmaps Hrun)
    as (e' & _ & Hl & Hc' & _ & _ & Hf & _ & _ & Hsub & Hm).
  rewrite Hnomap in Hf. simpl in Hf.
  destruct (Fields_chain n h c es t Hc Hn)
    as (r0 & h0 & Hrun0 & _ & _ & Hnone0 & Hsome0).
  destruct (Fields_chain (S n) h' _ _ t Hc' ltac:(simpl; lia))
    as (r1 & h1 & Hrun1 & _ & _ & Hnone1 & Hsome1).
  exists r0, h0, r1, h1. split; [done|]. split; [done|]. split.
  - rewrite Hnone0, Hnone1. split.
    + intros Hall. by constructor.
    + intros Hall. by apply Forall_cons in Hall as [_ Hall].
  - intros m0 m1 -> ->. exists (merged_fields h es).
    split; [by apply Hsome0|]. rewrite (Hsome1 m1 eq_refl). f_equal.
    simpl. unfold own_fields at 1. rewrite Hf, (left_id_L ∅ (∪)).
    apply (merged_fields_mono h h' c es t Hc). by rewrite Hm.
Qed.

(** ** Message, Is and Fatal: further facts *)

(** X15.  On a chain [Message] returns the empty string for the nil error
    and for nothing else: for an error that is not nil the result is a
    message that is not empty, the fallback sentence at the least. *)
Theorem Message_empty_only_for_nil n h err es t :
  chain h err es t -> length es < n ->
  exists m, Message n h err = Ok m /\ (m = "" <-> err = nil_error).
Proof.
  intros Hc Hn. rewrite (Message_chain n h err es t Hc Hn).
  eexists. split; [done|].
  destruct err as [|p|f]; [done| |];
    (split; [|done]);
    destruct (filter (fun m => m <> "") (err_Message <$> es)) as [|x rest] eqn:Hfil;
    simpl; try done;
    (intros ->;
     assert (Hx : "" ∈ filter (fun m => m <> "") (err_Message <$> es))
       by (rewrite Hfil; left);
     by apply list_elem_of_filter in Hx as [Hx _]).
Qed.

Lemma existsb_candidates_app e k1 k2 :
  existsb (candidate_matches e) (k1 ++ k2) =
  existsb (candidate_matches e) k1 || existsb (candidate_matches e) k2.
Proof. apply existsb_app. Qed.

Lemma existsb_nodes_app (es : list Error) k1 k2 :
  existsb (fun e => existsb (candidate_matches e) (k1 ++ k2)) es =
  existsb (fun e => existsb (candidate_matches e) k1) es ||
  existsb (fun e => existsb (candidate_matches e) k2) es.
Proof.
  induction es as [|e es IH]; [done|]. simpl.
  rewrite IH, existsb_candidates_app.
  destruct (existsb (candidate_matches e) k1), (existsb (candidate_matches e) k2),
    (existsb (fun e => existsb (candidate_matches e) k1) es); done.
Qed.

(** X16.  [Is] asks for one of the candidates, not for all: with two lists
    of candidates put together the answer is the disjunction of the answers
    for each list, and with no candidate the answer is false. *)
Theorem Is_any_of n h err es t k1 k2 :
  chain h err es t -> length es < n ->
  exists b1 b2,
    Is n h err k1 = Ok b1 /\ Is n h err k2 = Ok b2 /\
    Is n h err (k1 ++ k2) = Ok (b1 || b2) /\
    Is n h err [] = Ok false.
Proof.
  intros Hc Hn. rewrite !(Is_chain n h err es t _ Hc Hn).
  eexists _, _. split; [done|]. split; [done|].
  split; [by rewrite existsb_nodes_app|].
  f_equal. clear Hc Hn. by induction es.
Qed.

(** X17.  [Fatal] on a chain that is not nil panics and adds to the store
    without changing it: no map is made or written, and every struct that
    was in the store is still there with the same content. *)
Theorem Fatal_keeps_store n pc h err es t :
  chain h err es t -> err <> nil_error -> S (length es) < n ->
  exists s h',
    Fatal n pc err h = (Panic (PanicString s), h') /\
    maps h' = maps h /\
    forall l x, errs h !! l = Some x -> errs h' !! l = Some x.
Proof.
  intros Hc Hne Hn.
  destruct (Fatal_chain n pc h err es t Hc Hne Hn)
    as (msg & txt & h' & w & ws & Hrun & _ & _ & _ & _ & _ & _ & Hm & Hsub).
  eexists _, h'. split; [done|]. split; [done|].
  intros l x Hl. by eapply lookup_weaken.
Qed.




(** * The compact text of a wrapped error *)

Lemma nonempty_app_l b s : nonempty b = true -> nonempty (b +:+ s) = true.
Proof. destruct b; [discriminate|reflexivity]. Qed.

Lemma nonempty_app_r b s : nonempty s = true -> nonempty (b +:+ s) = true.
Proof. destruct b; [done|reflexivity]. Qed.

Lemma pad_nonempty b p : nonempty b = true -> pad b p = b +:+ p.
Proof. unfold pad. by intros ->. Qed.

Lemma pad_shift b1 b2 p :
  nonempty b2 = true -> pad (b1 +:+ b2) p = b1 +:+ pad b2 p.
Proof.
  intros H. rewrite (pad_nonempty b2) by done.
  rewrite pad_nonempty by by apply nonempty_app_r. apply app_assoc_s.
Qed.

Lemma formatAccumulator_compact_step n h e buf ic :
  formatAccumulator (S n) h e buf false ic =
    (let? s := deref h e in
     match err_Cause s with
     | nil_error => Ok (compact_node s buf)
     | ptr_error cause => formatAccumulator n h cause (compact_node s buf) false true
     | foreign_error f => Ok (pad (compact_node s buf) ": " +:+ foreign_text f)
     end)%go.
Proof. simpl. destruct (deref h e); reflexivity. Qed.

Lemma own_text_compact e : own_text e = compact_node e "".
Proof.
  unfold own_text, compact_node.
  destruct (nonempty (err_caller e)), (nonempty (err_Message e)),
    (nonempty (err_Kind e)); reflexivity.
Qed.

Lemma write_shift (c : bool) b1 b2 p t :
  nonempty b2 = true ->
  (if c then pad (b1 +:+ b2) p +:+ t else b1 +:+ b2) =
    b1 +:+ (if c then pad b2 p +:+ t else b2) /\
  nonempty (if c then pad b2 p +:+ t else b2) = true.
Proof.
  intros Hb. destruct c; [|done].
  rewrite pad_shift, app_assoc_s by done. split; [done|].
  apply nonempty_app_l. rewrite pad_nonempty by done. by apply nonempty_app_l.
Qed.

(** A node writes after what the buffer holds, and leaves it non-empty. *)
Lemma compact_node_shift s b1 b2 :
  nonempty b2 = true ->
  compact_node s (b1 +:+ b2) = b1 +:+ compact_node s b2 /\
  nonempty (compact_node s b2) = true.
Proof.
  intros Hb. unfold compact_node.
  destruct (write_shift (nonempty (err_caller s)) b1 b2 ": "
              ("[" +:+ err_caller s +:+ "]") Hb) as [-> Hb1].
  destruct (write_shift (nonempty (err_Message s)) b1 _ ": " (err_Message s) Hb1)
    as [-> Hb2].
  exact (write_shift (nonempty (err_Kind s)) b1 _ " "
           ("(" +:+ err_Kind s +:+ ")") Hb2).
Qed.

(** What is already in the buffer is copied to the result: the compact
    rendering looks at the buffer only to see whether it is empty. *)
Lemma compact_shift n h : forall e b1 b2 ic ic',
  nonempty b2 = true ->
  formatAccumulator n h e (b1 +:+ b2) false ic =
    (let? r := formatAccumulator n h e b2 false ic' in Ok (b1 +:+ r))%go.
Proof.
  induction n as [|n IH]; intros e b1 b2 ic ic' Hb; [reflexivity|].
  rewrite !formatAccumulator_compact_step.
  destruct (deref h e) as [s| | |]; simpl; try reflexivity.
  destruct (compact_node_shift s b1 b2 Hb) as [-> Hne].
  destruct (err_Cause s) as [|cause|f].
  - reflexivity.
  - by apply IH.
  - simpl. by rewrite pad_shift, app_assoc_s.
Qed.

(** A node that has a caller or a message starts with the separator [": "]
    when the buffer is not empty. *)
Lemma compact_node_after s b :
  nonempty b = true ->
  err_caller s <> "" \/ err_Message s <> "" ->
  compact_node s b = (b +:+ ": ") +:+ compact_node s "" /\
  nonempty (compact_node s "") = true.
Proof.
  intros Hb Hcm. unfold compact_node.
  destruct (nonempty (err_caller s)) eqn:Hc.
  - rewrite (pad_nonempty b) by done.
    change (pad "" ": " +:+ "[" +:+ err_caller s +:+ "]")
      with ("[" +:+ err_caller s +:+ "]").
    assert (Hb1 : nonempty ("[" +:+ err_caller s +:+ "]") = true) by done.
    destruct (write_shift (nonempty (err_Message s)) (b +:+ ": ") _ ": "
                (err_Message s) Hb1) as [-> Hb2].
    exact (write_shift (nonempty (err_Kind s)) (b +:+ ": ") _ " "
             ("(" +:+ err_Kind s +:+ ")") Hb2).
  - destruct Hcm as [Hcm|Hm]; [by apply nonempty_true in Hcm; congruence|].
    apply nonempty_true in Hm. rewrite Hm.
    rewrite (pad_nonempty b) by done.
    change (pad "" ": " +:+ err_Message s) with (err_Message s).
    exact (write_shift (nonempty (err_Kind s)) (b +:+ ": ") _ " "
             ("(" +:+ err_Kind s +:+ ")") Hm).
Qed.

(** X21.  The compact text of a node that wraps something: when the node
    writes anything of its own, [Error()] gives that text, then [": "], then
    the text of a foreign cause, or the [Error()] text of a cause of the
    package that has a caller or a message. *)
Theorem Error_of_wrapped n h l e :
  errs h !! l = Some e -> own_text e <> "" ->
  (forall f, err_Cause e = foreign_error f ->
     Error_method (S n) h (Some l) = Ok (own_text e +:+ ": " +:+ foreign_text f)) /\
  (forall c ec r,
     err_Cause e = ptr_error (Some c) -> errs h !! c = Some ec ->
     err_caller ec <> "" \/ err_Message ec <> "" ->
     Error_method n h (Some c) = Ok r ->
     Error_method (S n) h (Some l) = Ok (own_text e +:+ ": " +:+ r)).
Proof.
  intros Hl Hown. apply nonempty_true in Hown. rewrite own_text_compact in *.
  unfold Error_method, format. rewrite formatAccumulator_compact_step.
  simpl. rewrite Hl. simpl. split.
  - intros f ->. by rewrite pad_nonempty, app_assoc_s.
  - intros c ec r -> Hc Hcm Hr.
    destruct n as [|n]; [discriminate Hr|].
    rewrite formatAccumulator_compact_step in Hr |- *.
    simpl in Hr |- *. rewrite Hc in Hr |- *. simpl in Hr |- *.
    destruct (compact_node_after ec _ Hown Hcm) as [-> Hne].
    destruct (err_Cause ec) as [|cause|f].
    + injection Hr as <-. by rewrite app_assoc_s.
    + rewrite (compact_shift n h cause _ _ true true Hne), Hr. simpl.
      by rewrite app_assoc_s.
    + injection Hr as <-. by rewrite pad_shift, !app_assoc_s.
Qed.

End Package.

(** * The theorems at the sample store *)

Lemma sample_chain :
  chain sample_heap (ptr_error (Some 0)) [sample_head; sample_root] (Some sample_eof).
Proof.
  apply chain_node; [reflexivity|eexists; reflexivity|]. simpl.
  apply chain_node; [reflexivity|eexists; reflexivity|]. simpl.
  apply chain_foreign.
Qed.

Lemma Fields_head_wins_witness :
  chain sample_heap (ptr_error (Some 0)) [sample_head; sample_root] (Some sample_eof) /\
  length [sample_head; sample_root] < 3 /\
  exists m h' g,
    Fields 3 (ptr_error (Some 0)) sample_heap = (Ok (Some m), h') /\
    maps h' !! m = Some g /\
    g !! "foo" = Some (VString "bar") /\
    g !! "baz" = Some (VInt 1).
Proof.
  split; [exact sample_chain|]. split; [simpl; lia|].
  destruct (Fields_head_wins 3 sample_heap _ _ _ sample_chain ltac:(simpl; lia))
    as (r & h' & Hrun & _ & Hnone & Hsome).
  destruct r as [m|].
  - destruct (Hsome m eq_refl) as (g & Hg & Hiff).
    exists m, h', g. split; [exact Hrun|]. split; [exact Hg|]. split.
    + apply Hiff. exists [], sample_head, [sample_root].
      split; [reflexivity|]. split; [constructor|reflexivity].
    + apply Hiff. exists [sample_head], sample_root, [].
      split; [reflexivity|]. split; [|reflexivity].
      constructor; [reflexivity|constructor].
  - exfalso. assert (H := proj1 Hnone eq_refl).
    apply Forall_cons in H as [H _]. discriminate H.
Defined.

Lemma Message_first_nonempty_witness :
  chain sample_heap (ptr_error (Some 0)) [sample_head; sample_root] (Some sample_eof) /\
  length [sample_head; sample_root] < 3 /\
  Message 3 sample_heap (ptr_error (Some 0)) = Ok "fetch failed".
Proof.
  split; [exact sample_chain|]. split; [simpl; lia|].
  destruct (Message_first_nonempty 3 sample_heap _ _ _ sample_chain ltac:(simpl; lia))
    as [_ H].
  destruct (H ltac:(discriminate)) as [H1 _].
  apply (H1 [] sample_head [sample_root] eq_refl); [constructor|discriminate].
Defined.

Lemma Stack_frames_witness :
  chain sample_heap (ptr_error (Some 0)) [sample_head; sample_root] (Some sample_eof) /\
  length [sample_head; sample_root] < 3 /\
  exists frames,
    Stack 3 sample_heap (ptr_error (Some 0)) = Ok (Some frames) /\
    length frames = 3 /\
    frame_Message <$> frames = ["fetch failed"; ""; "EOF"].
Proof.
  split; [exact sample_chain|]. split; [simpl; lia|].
  destruct (Stack_frames 3 sample_heap _ _ _ sample_chain ltac:(simpl; lia))
    as (frames & Hrun & -> & _ & _).
  eexists. split; [exact Hrun|]. split; reflexivity.
Defined.

Lemma empty_kind_matches_no_nonempty_tag_witness :
  errs sample_heap !! 0 = Some sample_head /\
  err_Kind sample_head = "" /\
  Is 3 sample_heap (ptr_error (Some 0)) [VKind "lost"; VString ""] =
    Is 2 sample_heap (ptr_error (Some 1)) [VKind "lost"; VString ""].
Proof.
  split; [reflexivity|]. split; [reflexivity|].
  apply (empty_kind_matches_no_nonempty_tag 2 sample_heap 0 sample_head
           [VKind "lost"; VString ""] eq_refl eq_refl).
  constructor; [exists "lost"; left; split; [reflexivity|discriminate]|].
  constructor; [exists ""; right; reflexivity|constructor].
Defined.

Lemma Wrap_as_New_witness :
  args_in_store sample_heap
    ([VString "load failed"; VKind "accom"] ++ [value_of_error (ptr_error (Some 0))]) /\
  exists l h1 h2 e1 e2,
    Wrap sample_fmt sample_site (ptr_error (Some 0))
         [VString "load failed"; VKind "accom"] sample_heap = (Ok (Some l), h1) /\
    New sample_fmt NoFrames
        [VString "load failed"; VKind "accom"; VError (Some 0)] sample_heap = (Ok l, h2) /\
    errs h1 !! l = Some e1 /\ errs h2 !! l = Some e2 /\ same_but_site e1 e2.
Proof.
  assert (Hin : args_in_store sample_heap
            ([VString "load failed"; VKind "accom"] ++
             [value_of_error (ptr_error (Some 0))]))
    by (apply args_in_storeb_sound; reflexivity).
  split; [exact Hin|].
  destruct (Wrap_as_New sample_fmt sample_site NoFrames (ptr_error (Some 0))
              [VString "load failed"; VKind "accom"] sample_heap Hin) as [_ H].
  destruct (H ltac:(discriminate))
    as [(v & hp & Hw & _)|(l & h1 & h2 & e1 & e2 & Hw & Hn & H1 & H2 & Hs & _)].
  - vm_compute in Hw. discriminate Hw.
  - exists l, h1, h2, e1, e2. repeat split; assumption || apply Hs.
Defined.

Lemma programmer_errors_panic_witness :
  3 <= 3 /\
  (exists s h', New sample_fmt sample_site [] sample_heap = (Panic (PanicString s), h')) /\
  (exists s h', New sample_fmt sample_site [VInt 123] sample_heap =
                  (Panic (PanicString s), h')) /\
  (exists s h', New sample_fmt sample_site [VString "oops"; VError None] sample_heap =
                  (Panic (PanicString s), h')) /\
  (exists l h', New sample_fmt sample_site [VString "oops"; VError (Some 0)] sample_heap =
                  (Ok l, h')) /\
  (exists s h', WithFields sample_fmt 3 sample_site sample_site (Some 0)
                  [VString "hello"] sample_heap = (Panic (PanicString s), h')) /\
  (exists s h', WithFields sample_fmt 3 sample_site sample_site (Some 0)
                  [VInt 1234; VInt 1234] sample_heap = (Panic (PanicString s), h')) /\
  (exists h', WithFields sample_fmt 3 sample_site sample_site (Some 0)
                [VString "foo"; VInt 1] sample_heap = (Ok (Some 0), h')).
Proof.
  split; [lia|].
  destruct (programmer_errors_panic sample_fmt 3 sample_site sample_site sample_site
              sample_heap ltac:(lia)) as (HNew & _ & HWith).
  assert (Hstore : forall args, args_in_storeb sample_heap args = true ->
                                args_in_store sample_heap args)
    by apply args_in_storeb_sound.
  split; [apply (HNew [] (Hstore [] eq_refl)); left; reflexivity|].
  split.
  { apply (HNew [VInt 123] (Hstore [VInt 123] eq_refl)). right. left. left. exact I. }
  split.
  { apply (HNew [VString "oops"; VError None]
             (Hstore [VString "oops"; VError None] eq_refl)).
    right. right. left. right. reflexivity. }
  split.
  { apply (HNew [VString "oops"; VError (Some 0)]
             (Hstore [VString "oops"; VError (Some 0)] eq_refl)).
    intros [Hnil|Hbad]; [discriminate Hnil|].
    apply Exists_cons in Hbad as [[[]|Hb]|Hbad]; [discriminate Hb|].
    apply Exists_cons in Hbad as [[[]|Hb]|Hbad]; [discriminate Hb|].
    by apply Exists_nil in Hbad. }
  destruct (HWith 0 sample_head [VString "hello"] eq_refl (ex_intro _ _ eq_refl))
    as [Hodd _].
  destruct (HWith 0 sample_head [VInt 1234; VInt 1234] eq_refl (ex_intro _ _ eq_refl))
    as [Hkey _].
  destruct (HWith 0 sample_head [VString "foo"; VInt 1] eq_refl (ex_intro _ _ eq_refl))
    as [_ Hgood].
  split; [apply Hodd; left; exists 0; reflexivity|].
  split; [apply Hkey; right; exists 0, (VInt 1234); split; [reflexivity|intros []]|].
  apply Hgood. intros [[x Hx]|(i & k & Hi & Hk)].
  - simpl in Hx. lia.
  - destruct i as [|[|i]]; simpl in Hi.
    + injection Hi as <-. apply Hk. exact I.
    + discriminate Hi.
    + discriminate Hi.
Defined.

Lemma Fatal_payload_witness :
  chain sample_heap (ptr_error (Some 0)) [sample_head; sample_root] (Some sample_eof) /\
  S (length [sample_head; sample_root]) < 4 /\
  exists payload h',
    Fatal sample_fmt 4 NoFunc (ptr_error (Some 0)) sample_heap =
      (Panic (PanicString payload), h') /\
    substring_of "fetch failed" payload /\
    substring_of "EOF" payload.
Proof.
  split; [exact sample_chain|]. split; [simpl; lia|].
  destruct (Fatal_payload sample_fmt 4 NoFunc sample_heap _ _ _ sample_chain
              ltac:(simpl; lia)) as [_ H].
  destruct (H ltac:(discriminate))
    as (msg & txt & payload & h' & w & ws & Hrun & _ & _ & _ & _ & _ & Hall & Hfor).
  exists payload, h'. split; [exact Hrun|]. split.
  - apply (Hall sample_head). left.
  - apply (Hfor sample_eof eq_refl).
Defined.

Lemma cause_is_shallow_duplicate_witness :
  args_in_store sample_heap [VString "load failed"; VError (Some 0)] /\
  last_cause [VString "load failed"; VError (Some 0)] = Some (VError (Some 0)) /\
  errs sample_heap !! 0 = Some sample_head /\
  New sample_fmt sample_site [VString "load failed"; VError (Some 0)] sample_heap =
    (Ok 2, (New sample_fmt sample_site
                [VString "load failed"; VError (Some 0)] sample_heap).2) /\
  exists e' q,
    errs (New sample_fmt sample_site
              [VString "load failed"; VError (Some 0)] sample_heap).2 !! 2 = Some e' /\
    err_Cause e' = ptr_error (Some q) /\ q <> 0 /\
    errs (New sample_fmt sample_site
              [VString "load failed"; VError (Some 0)] sample_heap).2 !! q =
      Some sample_head.
Proof.
  assert (Hin : args_in_store sample_heap [VString "load failed"; VError (Some 0)])
    by (apply args_in_storeb_sound; reflexivity).
  assert (Hrun : New sample_fmt sample_site
                     [VString "load failed"; VError (Some 0)] sample_heap =
                 (Ok 2, (New sample_fmt sample_site
                             [VString "load failed"; VError (Some 0)] sample_heap).2))
    by (vm_compute; reflexivity).
  split; [exact Hin|]. split; [reflexivity|]. split; [reflexivity|].
  split; [exact Hrun|].
  destruct (cause_is_shallow_duplicate sample_fmt sample_site
              [VString "load failed"; VError (Some 0)] sample_heap 0 sample_head 2 _
              Hin eq_refl eq_refl (or_introl Hrun))
    as (e' & q & Hl & Hc & Hqp & _ & _ & Hq & _).
  exists e', q. repeat split; assumption.
Defined.

Lemma WithFields_not_atomic_witness :
  3 <= 3 /\
  errs sample_heap !! 0 = Some sample_head /\
  fields_in_store sample_heap sample_head /\
  Nat.Even (length (flatten_pairs [("a", VInt 1)] ++ VInt 2 :: [VInt 3])) /\
  length [("a", VInt 1)] = 1 /\ 0 < 1 /\
  ~ is_string_value (VInt 2) /\
  exists s h' e' m g,
    WithFields sample_fmt 3 sample_site sample_site (Some 0)
      [VString "a"; VInt 1; VInt 2; VInt 3] sample_heap = (Panic (PanicString s), h') /\
    errs h' !! 0 = Some e' /\ err_Fields e' = Some m /\
    maps h' !! m = Some g /\
    g !! "a" = Some (VInt 1) /\ g !! "foo" = Some (VString "bar").
Proof.
  assert (Hf : fields_in_store sample_heap sample_head) by (eexists; reflexivity).
  assert (Heven : Nat.Even (length (flatten_pairs [("a", VInt 1)] ++ VInt 2 :: [VInt 3])))
    by (exists 2; reflexivity).
  assert (Hk : ~ is_string_value (VInt 2)) by (intros []).
  split; [lia|]. split; [reflexivity|]. split; [exact Hf|]. split; [exact Heven|].
  split; [reflexivity|]. split; [lia|]. split; [exact Hk|].
  destruct (WithFields_not_atomic sample_fmt 3 sample_site sample_site sample_heap 0
              sample_head [("a", VInt 1)] (VInt 2) [VInt 3] 1
              ltac:(lia) eq_refl Hf Heven eq_refl ltac:(lia) Hk)
    as (_ & s & h' & e' & m & Hrun & Hl & Hm & _ & Hg).
  eexists s, h', e', m, _. split; [exact Hrun|]. split; [exact Hl|].
  split; [exact Hm|]. split; [exact Hg|]. split; reflexivity.
Defined.

(** ** Further properties at the sample store *)

Lemma Fields_keeps_store_witness :
  chain sample_heap (ptr_error (Some 0)) [sample_head; sample_root] (Some sample_eof) /\
  length [sample_head; sample_root] < 3 /\
  exists r h',
    Fields 3 (ptr_error (Some 0)) sample_heap = (Ok r, h') /\
    errs h' = errs sample_heap /\
    maps h' !! 1 = maps sample_heap !! 1.
Proof.
  split; [exact sample_chain|]. split; [simpl; lia|].
  destruct (Fields_keeps_store 3 sample_heap _ _ _ sample_chain ltac:(simpl; lia))
    as (r & h' & Hrun & Herrs & Hmaps).
  exists r, h'. split; [exact Hrun|]. split; [exact Herrs|].
  by rewrite (Hmaps 1 _ eq_refl).
Defined.

Lemma Fields_own_or_new_witness :
  chain sample_heap (ptr_error (Some 0)) [sample_head; sample_root] (Some sample_eof) /\
  S (length [sample_root]) < 3 /\
  exists m h',
    Fields 3 (ptr_error (Some 0)) sample_heap = (Ok (Some m), h') /\
    maps sample_heap !! m = None.
Proof.
  split; [exact sample_chain|]. split; [simpl; lia|].
  destruct (Fields_own_or_new 3 sample_heap 0 sample_head [sample_root] _ sample_chain
              ltac:(simpl; lia)) as [_ Hnew].
  apply Hnew. intros Hall. apply Forall_cons in Hall as [Hroot _]. discriminate Hroot.
Defined.

Lemma Fields_twice_witness :
  chain sample_heap (ptr_error (Some 0)) [sample_head; sample_root] (Some sample_eof) /\
  length [sample_head; sample_root] < 3 /\
  exists r1 h1 r2 h2,
    Fields 3 (ptr_error (Some 0)) sample_heap = (Ok r1, h1) /\
    Fields 3 (ptr_error (Some 0)) h1 = (Ok r2, h2) /\
    (r1 = None <-> r2 = None) /\
    (forall m1 m2, r1 = Some m1 -> r2 = Some m2 ->
       exists g, maps h1 !! m1 = Some g /\ maps h2 !! m1 = Some g /\
                 maps h2 !! m2 = Some g).
Proof.
  split; [exact sample_chain|]. split; [simpl; lia|].
  exact (Fields_twice 3 sample_heap _ _ _ sample_chain ltac:(simpl; lia)).
Defined.

Lemma FieldsSlice_sorted_witness :
  chain sample_heap (ptr_error (Some 0)) [sample_head; sample_root] (Some sample_eof) /\
  length [sample_head; sample_root] < 3 /\
  exists r h' pairs,
    FieldsSlice 3 (ptr_error (Some 0)) sample_heap = (Ok r, h') /\
    r = match pairs with
        | [] => None
        | _ => Some (flatten_pairs pairs)
        end /\
    Sorted String.le pairs.*1 /\
    NoDup pairs.*1 /\
    (forall k v, (k, v) ∈ pairs <->
                 merged_fields sample_heap [sample_head; sample_root] !! k = Some v).
Proof.
  split; [exact sample_chain|]. split; [simpl; lia|].
  exact (FieldsSlice_sorted 3 sample_heap _ _ _ sample_chain ltac:(simpl; lia)).
Defined.

Lemma WithField_attaches_witness :
  errs sample_heap !! 0 = Some sample_head /\
  fields_in_store sample_heap sample_head /\
  exists h' g,
    WithField (Some 0) "code" (VInt 2) sample_heap = (Ok (Some 0), h') /\
    maps h' !! 0 = Some g /\
    g !! "code" = Some (VInt 2) /\ g !! "foo" = Some (VString "bar") /\
    errs h' !! 1 = Some sample_root /\
    maps h' !! 1 = maps sample_heap !! 1.
Proof.
  assert (Hf : fields_in_store sample_heap sample_head) by (eexists; reflexivity).
  split; [reflexivity|]. split; [exact Hf|].
  destruct (WithField_attaches sample_heap 0 sample_head "code" (VInt 2) eq_refl Hf)
    as (h' & m & Hrun & _ & [Hm|[Hm _]] & Hg & Herrs & Hmaps); [|discriminate Hm].
  injection Hm as <-.
  exists h', (<["code" := VInt 2]> (own_fields sample_heap sample_head)).
  split; [exact Hrun|]. split; [exact Hg|]. split; [reflexivity|].
  split; [reflexivity|]. split.
  - rewrite (Herrs 1) by lia. reflexivity.
  - apply Hmaps. lia.
Defined.

Lemma WithFields_as_WithField_witness :
  errs sample_heap !! 0 = Some sample_head /\
  fields_in_store sample_heap sample_head /\
  [("code", VInt 2); ("foo", VString "new")] <> [] /\
  WithFields sample_fmt 3 sample_site sample_site (Some 0)
    [VString "code"; VInt 2; VString "foo"; VString "new"] sample_heap =
  (let! e1 := WithField (Some 0) "code" (VInt 2) in
   WithField e1 "foo" (VString "new"))%go sample_heap.
Proof.
  assert (Hf : fields_in_store sample_heap sample_head) by (eexists; reflexivity).
  split; [reflexivity|]. split; [exact Hf|]. split; [discriminate|].
  etransitivity.
  - exact (WithFields_as_WithField sample_fmt 3 sample_site sample_site sample_heap 0
             sample_head [("code", VInt 2); ("foo", VString "new")] eq_refl Hf
             ltac:(discriminate)).
  - vm_compute. reflexivity.
Defined.

Lemma WithFields_attaches_witness :
  errs sample_heap !! 0 = Some sample_head /\
  fields_in_store sample_heap sample_head /\
  exists h' g,
    WithFields sample_fmt 3 sample_site sample_site (Some 0)
      [VString "foo"; VInt 1; VString "foo"; VInt 2] sample_heap = (Ok (Some 0), h') /\
    maps h' !! 0 = Some g /\
    g !! "foo" = Some (VInt 2).
Proof.
  assert (Hf : fields_in_store sample_heap sample_head) by (eexists; reflexivity).
  split; [reflexivity|]. split; [exact Hf|].
  destruct (WithFields_attaches sample_fmt 3 sample_site sample_site sample_heap 0
              sample_head [("foo", VInt 1); ("foo", VInt 2)] eq_refl Hf)
    as (h' & m & g & Hrun & _ & [Hm|[Hm _]] & Hg & Hiff); [|discriminate Hm].
  injection Hm as <-.
  exists h', g. split; [exact Hrun|]. split; [exact Hg|].
  apply Hiff. left. exists [("foo", VInt 1)], []. split; [reflexivity|].
  intros Hin. by apply elem_of_nil in Hin.
Defined.

Lemma WithFields_odd_untouched_witness :
  3 <= 3 /\ Nat.Odd (length [VString "foo"; VInt 1; VString "baz"]) /\
  exists s h',
    WithFields sample_fmt 3 sample_site sample_site (Some 0)
      [VString "foo"; VInt 1; VString "baz"] sample_heap = (Panic (PanicString s), h') /\
    maps h' = maps sample_heap /\
    errs h' !! 0 = Some sample_head.
Proof.
  assert (Hodd : Nat.Odd (length [VString "foo"; VInt 1; VString "baz"]))
    by (exists 1; reflexivity).
  split; [lia|]. split; [exact Hodd|].
  destruct (WithFields_odd_untouched sample_fmt 3 sample_site sample_site sample_heap
              (Some 0) [VString "foo"; VInt 1; VString "baz"] ltac:(lia) Hodd)
    as (s & h' & Hrun & Hmaps & Herrs).
  exists s, h'. split; [exact Hrun|]. split; [exact Hmaps|].
  apply Herrs. reflexivity.
Defined.

Lemma WithField_then_Fields_witness :
  chain sample_heap (ptr_error (Some 0)) [sample_head; sample_root] (Some sample_eof) /\
  S (length [sample_root]) < 3 /\
  exists h1 r h2 g,
    WithField (Some 0) "baz" (VInt 9) sample_heap = (Ok (Some 0), h1) /\
    Fields 3 (ptr_error (Some 0)) h1 = (Ok (Some r), h2) /\
    maps h2 !! r = Some g /\
    g !! "baz" = Some (VInt 9) /\
    g !! "foo" = Some (VString "bar").
Proof.
  split; [exact sample_chain|]. split; [simpl; lia|].
  destruct (WithField_then_Fields 3 sample_heap 0 sample_head [sample_root] _
              "baz" (VInt 9) sample_chain ltac:(simpl; lia))
    as (h1 & r & h2 & g & Hw & Hf & Hg & Hk & Hother).
  exists h1, r, h2, g. split; [exact Hw|]. split; [exact Hf|]. split; [exact Hg|].
  split; [exact Hk|]. rewrite (Hother "foo") by discriminate. reflexivity.
Defined.

Lemma New_dispatch_witness :
  New sample_fmt sample_site
      [VKind "first"; VString "load failed"; VKind "accom"; VForeign sample_eof]
      sample_heap =
    (Ok 2, (New sample_fmt sample_site
                [VKind "first"; VString "load failed"; VKind "accom";
                 VForeign sample_eof] sample_heap).2) /\
  exists e',
    errs (New sample_fmt sample_site
              [VKind "first"; VString "load failed"; VKind "accom";
               VForeign sample_eof] sample_heap).2 !! 2 = Some e' /\
    err_Kind e' = "accom" /\ err_Message e' = "load failed" /\
    err_Fields e' = None /\ err_Cause e' = foreign_error sample_eof /\
    (err_caller e', err_file e', err_line e') = ("example.main", "main.go", 33%Z).
Proof.
  assert (Hrun : New sample_fmt sample_site
                   [VKind "first"; VString "load failed"; VKind "accom";
                    VForeign sample_eof] sample_heap =
                 (Ok 2, (New sample_fmt sample_site
                             [VKind "first"; VString "load failed"; VKind "accom";
                              VForeign sample_eof] sample_heap).2))
    by (vm_compute; reflexivity).
  split; [exact Hrun|].
  destruct (New_dispatch sample_fmt sample_site _ sample_heap 2 _ Hrun)
    as (e' & _ & Hl & Hk & Hm & Hf & _ & Hc & Hs).
  exists e'. split; [exact Hl|]. split; [exact Hk|]. split; [exact Hm|].
  split; [exact Hf|]. split; [exact (Hc sample_eof eq_refl)|exact Hs].
Defined.

Lemma updateCaller_strips_path_witness :
  errs sample_heap !! 0 = Some sample_head /\
  exists e',
    updateCaller sample_site 0 sample_heap =
      (Ok tt, mkHeap (<[0 := e']> (errs sample_heap)) (maps sample_heap)) /\
    same_but_site sample_head e' /\
    err_file e' = "main.go" /\ err_line e' = 33%Z /\
    ~ substring_of "/" (err_caller e') /\
    ("github.com/icelolly/go-errors/example.main" = err_caller e' \/
     exists p, "github.com/icelolly/go-errors/example.main" =
               p +:+ "/" +:+ err_caller e').
Proof.
  split; [reflexivity|].
  exact (updateCaller_strips_path sample_heap 0 sample_head
           "github.com/icelolly/go-errors/example.main" "main.go" 33 eq_refl).
Defined.

Lemma Stack_after_Wrap_witness :
  chain sample_heap (ptr_error (Some 0)) [sample_head; sample_root] (Some sample_eof) /\
  length [sample_head; sample_root] < 3 /\
  args_in_store sample_heap [VKind "accom"; VString "load failed"] /\
  maps_in_store sample_heap [VKind "accom"; VString "load failed"] /\
  Wrap sample_fmt sample_site (ptr_error (Some 0))
       [VKind "accom"; VString "load failed"] sample_heap =
    (Ok (Some 2), (Wrap sample_fmt sample_site (ptr_error (Some 0))
                        [VKind "accom"; VString "load failed"] sample_heap).2) /\
  exists frames top,
    Stack 3 sample_heap (ptr_error (Some 0)) = Ok (Some frames) /\
    Stack 4 (Wrap sample_fmt sample_site (ptr_error (Some 0))
                  [VKind "accom"; VString "load failed"] sample_heap).2
          (ptr_error (Some 2)) = Ok (Some (top :: frames)) /\
    frame_Kind top = "accom" /\ frame_Message top = "load failed".
Proof.
  assert (Hin : args_in_store sample_heap [VKind "accom"; VString "load failed"])
    by (apply args_in_storeb_sound; reflexivity).
  assert (Hmaps : maps_in_store sample_heap [VKind "accom"; VString "load failed"]).
  { intros m Hm. apply elem_of_cons in Hm as [Hm|Hm]; [discriminate Hm|].
    apply elem_of_cons in Hm as [Hm|Hm]; [discriminate Hm|].
    by apply elem_of_nil in Hm. }
  assert (Hrun : Wrap sample_fmt sample_site (ptr_error (Some 0))
                      [VKind "accom"; VString "load failed"] sample_heap =
                 (Ok (Some 2), (Wrap sample_fmt sample_site (ptr_error (Some 0))
                                     [VKind "accom"; VString "load failed"]
                                     sample_heap).2))
    by (vm_compute; reflexivity).
  split; [exact sample_chain|]. split; [simpl; lia|]. split; [exact Hin|].
  split; [exact Hmaps|]. split; [exact Hrun|].
  exact (Stack_after_Wrap sample_fmt 3 sample_site sample_heap _ _ _ _ 2 _
           sample_chain ltac:(simpl; lia) Hin Hmaps Hrun).
Defined.

Lemma Message_after_Wrap_witness :
  chain sample_heap (ptr_error (Some 0)) [sample_head; sample_root] (Some sample_eof) /\
  length [sample_head; sample_root] < 3 /\
  args_in_store sample_heap [VKind "accom"] /\
  maps_in_store sample_heap [VKind "accom"] /\
  Wrap sample_fmt sample_site (ptr_error (Some 0)) [VKind "accom"] sample_heap =
    (Ok (Some 2), (Wrap sample_fmt sample_site (ptr_error (Some 0))
                        [VKind "accom"] sample_heap).2) /\
  exists below,
    Message 3 sample_heap (ptr_error (Some 0)) = Ok below /\
    Message 4 (Wrap sample_fmt sample_site (ptr_error (Some 0))
                    [VKind "accom"] sample_heap).2 (ptr_error (Some 2)) = Ok below.
Proof.
  assert (Hin : args_in_store sample_heap [VKind "accom"])
    by (apply args_in_storeb_sound; reflexivity).
  assert (Hmaps : maps_in_store sample_heap [VKind "accom"]).
  { intros m Hm. apply elem_of_cons in Hm as [Hm|Hm]; [discriminate Hm|].
    by apply elem_of_nil in Hm. }
  assert (Hrun : Wrap sample_fmt sample_site (ptr_error (Some 0))
                      [VKind "accom"] sample_heap =
                 (Ok (Some 2), (Wrap sample_fmt sample_site (ptr_error (Some 0))
                                     [VKind "accom"] sample_heap).2))
    by (vm_compute; reflexivity).
  split; [exact sample_chain|]. split; [simpl; lia|]. split; [exact Hin|].
  split; [exact Hmaps|]. split; [exact Hrun|].
  exact (Message_after_Wrap sample_fmt 3 sample_site sample_heap _ _ _ _ 2 _
           sample_chain ltac:(simpl; lia) Hin Hmaps Hrun).
Defined.


Lemma Fields_after_Wrap_witness :
  chain sample_heap (ptr_error (Some 0)) [sample_head; sample_root] (Some sample_eof) /\
  length [sample_head; sample_root] < 3 /\
  args_in_store sample_heap [VKind "accom"] /\
  last_of fields_of [VKind "accom"] = None /\
  Wrap sample_fmt sample_site (ptr_error (Some 0)) [VKind "accom"] sample_heap =
    (Ok (Some 2), (Wrap sample_fmt sample_site (ptr_error (Some 0))
                        [VKind "accom"] sample_heap).2) /\
  exists r0 h0 r1 h1,
    Fields 3 (ptr_error (Some 0)) sample_heap = (Ok r0, h0) /\
    Fields 4 (ptr_error (Some 2))
           (Wrap sample_fmt sample_site (ptr_error (Some 0))
                 [VKind "accom"] sample_heap).2 = (Ok r1, h1) /\
    (r0 = None <-> r1 = None) /\
    (forall m0 m1, r0 = Some m0 -> r1 = Some m1 ->
       exists g, maps h0 !! m0 = Some g /\ maps h1 !! m1 = Some g).
Proof.
  assert (Hin : args_in_store sample_heap [VKind "accom"])
    by (apply args_in_storeb_sound; reflexivity).
  assert (Hrun : Wrap sample_fmt sample_site (ptr_error (Some 0))
                      [VKind "accom"] sample_heap =
                 (Ok (Some 2), (Wrap sample_fmt sample_site (ptr_error (Some 0))
                                     [VKind "accom"] sample_heap).2))
    by (vm_compute; reflexivity).
  split; [exact sample_chain|]. split; [simpl; lia|]. split; [exact Hin|].
  split; [reflexivity|]. split; [exact Hrun|].
  exact (Fields_after_Wrap sample_fmt 3 sample_site sample_heap _ _ _ _ 2 _
           sample_chain ltac:(simpl; lia) Hin eq_refl Hrun).
Defined.

Lemma Message_empty_only_for_nil_witness :
  chain sample_heap (ptr_error (Some 1)) [sample_root] (Some sample_eof) /\
  length [sample_root] < 2 /\
  exists m, Message 2 sample_heap (ptr_error (Some 1)) = Ok m /\ m <> "".
Proof.
  assert (Hc : chain sample_heap (ptr_error (Some 1)) [sample_root] (Some sample_eof)).
  { apply chain_node; [reflexivity|eexists; reflexivity|]. apply chain_foreign. }
  split; [exact Hc|]. split; [simpl; lia|].
  destruct (Message_empty_only_for_nil 2 sample_heap _ _ _ Hc ltac:(simpl; lia))
    as (m & Hrun & Hiff).
  exists m. split; [exact Hrun|]. intros Hm. apply Hiff in Hm. discriminate Hm.
Defined.

Lemma Is_any_of_witness :
  chain sample_heap (ptr_error (Some 0)) [sample_head; sample_root] (Some sample_eof) /\
  length [sample_head; sample_root] < 3 /\
  exists b1 b2,
    Is 3 sample_heap (ptr_error (Some 0)) [VKind "lost"] = Ok b1 /\
    Is 3 sample_heap (ptr_error (Some 0)) [VForeign sample_eof] = Ok b2 /\
    Is 3 sample_heap (ptr_error (Some 0)) ([VKind "lost"] ++ [VForeign sample_eof]) =
      Ok (b1 || b2) /\
    Is 3 sample_heap (ptr_error (Some 0)) [] = Ok false.
Proof.
  split; [exact sample_chain|]. split; [simpl; lia|].
  exact (Is_any_of 3 sample_heap _ _ _ [VKind "lost"] [VForeign sample_eof]
           sample_chain ltac:(simpl; lia)).
Defined.

Lemma Fatal_keeps_store_witness :
  chain sample_heap (ptr_error (Some 0)) [sample_head; sample_root] (Some sample_eof) /\
  ptr_error (Some 0) <> nil_error /\
  S (length [sample_head; sample_root]) < 4 /\
  exists s h',
    Fatal sample_fmt 4 sample_site (ptr_error (Some 0)) sample_heap =
      (Panic (PanicString s), h') /\
    maps h' = maps sample_heap /\
    errs h' !! 0 = Some sample_head /\ errs h' !! 1 = Some sample_root.
Proof.
  split; [exact sample_chain|]. split; [discriminate|]. split; [simpl; lia|].
  destruct (Fatal_keeps_store sample_fmt 4 sample_site sample_heap _ _ _ sample_chain
              ltac:(discriminate) ltac:(simpl; lia))
    as (s & h' & Hrun & Hmaps & Herrs).
  exists s, h'. split; [exact Hrun|]. split; [exact Hmaps|].
  split; apply Herrs; reflexivity.
Defined.



Lemma Error_of_wrapped_witness :
  errs sample_heap !! 0 = Some sample_head /\
  own_text sample_head <> "" /\
  err_Cause sample_head = ptr_error (Some 1) /\
  errs sample_heap !! 1 = Some sample_root /\
  (err_caller sample_root <> "" \/ err_Message sample_root <> "") /\
  Error_method sample_fmt 2 sample_heap (Some 1) = Ok "[client.fetch] (timeout): EOF" /\
  Error_method sample_fmt 3 sample_heap (Some 0) =
    Ok "[accom.load]: fetch failed: [client.fetch] (timeout): EOF".
Proof.
  assert (H0 : errs sample_heap !! 0 = Some sample_head) by (vm_compute; reflexivity).
  assert (H1 : errs sample_heap !! 1 = Some sample_root) by (vm_compute; reflexivity).
  assert (Hown : own_text sample_head <> "") by (vm_compute; discriminate).
  assert (Hcm : err_caller sample_root <> "" \/ err_Message sample_root <> "")
    by (left; vm_compute; discriminate).
  assert (Hr : Error_method sample_fmt 2 sample_heap (Some 1) =
               Ok "[client.fetch] (timeout): EOF") by (vm_compute; reflexivity).
  split; [exact H0|]. split; [exact Hown|]. split; [reflexivity|].
  split; [exact H1|]. split; [exact Hcm|]. split; [exact Hr|].
  destruct (Error_of_wrapped sample_fmt 2 sample_heap 0 sample_head H0 Hown)
    as [_ Hptr].
  exact (Hptr 1 sample_root _ eq_refl H1 Hcm Hr).
Defined.
